(** * Fabric invoice analysis: name normalisation, catalogue matching,
      invoice line parsing and price comparison

    A shallow embedding of the matching engine of [fabric_matcher.py]
    ([normalize_string], [tokenize_string], [FabricMatcher]), of the line
    parsers of [test_basic_ocr.py] ([UniversalInvoiceParser]) and of the
    price analysis of [app.py] ([analyze_invoice]).

    Modelling conventions.
    - A Python [str] is a list of characters; characters are the 7-bit ASCII
      ones (the classes [\d], [\w], [\s], [str.lower], [str.strip] and
      [str.split] are given on ASCII; a byte above 127 is an ordinary
      character that is neither a letter, a digit nor white space).
    - A Python [float] is a rational number of [Q] in the matcher and the
      parsers, where rounding is not modelled. Where the code cuts on a
      rounded value (the buckets of the price analysis of [app.py], the
      rate tolerance of [compare]) the numbers are IEEE 754 binary64
      numbers, as Python's are: the primitive [float] of [PrimFloat], whose
      operations round to nearest even.
    - [None] is [None]; a raised exception is the [Raise] result.
    - A [dict] is an association list in insertion order: assigning to a key
      that is present replaces the value in place, a new key goes last.
    - Regular expressions are syntax trees interpreted by a backtracking
      matcher that lists the matches at a position in the order in which
      Python's [re] explores them. *)

From Stdlib Require Import Ascii String.
From Stdlib Require Import List Bool Arith ZArith QArith Qminmax Qabs Lia Lqa Permutation.
From Stdlib Require Import PrimFloat.
From Stdlib Require FloatOps FloatAxioms SpecFloat.
Import ListNotations.

Set Implicit Arguments.
Set Warnings "-inexact-float".
Close Scope Q_scope.
Open Scope nat_scope.
Open Scope list_scope.

(** ** Python strings *)

Module PyStr.

Definition str := list ascii.

(** A literal. *)
Definition py (s : string) : str := list_ascii_of_string s.

Definition code (c : ascii) : nat := nat_of_ascii c.

Definition between (lo hi : nat) (c : ascii) : bool :=
  (lo <=? code c) && (code c <=? hi).

Definition is_digit (c : ascii) : bool := between 48 57 c.
Definition is_upper (c : ascii) : bool := between 65 90 c.
Definition is_lower (c : ascii) : bool := between 97 122 c.
Definition is_alpha (c : ascii) : bool := is_upper c || is_lower c.

(** [\w]: letters, digits and the underscore. *)
Definition is_word (c : ascii) : bool :=
  is_alpha c || is_digit c || (code c =? 95).

(** [\s] and [str.isspace]: TAB, LF, VT, FF, CR, FS, GS, RS, US, SPACE. *)
Definition is_space (c : ascii) : bool :=
  between 9 13 c || between 28 32 c.

Definition lower_char (c : ascii) : ascii :=
  if is_upper c then ascii_of_nat (code c + 32) else c.

Definition upper_char (c : ascii) : ascii :=
  if is_lower c then ascii_of_nat (code c - 32) else c.

(** [s.lower()] *)
Definition lower (s : str) : str := map lower_char s.

Definition eqc (a b : ascii) : bool := Ascii.eqb a b.

Fixpoint eqs (a b : str) : bool :=
  match a, b with
  | [], [] => true
  | x :: a', y :: b' => eqc x y && eqs a' b'
  | _, _ => false
  end.

(** [s.lstrip()], [s.rstrip()], [s.strip()] *)
Fixpoint lstrip (s : str) : str :=
  match s with
  | c :: s' => if is_space c then lstrip s' else s
  | [] => []
  end.

Definition rstrip (s : str) : str := rev (lstrip (rev s)).

Definition strip (s : str) : str := rstrip (lstrip s).

(** [s.startswith(p)] *)
Fixpoint startswith (p s : str) : bool :=
  match p, s with
  | [], _ => true
  | x :: p', y :: s' => eqc x y && startswith p' s'
  | _ :: _, [] => false
  end.

(** [p in s] *)
Fixpoint contains (p s : str) : bool :=
  startswith p s ||
  match s with
  | [] => false
  | _ :: s' => contains p s'
  end.

(** [s.split(sep)] for a one-character separator: empty fields are kept. *)
Fixpoint split_on (sep : ascii) (cur : str) (s : str) : list str :=
  match s with
  | [] => [rev cur]
  | c :: s' =>
      if eqc c sep then rev cur :: split_on sep [] s'
      else split_on sep (c :: cur) s'
  end.

Definition split_char (sep : ascii) (s : str) : list str := split_on sep [] s.

(** [s.split()]: runs of white space separate, no empty field. *)
Fixpoint split_ws (cur : str) (s : str) : list str :=
  match s with
  | [] => match cur with [] => [] | _ => [rev cur] end
  | c :: s' =>
      if is_space c
      then match cur with [] => split_ws [] s' | _ => rev cur :: split_ws [] s' end
      else split_ws (c :: cur) s'
  end.

Definition split (s : str) : list str := split_ws [] s.

(** [s.replace(c, '')] for a one-character [c]. *)
Definition remove_char (c : ascii) (s : str) : str :=
  filter (fun x => negb (eqc x c)) s.

Definition nonempty_str (s : str) : bool :=
  match s with [] => false | _ => true end.

(** [x in l] for a list or a set of strings. *)
Definition mem (x : str) (l : list str) : bool := existsb (eqs x) l.

(** [set(l)]: the distinct elements, in order of first occurrence. *)
Fixpoint to_set (l : list str) : list str :=
  match l with
  | [] => []
  | x :: l' => x :: filter (fun y => negb (eqs x y)) (to_set l')
  end.

(** [a & b] and [a | b] on sets. *)
Definition inter (a b : list str) : list str := filter (fun x => mem x b) a.
Definition union (a b : list str) : list str :=
  a ++ filter (fun x => negb (mem x a)) b.

End PyStr.

Import PyStr.

(** ** Regular expressions, as Python's [re] matches them *)

Module Re.

(** Members of a character set [[...]]. *)
Inductive cls : Type :=
| Ch (c : ascii)
| Rng (lo hi : ascii)
| Dig
| Wrd
| Spc.

Inductive re : Type :=
| Eps
| Lit (c : ascii)
| Any (l : list cls)
| NoneOf (l : list cls)
| Cat (r1 r2 : re)
| Alt (r1 r2 : re)
| Star (r : re)
| Rep (r : re) (lo : nat) (hi : option nat)
| Grp (n : nat) (r : re)
| WordB
| Bol
| Eol.

Definition Plus (r : re) : re := Rep r 1 None.
Definition Opt (r : re) : re := Rep r 0 (Some 1).

Fixpoint seq (l : list re) : re :=
  match l with
  | [] => Eps
  | [r] => r
  | r :: l' => Cat r (seq l')
  end.

Fixpoint alt (l : list re) : re :=
  match l with
  | [] => Any []
  | [r] => r
  | r :: l' => Alt r (alt l')
  end.

(** A literal word. *)
Definition word (s : string) : re := seq (map Lit (py s)).

Definition cls_here (k : cls) (c : ascii) : bool :=
  match k with
  | Ch x => eqc x c
  | Rng lo hi => between (code lo) (code hi) c
  | Dig => is_digit c
  | Wrd => is_word c
  | Spc => is_space c
  end.

(** With [re.IGNORECASE] a character matches when one of its cases does. *)
Definition cls_match (ic : bool) (k : cls) (c : ascii) : bool :=
  cls_here k c || (ic && (cls_here k (lower_char c) || cls_here k (upper_char c))).

Definition set_match (ic : bool) (l : list cls) (c : ascii) : bool :=
  existsb (fun k => cls_match ic k c) l.

(** A matcher state: the text before the position (nearest character
    first), the text from the position on, and the groups captured so far
    (latest first). *)
Record st : Type := mkst { pre : str; rest : str; caps : list (nat * str) }.

Definition eat (p : ascii -> bool) (s : st) : list st :=
  match rest s with
  | c :: r' => if p c then [mkst (c :: pre s) r' (caps s)] else []
  | [] => []
  end.

Definition word_before (s : st) : bool :=
  match pre s with c :: _ => is_word c | [] => false end.
Definition word_after (s : st) : bool :=
  match rest s with c :: _ => is_word c | [] => false end.

Definition guard (b : bool) (s : st) : list st := if b then [s] else [].

(** Greedy iteration: one more round first, stopping last; a round that
    consumes nothing ends the loop. *)
Fixpoint iter (fuel : nat) (f : st -> list st) (s : st) : list st :=
  match fuel with
  | O => [s]
  | S n =>
      flat_map (fun s' => if length (rest s') <? length (rest s)
                          then iter n f s' else [])
               (f s) ++ [s]
  end.

Definition star_of (f : st -> list st) (s : st) : list st :=
  iter (length (rest s)) f s.

Fixpoint exactly (k : nat) (f : st -> list st) (s : st) : list st :=
  match k with
  | O => [s]
  | S k' => flat_map (exactly k' f) (f s)
  end.

Fixpoint upto (k : nat) (f : st -> list st) (s : st) : list st :=
  match k with
  | O => [s]
  | S k' => flat_map (upto k' f) (f s) ++ [s]
  end.

(** The text consumed between two states of one match. *)
Definition consumed (s s' : st) : str :=
  firstn (length (rest s) - length (rest s')) (rest s).

(** [run ic r s]: the states after a match of [r] at [s], in the order of
    Python's backtracking (the first one is the match Python returns once
    the rest of the pattern succeeds). *)
Fixpoint run (ic : bool) (r : re) (s : st) : list st :=
  match r with
  | Eps => [s]
  | Lit c => eat (fun x => cls_match ic (Ch c) x) s
  | Any l => eat (set_match ic l) s
  | NoneOf l => eat (fun x => negb (set_match ic l x)) s
  | Cat r1 r2 => flat_map (run ic r2) (run ic r1 s)
  | Alt r1 r2 => run ic r1 s ++ run ic r2 s
  | Star r' => star_of (run ic r') s
  | Rep r' lo None => flat_map (star_of (run ic r')) (exactly lo (run ic r') s)
  | Rep r' lo (Some hi) =>
      flat_map (upto (hi - lo) (run ic r')) (exactly lo (run ic r') s)
  | Grp n r' =>
      map (fun s' => mkst (pre s') (rest s') ((n, consumed s s') :: caps s'))
          (run ic r' s)
  | WordB => guard (xorb (word_before s) (word_after s)) s
  | Bol => guard (match pre s with [] => true | _ => false end) s
  | Eol => guard (match rest s with
                  | [] => true
                  | [c] => code c =? 10
                  | _ => false
                  end) s
  end.

(** A match object: where it starts, and the state at its end. *)
Record mobj : Type := mkm { m_before : str; m_end : st }.

(** [m.start()], [m.group(n)], [line[:m.start()]] *)
Definition start (m : mobj) : nat := length (m_before m).
Definition before (m : mobj) : str := rev (m_before m).

Fixpoint assoc (n : nat) (l : list (nat * str)) : option str :=
  match l with
  | [] => None
  | (k, v) :: l' => if k =? n then Some v else assoc n l'
  end.

Definition group (n : nat) (m : mobj) : option str := assoc n (caps (m_end m)).

Definition match_here (ic : bool) (r : re) (p t : str) : option mobj :=
  match run ic r (mkst p t []) with
  | s :: _ => Some (mkm p s)
  | [] => None
  end.

(** [re.match(r, s)] *)
Definition re_match (ic : bool) (r : re) (s : str) : option mobj :=
  match_here ic r [] s.

Fixpoint search_from (ic : bool) (r : re) (p t : str) : option mobj :=
  match match_here ic r p t with
  | Some m => Some m
  | None =>
      match t with
      | [] => None
      | c :: t' => search_from ic r (c :: p) t'
      end
  end.

(** [re.search(r, s)] *)
Definition re_search (ic : bool) (r : re) (s : str) : option mobj :=
  search_from ic r [] s.

(** [re.fullmatch(r, s)] as a truth value *)
Definition re_fullmatch (ic : bool) (r : re) (s : str) : bool :=
  existsb (fun e => match rest e with [] => true | _ => false end)
          (run ic r (mkst [] s [])).

(** [re.sub(r, repl, s)] for a pattern that matches no empty string (all
    the patterns substituted below are such): the leftmost matches, not
    overlapping, are replaced. *)
Fixpoint sub_from (fuel : nat) (ic : bool) (r : re) (repl p t : str) : str :=
  match fuel with
  | O => t
  | S n =>
      let skip :=
        match t with
        | [] => []
        | c :: t' => c :: sub_from n ic r repl (c :: p) t'
        end in
      match match_here ic r p t with
      | Some m =>
          if length (rest (m_end m)) <? length t
          then repl ++ sub_from n ic r repl (pre (m_end m)) (rest (m_end m))
          else skip
      | None => skip
      end
  end.

Definition re_sub (ic : bool) (r : re) (repl s : str) : str :=
  sub_from (S (length s)) ic r repl [] s.

(** Frequent pieces. *)
Definition d : re := Any [Dig].
Definition ws : re := Any [Spc].
Definition dn (lo : nat) (hi : option nat) : re := Rep d lo hi.
Definition AZ : re := Any [Rng "A" "Z"].
Definition az : re := Any [Rng "a" "z"].

End Re.

Import Re.

(** ** [fabric_matcher.py]: normalisation *)

(** The [noise_patterns] of [normalize_string]. *)
Definition noise_patterns : list re :=
  [ (* \b\d{1,2}\b *)
    seq [WordB; dn 1 (Some 2); WordB];
    (* \b5%\b *)
    seq [WordB; Lit "5"; Lit "%"; WordB];
    (* \b[A-Z]{2}\d{2}[A-Z]{5}\d{2}\b *)
    seq [WordB; Rep AZ 2 (Some 2); dn 2 (Some 2); Rep AZ 5 (Some 5);
         dn 2 (Some 2); WordB];
    (* [^\w\s\-] *)
    NoneOf [Wrd; Spc; Ch "-"];
    (* \s+ *)
    Plus ws ].

(** [^[-]+|[-]+$] *)
Definition edge_hyphens : re :=
  Alt (Cat Bol (Plus (Any [Ch "-"]))) (Cat (Plus (Any [Ch "-"])) Eol).

Definition normalize_string (s : str) : str :=
  match s with
  | [] => []
  | _ =>
      let s := lower s in
      let s := fold_left (fun s pattern => re_sub false pattern (py " ") s)
                         noise_patterns s in
      let s := strip (re_sub false (Plus ws) (py " ") s) in
      re_sub false edge_hyphens [] s
  end.

(** [tokenize_string] *)
Definition tokenize_string (s : str) : list str :=
  let s := normalize_string s in
  filter (fun token => 2 <=? length token) (split s).

(** ** Exceptions and arithmetic *)

Inductive exn : Type := ZeroDivisionError | ValueError.

Inductive result (A : Type) : Type :=
| Ok (a : A)
| Raise (e : exn).

Arguments Ok {A} a.
Arguments Raise {A} e.

Definition bind {A B : Type} (x : result A) (f : A -> result B) : result B :=
  match x with
  | Ok a => f a
  | Raise e => Raise e
  end.

Notation "x <- e1 ;; e2" := (bind e1 (fun x => e2))
  (at level 61, e1 at next level, right associativity).

(** A loop whose body may raise. *)
Fixpoint for_each {A S : Type} (body : S -> A -> result S) (l : list A) (s : S)
  : result S :=
  match l with
  | [] => Ok s
  | x :: l' => s' <- body s x ;; for_each body l' s'
  end.

Definition QN (n : nat) : Q := inject_Z (Z.of_nat n).

(** [a / b] on floats. *)
Definition pdiv (a b : Q) : result Q :=
  if Qeq_bool b 0 then Raise ZeroDivisionError else Ok (a / b)%Q.

Definition Qltb (a b : Q) : bool := negb (Qle_bool b a).

(** Truth value of a float. *)
Definition truthy (x : Q) : bool := negb (Qeq_bool x 0).

(** Truth value of an [Optional[float]]. *)
Definition some_truthy (x : option Q) : bool :=
  match x with Some q => truthy q | None => false end.

(** Truth value of a binary64 number: false for the two zeros only. *)
Definition float_truthy (x : float) : bool := negb (x =? 0)%float.

(** [a / b] on binary64 numbers: a zero divisor raises. *)
Definition float_div (a b : float) : result float :=
  if (b =? 0)%float then Raise ZeroDivisionError else Ok (a / b)%float.

(** ** [fabric_matcher.py]: the matcher *)

Module FabricMatcher.

Record ParsedFabric : Type := mkParsed {
  material_name : str;
  quantity : Q;
  rate : Q;
  amount : Q;
  source_invoice : str }.

Record DatabaseFabric : Type := mkDb {
  db_material_name : str;
  default_purchase_price : Q }.

Record MatchResult : Type := mkResult {
  parsed_fabric : ParsedFabric;
  database_fabric : option DatabaseFabric;
  match_score : Q;
  match_algorithm : string;
  confidence_level : string;
  suggested_price : option Q;
  price_difference : option Q;
  price_difference_percent : option Q }.

(** The index: a [dict] from normalised name to fabric. *)
Definition index := list (str * DatabaseFabric).

(** [index[k] = v] *)
Fixpoint dict_set (k : str) (v : DatabaseFabric) (ix : index) : index :=
  match ix with
  | [] => [(k, v)]
  | (k', v') :: ix' =>
      if eqs k' k then (k', v) :: ix' else (k', v') :: dict_set k v ix'
  end.

(** [index.get(k)] *)
Fixpoint dict_get (k : str) (ix : index) : option DatabaseFabric :=
  match ix with
  | [] => None
  | (k', v) :: ix' => if eqs k' k then Some v else dict_get k ix'
  end.

Definition _build_index (database_fabrics : list DatabaseFabric) : index :=
  fold_left
    (fun ix fabric =>
       let normalized := normalize_string (db_material_name fabric) in
       match normalized with
       | [] => ix
       | _ => dict_set normalized fabric ix
       end)
    database_fabrics [].

(** The running best candidate of a strategy's scan. *)
Definition best : Type := (option DatabaseFabric * Q)%type.

Definition best0 : best := (None, 0%Q).

(** [if score > best_score: best_score = score; best_match = fabric] *)
Definition keep_best (score : Q) (fabric : DatabaseFabric) (b : best) : best :=
  if Qltb (snd b) score then (Some fabric, score) else b.

(** [(best_match, best_score) if best_score >= t else None] *)
Definition above (t : Q) (b : best) : option best :=
  if Qle_bool t (snd b) then Some b else None.

Definition exact_match (db_index : index) (parsed_name : str) : option best :=
  let normalized_parsed := normalize_string parsed_name in
  match dict_get normalized_parsed db_index with
  | Some fabric => Some (Some fabric, 100%Q)
  | None => None
  end.

Definition nonempty {A : Type} (l : list A) : bool :=
  match l with [] => false | _ => true end.

Definition substring_stop : list str :=
  [py "a"; py "h"; py "s"; py "home"; py "ddecor"; py "sujan"].

Definition substring_body (normalized_parsed : str) (parsed_tokens : list str)
  (b : best) (item : str * DatabaseFabric) : result best :=
  let '(db_name, fabric) := item in
  let db_tokens := to_set (tokenize_string db_name) in
  b <- (if contains normalized_parsed db_name then
          match_ratio <- pdiv (QN (length normalized_parsed)) (QN (length db_name)) ;;
          Ok (keep_best (Qmin 95 (80 + match_ratio * 20)) fabric b)
        else if contains db_name normalized_parsed then
          match_ratio <- pdiv (QN (length db_name)) (QN (length normalized_parsed)) ;;
          Ok (keep_best (Qmin 95 (80 + match_ratio * 20)) fabric b)
        else Ok b) ;;
  if nonempty parsed_tokens && nonempty db_tokens then
    let db_tokens_clean :=
      filter (fun token => negb (mem token substring_stop)) db_tokens in
    let overlap := length (inter parsed_tokens db_tokens_clean) in
    let total := length (union parsed_tokens db_tokens_clean) in
    if 0 <? overlap then
      ratio <- pdiv (QN overlap) (QN total) ;;
      Ok (keep_best (ratio * 90) fabric b)
    else Ok b
  else Ok b.

Definition substring_match (db_index : index) (parsed_name : str)
  : result (option best) :=
  let normalized_parsed := normalize_string parsed_name in
  let parsed_tokens := to_set (tokenize_string parsed_name) in
  b <- for_each (substring_body normalized_parsed parsed_tokens) db_index best0 ;;
  Ok (above 60 b).

(** [prefix_patterns], both applied with [re.IGNORECASE]. *)
Definition prefix_patterns : list re :=
  [ (* ^[a-z]\s*-\s* *)
    seq [Bol; az; Star ws; Lit "-"; Star ws];
    (* ^[a-z]+\s* *)
    seq [Bol; Plus az; Star ws] ].

Definition prefix_tokens : list str :=
  [py "a"; py "h"; py "s"; py "home"; py "ddecor"; py "sujan"; py "agora"].

Definition prefix_body (normalized_parsed : str) (parsed_tokens : list str)
  (b : best) (item : str * DatabaseFabric) : result best :=
  let '(db_name, fabric) := item in
  let db_tokens := to_set (tokenize_string db_name) in
  let db_name_clean :=
    fold_left (fun s pattern => re_sub true pattern [] s) prefix_patterns db_name in
  b <- (if contains normalized_parsed db_name_clean
           || contains db_name_clean normalized_parsed then
          match_ratio <- pdiv (QN (length normalized_parsed))
                              (QN (Nat.max (length db_name_clean)
                                           (length normalized_parsed))) ;;
          Ok (keep_best (Qmin 95 (85 + match_ratio * 15)) fabric b)
        else Ok b) ;;
  if nonempty parsed_tokens && nonempty db_tokens then
    let db_tokens_clean :=
      filter (fun token => negb (mem (lower token) prefix_tokens)) db_tokens in
    if nonempty db_tokens_clean then
      let overlap := length (inter parsed_tokens db_tokens_clean) in
      let total := length (union parsed_tokens db_tokens_clean) in
      if 2 <=? overlap then
        ratio <- pdiv (QN overlap) (QN total) ;;
        Ok (keep_best (ratio * 95) fabric b)
      else Ok b
    else Ok b
  else Ok b.

Definition prefix_based_match (db_index : index) (parsed_name : str)
  : result (option best) :=
  let normalized_parsed := normalize_string parsed_name in
  let parsed_tokens := to_set (tokenize_string parsed_name) in
  b <- for_each (prefix_body normalized_parsed parsed_tokens) db_index best0 ;;
  Ok (above 70 b).

Definition fabric_types : list str :=
  map py ["cotton"; "silk"; "wool"; "linen"; "polyester"; "rayon"; "nylon";
          "acrylic"]%string.
Definition colors : list str :=
  map py ["red"; "blue"; "green"; "yellow"; "black"; "white"; "brown"; "pink";
          "purple"; "orange"; "gray"; "grey"]%string.
Definition patterns : list str :=
  map py ["striped"; "checked"; "floral"; "geometric"; "solid"; "print";
          "embroidery"]%string.

(** One of the three keyword loops: [(score, total_keywords)] is updated
    for every parsed token of the class. *)
Definition keyword_pass (class : list str) (points : Q)
  (parsed_tokens db_tokens : list str) (acc : Q * nat) : Q * nat :=
  fold_left
    (fun '(score, total_keywords) token =>
       if mem token class then
         (if mem token db_tokens then (score + points)%Q else score,
          S total_keywords)
       else (score, total_keywords))
    parsed_tokens acc.

Definition semantic_body (parsed_tokens : list str)
  (b : best) (item : str * DatabaseFabric) : result best :=
  let '(db_name, fabric) := item in
  let db_tokens := tokenize_string db_name in
  let acc := keyword_pass fabric_types 25 parsed_tokens db_tokens (0%Q, 0) in
  let acc := keyword_pass colors 20 parsed_tokens db_tokens acc in
  let '(score, total_keywords) :=
    keyword_pass patterns 15 parsed_tokens db_tokens acc in
  if 0 <? total_keywords then
    ratio <- pdiv score (QN total_keywords) ;;
    Ok (keep_best (ratio * 100) fabric b)
  else Ok b.

Definition semantic_match (db_index : index) (parsed_name : str)
  : result (option best) :=
  let parsed_tokens := tokenize_string parsed_name in
  b <- for_each (semantic_body parsed_tokens) db_index best0 ;;
  Ok (above 50 b).

(** [_create_match_result] *)
Definition _create_match_result (parsed : ParsedFabric)
  (db_fabric : option DatabaseFabric) (score : Q) (algorithm confidence : string)
  : result MatchResult :=
  let suggested := option_map default_purchase_price db_fabric in
  diffs <-
    match suggested with
    | Some price =>
        if truthy price && truthy (rate parsed) then
          let difference := Qabs (rate parsed - price) in
          ratio <- pdiv difference price ;;
          Ok (Some difference, Some (ratio * 100)%Q)
        else Ok (None, None)
    | None => Ok (None, None)
    end ;;
  Ok (mkResult parsed db_fabric score algorithm confidence suggested
               (fst diffs) (snd diffs)).

(** The third-party similarity measures of [fuzzy_match] ([difflib],
    [jellyfish], [fuzzywuzzy]) are parameters of the matcher. *)
Section Matcher.

Variable seq_ratio : str -> str -> Q.
Variable jaro_winkler_similarity : str -> str -> Q.
Variable levenshtein_distance : str -> str -> nat.
Variables fuzz_ratio fuzz_partial fuzz_token_sort fuzz_token_set
  : str -> str -> nat.

Definition Qsum (l : list Q) : Q := fold_left Qplus l 0%Q.

Definition fuzzy_body (normalized_parsed : str)
  (b : best) (item : str * DatabaseFabric) : result best :=
  let '(db_name, fabric) := item in
  let seq_score := (seq_ratio normalized_parsed db_name * 100)%Q in
  let jaro_score := (jaro_winkler_similarity normalized_parsed db_name * 100)%Q in
  ratio <- pdiv (QN (levenshtein_distance normalized_parsed db_name))
                (QN (Nat.max (length normalized_parsed) (length db_name))) ;;
  let lev_score := Qmax 0 (100 - ratio * 100) in
  let scores :=
    [seq_score; jaro_score; lev_score;
     QN (fuzz_ratio normalized_parsed db_name);
     QN (fuzz_partial normalized_parsed db_name);
     QN (fuzz_token_sort normalized_parsed db_name);
     QN (fuzz_token_set normalized_parsed db_name)] in
  avg_score <- pdiv (Qsum scores) (QN (length scores)) ;;
  Ok (keep_best avg_score fabric b).

Definition fuzzy_match (db_index : index) (parsed_name : str)
  : result (option best) :=
  let normalized_parsed := normalize_string parsed_name in
  b <- for_each (fuzzy_body normalized_parsed) db_index best0 ;;
  Ok (above 70 b).

Definition fabric_of (b : best) : option DatabaseFabric := fst b.
Definition score_of (b : best) : Q := snd b.

Definition high_or_medium (score : Q) : string :=
  if Qle_bool 85 score then "HIGH"%string else "MEDIUM"%string.

Definition match_fabric (db_index : index) (parsed : ParsedFabric)
  : result MatchResult :=
  let parsed_name := material_name parsed in
  match exact_match db_index parsed_name with
  | Some b =>
      _create_match_result parsed (fabric_of b) (score_of b) "EXACT_MATCH" "HIGH"
  | None =>
  prefix_result <- prefix_based_match db_index parsed_name ;;
  match prefix_result with
  | Some b =>
      _create_match_result parsed (fabric_of b) (score_of b)
        "PREFIX_BASED_MATCH" (high_or_medium (score_of b))
  | None =>
  substring_result <- substring_match db_index parsed_name ;;
  match substring_result with
  | Some b =>
      _create_match_result parsed (fabric_of b) (score_of b)
        "SUBSTRING_MATCH" (high_or_medium (score_of b))
  | None =>
  fuzzy_result <- fuzzy_match db_index parsed_name ;;
  match fuzzy_result with
  | Some b =>
      _create_match_result parsed (fabric_of b) (score_of b)
        "FUZZY_MATCH" (high_or_medium (score_of b))
  | None =>
  semantic_result <- semantic_match db_index parsed_name ;;
  match semantic_result with
  | Some b =>
      _create_match_result parsed (fabric_of b) (score_of b) "SEMANTIC_MATCH"
        (if Qle_bool 70 (score_of b) then "MEDIUM" else "LOW")%string
  | None =>
      _create_match_result parsed None 0%Q "NO_MATCH" "NO_MATCH"
  end end end end end.

(** [FabricMatcher(database_fabrics).match_fabric(parsed)] *)
Definition matcher (database_fabrics : list DatabaseFabric)
  (parsed : ParsedFabric) : result MatchResult :=
  match_fabric (_build_index database_fabrics) parsed.

End Matcher.

End FabricMatcher.

(** ** [test_basic_ocr.py]: the invoice line parsers *)

Module Parser.

Record InvoiceLine : Type := mkLine {
  material_name : str;
  quantity : option Q;
  amount : option Q;
  rate : option Q }.

(** *** [float(s)] on decimal numerals

    An optional sign, digits, and optionally a point and digits, with a
    digit somewhere; anything else is a [ValueError] (exponents, [inf],
    [nan], underscores and surrounding white space do not occur in the
    texts converted below). *)

Definition digit_val (c : ascii) : Z := Z.of_nat (code c - 48).

Definition digits_val (l : str) : Z :=
  fold_left (fun acc c => (acc * 10 + digit_val c)%Z) l 0%Z.

Fixpoint until_point (cur : str) (s : str) : str * option str :=
  match s with
  | [] => (rev cur, None)
  | c :: s' => if eqc c "." then (rev cur, Some s') else until_point (c :: cur) s'
  end.

Definition unsigned_float (s : str) : option Q :=
  let '(int_part, frac) := until_point [] s in
  let frac_part := match frac with Some f => f | None => [] end in
  if forallb is_digit int_part && forallb is_digit frac_part
     && nonempty_str (int_part ++ frac_part)
  then Some (Qmake (digits_val (int_part ++ frac_part))
                   (Z.to_pos (10 ^ Z.of_nat (length frac_part))))
  else None.

Definition float (s : str) : result Q :=
  let r :=
    match s with
    | "-"%char :: s' => option_map Qopp (unsigned_float s')
    | "+"%char :: s' => unsigned_float s'
    | _ => unsigned_float s
    end in
  match r with
  | Some q => Ok q
  | None => Raise ValueError
  end.

Definition dquote : ascii := "034"%char.

(** [(\d+(?:\.\d+)?)] and [([\d,]+(?:\.\d+)?)] as group [n] *)
Definition num (n : nat) : re :=
  Grp n (Cat (Plus d) (Opt (Cat (Lit ".") (Plus d)))).
Definition amt (n : nat) : re :=
  Grp n (Cat (Plus (Any [Dig; Ch ","])) (Opt (Cat (Lit ".") (Plus d)))).

Definition sws : re := Star ws.
Definition Mtr : re := word "Mtr".
Definition Mtr_or_Meter : re := alt [word "Mtr"; word "Meter"].

(** The [patterns] of [_parse_sarom_format], all searched with [re.I];
    four of them occur several times in the list. *)

(** (\d+(?:\.\d+)?)\s*Mtr\s*(\d+(?:\.\d+)?)\s*Mtr\s*([\d,]+(?:\.\d+)?) *)
Definition sarom_plain : re :=
  seq [num 1; sws; Mtr; sws; num 2; sws; Mtr; sws; amt 3].

(** (\d+(?:\.\d+)?)\s*Mtr\Q\s*(\d+(?:\.\d+)?)\s*Mtr\s*([\d,]+(?:\.\d+)?),
    where Q is the double quote *)
Definition sarom_quote : re :=
  seq [num 1; sws; Mtr; Lit dquote; sws; num 2; sws; Mtr; sws; amt 3].

(** (\d+(?:\.\d+)?)\s*(?:Mtr|Meter)\s*(\d+(?:\.\d+)?)\s*(?:Mtr|Meter)\s*([\d,]+(?:\.\d+)?) *)
Definition sarom_either : re :=
  seq [num 1; sws; Mtr_or_Meter; sws; num 2; sws; Mtr_or_Meter; sws; amt 3].

(** (\d+(?:\.\d+)?)\s*Mtr[^\d]*\s*(\d+(?:\.\d+)?)\s*Mtr\s*([\d,]+(?:\.\d+)?) *)
Definition sarom_flexible : re :=
  seq [num 1; sws; Mtr; Star (NoneOf [Dig]); sws; num 2; sws; Mtr; sws; amt 3].

(** (\d+(?:\.\d+)?)\s*(?:My|Mtr|Meter|Mtr,|Mtr~|Mtr\Q)\s*(\d+(?:\.\d+)?)\s*(?:Mu|Mtr|Meter)\s*([\d,]+(?:\.\d+)?),
    where Q is the double quote: the first of the patterns. *)
Definition sarom_first : re :=
  seq [num 1; sws;
       alt [word "My"; word "Mtr"; word "Meter"; word "Mtr,"; word "Mtr~";
            Cat Mtr (Lit dquote)];
       sws; num 2; sws; alt [word "Mu"; word "Mtr"; word "Meter"]; sws; amt 3].

(** The list, in the order of the source. *)
Definition sarom_patterns : list re :=
  [ sarom_first;
    sarom_either;
    (* (\d+(?:\.\d+)?)(?:Mtr|Meter)(?:,|~|-)\s*(\d+(?:\.\d+)?)\s*(?:Mtr|Meter)\s*([\d,]+(?:\.\d+)?) *)
    seq [num 1; Mtr_or_Meter; alt [Lit ","; Lit "~"; Lit "-"]; sws; num 2; sws;
         Mtr_or_Meter; sws; amt 3];
    (* (\d+(?:\.\d+)?)\s*Mtr~\s*,?\s*(\d+(?:\.\d+)?)\s*Mtr\s*([\d,]+(?:\.\d+)?) *)
    seq [num 1; sws; word "Mtr~"; sws; Opt (Lit ","); sws; num 2; sws; Mtr; sws;
         amt 3];
    (* (\d+(?:\.\d+)?)\s*Mtr,\s*(\d+(?:\.\d+)?)\s*Mtr\s*([\d,]+(?:\.\d+)?) *)
    seq [num 1; sws; word "Mtr,"; sws; num 2; sws; Mtr; sws; amt 3];
    sarom_quote;
    sarom_plain;
    sarom_either;
    sarom_quote;
    (* (\d+(?:\.\d+)?)\s*Mtr-\s*(\d+(?:\.\d+)?)\s*Mu\s*([\d,]+(?:\.\d+)?) *)
    seq [num 1; sws; word "Mtr-"; sws; num 2; sws; word "Mu"; sws; amt 3];
    sarom_plain;
    sarom_plain;
    sarom_quote;
    sarom_plain;
    sarom_quote;
    sarom_flexible;
    sarom_flexible ].

Definition letter : re := Any [Rng "A" "Z"; Rng "a" "z"].

(** [[A-Z]{2}\d{2}[A-Z]{5}\d[A-Z]\d[A-Z]\d] *)
Definition gstin_like : re :=
  seq [Rep AZ 2 (Some 2); dn 2 (Some 2); Rep AZ 5 (Some 5); d; AZ; d; AZ; d].

(** The [noise_patterns] of [_clean_sarom_fabric_name] ([re.I]). *)
Definition sarom_noise : list re :=
  [ (* \b5%\b *) seq [WordB; Lit "5"; Lit "%"; WordB];
    (* \b\d{8}\b *) seq [WordB; dn 8 (Some 8); WordB];
    (* \b\d{6,7}\b *) seq [WordB; dn 6 (Some 7); WordB];
    (* \b\d{1,2}\b *) seq [WordB; dn 1 (Some 2); WordB];
    gstin_like;
    (* \b[A-Za-z]{8,}\d{2,}\b *)
    seq [WordB; Rep letter 8 None; dn 2 None; WordB];
    (* \b\d{2,}[A-Za-z]{3,}\d{2,}\b *)
    seq [WordB; dn 2 None; Rep letter 3 None; dn 2 None; WordB];
    (* \b[A-Za-z]{4,}\d{2,}[A-Za-z]{2,}\d{2,}\b *)
    seq [WordB; Rep letter 4 None; dn 2 None; Rep letter 2 None; dn 2 None; WordB];
    (* \b[A-Za-z]{6,}\d{2,}\b *)
    seq [WordB; Rep letter 6 None; dn 2 None; WordB];
    (* [^\w\s\-] *) NoneOf [Wrd; Spc; Ch "-"];
    (* \s+ *) Plus ws;
    (* ^\s+|\s+$ *) Alt (Cat Bol (Plus ws)) (Cat (Plus ws) Eol) ].

Definition _clean_sarom_fabric_name (name : str) : str :=
  match name with
  | [] => []
  | _ =>
      let name := fold_left (fun s pattern => re_sub true pattern (py " ") s)
                            sarom_noise name in
      let name := strip (re_sub false (Plus ws) (py " ") name) in
      let name := strip (re_sub false edge_hyphens [] name) in
      if (3 <=? length name) && negb (re_fullmatch false (Plus (Any [Dig; Spc])) name)
      then name else []
  end.

Definition group_or_empty (n : nat) (m : mobj) : str :=
  match group n m with Some g => g | None => [] end.

(** The body of the loop over [patterns] for one line: [Some item] is the
    appended item (followed by [break]), [None] is the loop running to
    its end. *)
Fixpoint sarom_try (patterns : list re) (line : str) : result (option InvoiceLine) :=
  match patterns with
  | [] => Ok None
  | pattern :: more =>
      match re_search true pattern line with
      | Some m =>
          qty <- float (group_or_empty 1 m) ;;
          rate <- float (group_or_empty 2 m) ;;
          amount <- float (remove_char "," (group_or_empty 3 m)) ;;
          let name_part := strip (before m) in
          let clean_name := _clean_sarom_fabric_name name_part in
          if nonempty_str name_part && (3 <=? length clean_name)
          then Ok (Some (mkLine clean_name (Some qty) (Some amount) (Some rate)))
          else sarom_try more line
      | None => sarom_try more line
      end
  end.

Definition _parse_sarom_format (text : str) : result (list InvoiceLine) :=
  for_each
    (fun fabric_details line =>
       let line := strip line in
       if length line <? 10 then Ok fabric_details
       else
         item <- sarom_try sarom_patterns line ;;
         match item with
         | Some it => Ok (fabric_details ++ [it])
         | None => Ok fabric_details
         end)
    (split_char "010" text) [].

(** The [noise_patterns] of [_clean_fabric_name] ([re.I]); the section
    sign is character 167. *)
Definition generic_noise : list re :=
  [ (* \b(GSTIN|GST|...|Email)\b *)
    seq [WordB;
         Grp 1 (alt [word "GSTIN"; word "GST"; word "IGST"; word "CGST";
                     word "SGST"; word "Tax"; word "Total";
                     seq [word "Sub"; Opt (Any [Ch "-"; Ch " "]); word "total"];
                     word "Grand Total"; word "Invoice"; word "Bill";
                     word "Address"; word "Ship To"; word "PIN"; word "Pincode";
                     word "Phone"; word "Mobile"; word "Email"]);
         WordB];
    gstin_like;
    (* \b\d{6}\b *) seq [WordB; dn 6 (Some 6); WordB];
    (* \b5%\b *) seq [WordB; Lit "5"; Lit "%"; WordB];
    (* \|\s*%[^|]*$ *) seq [Lit "|"; sws; Lit "%"; Star (NoneOf [Ch "|"]); Eol];
    (* ^\d+\s+ *) seq [Bol; Plus d; Plus ws];
    (* \s+\$\d+\s* *) seq [Plus ws; Lit "$"; Plus d; sws];
    (* \s+§\d+\s* *) seq [Plus ws; Lit "167"; Plus d; sws] ].

(** [^[:\-\s|]+|[:\-\s|]+$] *)
Definition edge_punct : re :=
  let k := Any [Ch ":"; Ch "-"; Spc; Ch "|"] in
  Alt (Cat Bol (Plus k)) (Cat (Plus k) Eol).

(** [[₹\d\s\.,/-]+]: the rupee sign is outside the characters modelled. *)
Definition money_only : re :=
  Plus (Any [Dig; Spc; Ch "."; Ch ","; Ch "/"; Ch "-"]).

Definition _clean_fabric_name (name : str) : str :=
  match name with
  | [] => []
  | _ =>
      let name := fold_left (fun s pattern => re_sub true pattern [] s)
                            generic_noise name in
      let name := strip (re_sub false (Plus ws) (py " ") name) in
      let name := re_sub false edge_punct [] name in
      if (3 <=? length name) && negb (re_fullmatch false money_only name)
      then name else []
  end.

(** [(\d+(?:\.\d+)?)\s*(?:per|/)\s*(?:mtr|meter|pcs)] ([re.I]) *)
Definition rate_pattern : re :=
  seq [num 1; sws; alt [word "per"; Lit "/"]; sws;
       alt [word "mtr"; word "meter"; word "pcs"]].

(** [₹?\s*([\d,]+(?:\.\d+)?)]: the optional rupee sign matches nothing. *)
Definition amount_pattern : re := seq [Opt (Any []); sws; amt 1].

(** [try: x = float(s) except ValueError: pass] *)
Definition try_float (s : str) (old : option Q) : option Q :=
  match float s with
  | Ok q => Some q
  | Raise _ => old
  end.

Definition context_step (ra : option Q * option Q) (line : str)
  : option Q * option Q :=
  let '(rate, amount) := ra in
  let line := strip line in
  let rate :=
    if some_truthy rate then rate
    else match re_search true rate_pattern line with
         | Some m =>
             if nonempty_str (group_or_empty 1 m)
             then try_float (group_or_empty 1 m) rate else rate
         | None => rate
         end in
  let amount :=
    if some_truthy amount then amount
    else match re_search false amount_pattern line with
         | Some m =>
             if nonempty_str (group_or_empty 1 m)
             then try_float (remove_char "," (group_or_empty 1 m)) amount
             else amount
         | None => amount
         end in
  (rate, amount).

(** [lines[max(0, i - 2) : min(len(lines), i + 3)]] *)
Definition window (lines : list str) (i : nat) : list str :=
  firstn (Nat.min (length lines) (i + 3) - (i - 2)) (skipn (i - 2) lines).

Definition _find_rate_amount_in_context (lines : list str) (current_line : nat)
  : option Q * option Q :=
  fold_left context_step (window lines current_line) (None, None).

Definition _extract_fabric_from_line (line : str) (lines : list str)
  (line_index : nat)
  : result (option str * option Q * option Q * option Q) :=
  let name :=
    (* ^([A-Za-z\s\-]+) *)
    match re_match false
            (Cat Bol (Grp 1 (Plus (Any [Rng "A" "Z"; Rng "a" "z"; Spc; Ch "-"]))))
            line with
    | Some m => Some (strip (group_or_empty 1 m))
    | None => None
    end in
  qty <- match re_search false (num 1) line with
         | Some m => q <- float (group_or_empty 1 m) ;; Ok (Some q)
         | None => Ok None
         end ;;
  let '(rate, amount) := _find_rate_amount_in_context lines line_index in
  Ok (name, qty, rate, amount).

Definition is_some {A : Type} (x : option A) : bool :=
  match x with Some _ => true | None => false end.

Definition generic_line (lines : list str)
  (fabric_details : list InvoiceLine) (il : nat * str)
  : result (list InvoiceLine) :=
  let '(i, line) := il in
  let line := strip line in
  if length line <? 10 then Ok fabric_details
  else if is_some (re_search false letter line)
          && is_some (re_search false (Plus d) line) then
    x <- _extract_fabric_from_line line lines i ;;
    let '(name, qty, rate, amount) := x in
    match name with
    | Some name =>
        if nonempty_str name && some_truthy qty && some_truthy rate
           && some_truthy amount then
          let clean_name := _clean_fabric_name name in
          if nonempty_str clean_name
          then Ok (fabric_details ++ [mkLine clean_name qty amount rate])
          else Ok fabric_details
        else Ok fabric_details
    | None => Ok fabric_details
    end
  else Ok fabric_details.

Definition enumerate {A : Type} (l : list A) : list (nat * A) :=
  combine (List.seq 0 (length l)) l.

Definition _parse_generic_format (text : str) : result (list InvoiceLine) :=
  let lines := split_char "010" text in
  for_each (generic_line lines) (enumerate lines) [].

End Parser.

(** ** [app.py]: the price analysis of [analyze_invoice]

    The rate of the item and the price of the catalogue row are Python
    floats: binary64 numbers, on which the difference, the quotient and
    the product round as they do in Python. *)

Module App.

Record PriceAnalysis : Type := mkAnalysis {
  invoice_rate : float;
  database_price : float;
  difference : float;
  difference_percentage : float;
  status : string;
  price_status : string }.

(** The [if]/[elif] chain on [price_diff_pct]: [(status, price_status)]. *)
Definition classify (price_diff_pct : float) : string * string :=
  if (price_diff_pct =? 0)%float then
    ("✅ EXACT MATCH", "✅ PRICE MATCHES")%string
  else if (price_diff_pct <=? 2)%float then
    ("⚠️ MINOR DIFFERENCE", "⚠️ PRICE MINOR DIFFERENCE")%string
  else if (price_diff_pct <=? 5)%float then
    ("❌ SMALL DIFFERENCE", "❌ PRICE DOESN'T MATCH (Small)")%string
  else if (price_diff_pct <=? 10)%float then
    ("❌ MODERATE DIFFERENCE", "❌ PRICE DOESN'T MATCH (Moderate)")%string
  else if (price_diff_pct <=? 25)%float then
    ("❌ SIGNIFICANT DIFFERENCE", "❌ PRICE DOESN'T MATCH (Significant)")%string
  else
    ("❌ MAJOR DIFFERENCE", "❌ PRICE DOESN'T MATCH (Major)")%string.

(** The block under [# Price analysis] for a matched item: the value of
    [analysis_item["price_analysis"]] and of [analysis_item["status"]]
    (the [price_status] that the [else] branch assigns is not read
    afterwards). *)
Definition price_analysis (item_rate : option float) (csv_price : float)
  : result (option PriceAnalysis * string) :=
  match item_rate with
  | Some rate =>
      if float_truthy rate && float_truthy csv_price then
        let price_diff := abs (rate - csv_price) in
        ratio <- float_div price_diff csv_price ;;
        let price_diff_pct := (ratio * 100)%float in
        let '(status, price_status) := classify price_diff_pct in
        Ok (Some (mkAnalysis rate csv_price price_diff price_diff_pct
                             status price_status), status)
      else Ok (None, "✅ MATCHED"%string)
  | None => Ok (None, "✅ MATCHED"%string)
  end.

End App.

(** ** [test_basic_ocr.py]: matching against the CSV catalogue *)

Module Csv.

(** [clean_fabric_name]: lower case, no space, no character outside
    [[\w\d]]. *)
Definition clean_fabric_name (name : str) : str :=
  match name with
  | [] => []
  | _ =>
      let name := lower name in
      let name := remove_char " " name in
      re_sub false (NoneOf [Wrd; Dig]) [] name
  end.

(** [remove_csv_prefix]: [name[4:]] when [name] starts with [A - ]. *)
Definition remove_csv_prefix (name : str) : str :=
  if startswith (py "A - ") name then skipn 4 name else name.

(** [set(s)] for a string, [a & b] and [a | b] on sets of characters. *)
Fixpoint char_set (s : str) : list ascii :=
  match s with
  | [] => []
  | c :: s' => c :: filter (fun y => negb (eqc c y)) (char_set s')
  end.

Definition char_mem (c : ascii) (l : list ascii) : bool := existsb (eqc c) l.

Definition char_inter (a b : list ascii) : list ascii :=
  filter (fun x => char_mem x b) a.
Definition char_union (a b : list ascii) : list ascii :=
  a ++ filter (fun x => negb (char_mem x a)) b.

(** A row of the catalogue, as [load_csv_fabrics] builds it. *)
Record CsvFabric : Type := mkCsv {
  original_name : str;
  cleaned_name : str;
  default_price : str;
  supplier : str }.

(** The [method] of a match; the label of a fuzzy match is formatted from
    the similarity, which is kept here as a number. *)
Inductive Method : Type :=
| Direct_Substring
| Reverse_Substring
| Fuzzy_Match (similarity : Q).

(** The [dict] that [find_csv_fabric_match] returns. *)
Record CsvMatch : Type := mkMatch {
  fabric : CsvFabric;
  csv_name_no_prefix : str;
  csv_cleaned_no_prefix : str;
  score : Q;
  method : Method }.

(** [SequenceMatcher(None, a, b).ratio()] of [difflib] is a parameter. *)
Section Similarity.

Variable seq_ratio : str -> str -> Q.

Definition calculate_similarity (str1 str2 : str) : result Q :=
  let seq_similarity := seq_ratio str1 str2 in
  char_overlap <-
    (if nonempty_str str1 && nonempty_str str2 then
       pdiv (QN (length (char_inter (char_set str1) (char_set str2))))
            (QN (length (char_union (char_set str1) (char_set str2))))
     else Ok 0%Q) ;;
  word_similarity <-
    (if char_mem " " str1 && char_mem " " str2 then
       let words1 := to_set (split (lower str1)) in
       let words2 := to_set (split (lower str2)) in
       if FabricMatcher.nonempty words1 && FabricMatcher.nonempty words2 then
         pdiv (QN (length (inter words1 words2)))
              (QN (length (union words1 words2)))
       else Ok 0%Q
     else Ok 0%Q) ;;
  Ok (seq_similarity * (1 # 2) + char_overlap * (3 # 10)
      + word_similarity * (1 # 5))%Q.

(** The state of the loop: [(best_match, best_score)]. *)
Definition csv_best : Type := (option CsvMatch * Q)%type.

(** [if s > best_score: best_score = s; best_match = {...}] *)
Definition csv_keep (m : CsvMatch) (b : csv_best) : csv_best :=
  if Qltb (snd b) (score m) then (Some m, score m) else b.

Definition csv_body (parsed_cleaned : str) (threshold : Q)
  (b : csv_best) (fabric : CsvFabric) : result csv_best :=
  let csv_name := original_name fabric in
  let csv_name_no_prefix := remove_csv_prefix csv_name in
  let csv_cleaned_no_prefix := clean_fabric_name csv_name_no_prefix in
  b <- (if contains parsed_cleaned csv_cleaned_no_prefix then
          ratio <- pdiv (QN (length parsed_cleaned))
                        (QN (length csv_cleaned_no_prefix)) ;;
          let base_score := (ratio * 100)%Q in
          let match_score :=
            if length parsed_cleaned <=? 10
            then Qmin 95 (base_score + 60) else base_score in
          Ok (csv_keep (mkMatch fabric csv_name_no_prefix csv_cleaned_no_prefix
                                match_score Direct_Substring) b)
        else if contains csv_cleaned_no_prefix parsed_cleaned then
          ratio <- pdiv (QN (length csv_cleaned_no_prefix))
                        (QN (length parsed_cleaned)) ;;
          let match_score := (ratio * 100)%Q in
          Ok (csv_keep (mkMatch fabric csv_name_no_prefix csv_cleaned_no_prefix
                                match_score Reverse_Substring) b)
        else Ok b) ;;
  similarity <- calculate_similarity parsed_cleaned csv_cleaned_no_prefix ;;
  if Qle_bool threshold similarity then
    let fuzzy_score := (similarity * 100)%Q in
    Ok (csv_keep (mkMatch fabric csv_name_no_prefix csv_cleaned_no_prefix
                          fuzzy_score (Fuzzy_Match similarity)) b)
  else Ok b.

(** [30.0 if len(parsed_cleaned) <= 10 else 50.0] *)
Definition min_threshold (parsed_cleaned : str) : Q :=
  if length parsed_cleaned <=? 10 then 30%Q else 50%Q.

(** [find_csv_fabric_match(parsed_name, csv_fabrics, threshold)]; the
    default of [threshold] is 0.5. *)
Definition find_csv_fabric_match (parsed_name : str)
  (csv_fabrics : list CsvFabric) (threshold : Q) : result (option CsvMatch) :=
  match csv_fabrics with
  | [] => Ok None
  | _ =>
      let parsed_cleaned := clean_fabric_name parsed_name in
      b <- for_each (csv_body parsed_cleaned threshold) csv_fabrics
                    (None, 0%Q) ;;
      Ok (if Qle_bool (min_threshold parsed_cleaned) (snd b)
          then fst b else None)
  end.

End Similarity.

End Csv.

(** ** [test_basic_ocr.py]: the comparison with the database items *)

Module Db.

(** [_norm] *)
Definition _norm (s : str) : str :=
  let s := lower (strip (re_sub false (Plus (Any [Spc; Ch "_"])) (py " ") s)) in
  let s := re_sub false (Plus (NoneOf [Rng "a" "z"; Rng "0" "9"; Ch " "])) [] s in
  re_sub false (Plus ws) (py " ") s.

(** [_num], for [None] or a string. *)
Definition _num (x : option str) : option Q :=
  match x with
  | None => None
  | Some x =>
      let s := re_sub false (NoneOf [Dig; Ch "."]) [] (remove_char "," x) in
      match s with
      | [] => None
      | _ => match Parser.float s with
             | Ok q => Some q
             | Raise _ => None
             end
      end
  end.

Record DBItem : Type := mkItem {
  material_name : str;
  default_purchase_price : option Q }.

(** A [Dict[str, DBItem]]. *)
Definition db_dict := list (str * DBItem).

Fixpoint dict_set (k : str) (v : DBItem) (ix : db_dict) : db_dict :=
  match ix with
  | [] => [(k, v)]
  | (k', v') :: ix' =>
      if eqs k' k then (k', v) :: ix' else (k', v') :: dict_set k v ix'
  end.

Fixpoint dict_get (k : str) (ix : db_dict) : option DBItem :=
  match ix with
  | [] => None
  | (k', v) :: ix' => if eqs k' k then Some v else dict_get k ix'
  end.

(** [{_norm(x.material_name): x for x in db_items}] *)
Definition build_db_index (db_items : list DBItem) : db_dict :=
  fold_left (fun ix x => dict_set (_norm (material_name x)) x ix) db_items [].

Record MatchRow : Type := mkRow {
  invoice_name : str;
  quantity : option Q;
  rate : option Q;
  db_name : option str;
  db_rate : option Q;
  score : Q;
  status : string }.

(** [os.getenv(name, default)] for a variable that is set to [value] or
    unset. *)
Definition getenv (value : option str) (default : str) : str :=
  match value with Some v => v | None => default end.

(** The builtin [round(x, 2)] on floats is a parameter. So are, for
    [compare], the builtin [float] on the text of an environment variable
    and [double]: the binary64 number that holds a rate. The rates are
    rationals in this development, and [compare] tests the tolerance as
    Python does, on binary64 numbers. *)
Section Rounding.

Variable round2 : Q -> Q.
Variable float_of_str : str -> result float.
Variable double : Q -> float.

Definition _token_set_ratio (a b : str) : result Q :=
  let ta := to_set (split (_norm a)) in
  let tb := to_set (split (_norm b)) in
  if negb (FabricMatcher.nonempty ta) || negb (FabricMatcher.nonempty tb)
  then Ok 0%Q
  else
    let inter := inter ta tb in
    let union := union ta tb in
    j <- pdiv (QN (length inter)) (QN (length union)) ;;
    let j := if contains (_norm a) (_norm b) || contains (_norm b) (_norm a)
             then Qmax j (85 # 100) else j in
    Ok (round2 (100 * j))%Q.

Definition best_match (name : str) (db_index : db_dict)
  : result (option DBItem * Q) :=
  let key := _norm name in
  match dict_get key db_index with
  | Some it => Ok (Some it, 100%Q)
  | None =>
      b <- for_each
             (fun (b : option DBItem * Q) (kit : str * DBItem) =>
                let '(best, scbest) := b in
                let '(k, it) := kit in
                sc <- _token_set_ratio key k ;;
                Ok (if Qltb scbest sc then (Some it, sc) else (best, scbest)))
             db_index (None, 0%Q) ;;
      let '(best, scbest) := b in
      Ok (if Qle_bool 80 scbest then (best, scbest) else (None, scbest))
  end.

(** The body of the loop of [compare] for one invoice line: the row that
    is appended. *)
Definition compare_line (tol : float) (db_index : db_dict)
  (il : Parser.InvoiceLine) : result MatchRow :=
  r <- best_match (Parser.material_name il) db_index ;;
  let '(db_it, sc) := r in
  match db_it with
  | None =>
      Ok (mkRow (Parser.material_name il) (Parser.quantity il) (Parser.rate il)
                None None sc "ℹ️ NOT FOUND")
  | Some db_it =>
      match Parser.rate il, default_purchase_price db_it with
      | Some inv_rate, Some db_rate =>
          let ok := (abs (double inv_rate - double db_rate)
                     <=? double db_rate * tol)%float in
          Ok (mkRow (Parser.material_name il) (Parser.quantity il)
                    (Some inv_rate) (Some (material_name db_it)) (Some db_rate)
                    (round2 sc)
                    (if ok then "✅ MATCH" else "❌ MISMATCH"))
      | inv_rate, db_rate =>
          Ok (mkRow (Parser.material_name il) (Parser.quantity il) inv_rate
                    (Some (material_name db_it)) db_rate sc "❌ MISMATCH")
      end
  end.

(** [compare]; [RATE_TOLERANCE_PCT] is the value of the environment
    variable of that name, [None] when it is unset. *)
Definition compare (RATE_TOLERANCE_PCT : option str)
  (inv_lines : list Parser.InvoiceLine) (db_items : list DBItem)
  : result (list MatchRow) :=
  tol <- float_of_str (getenv RATE_TOLERANCE_PCT (py "0.10")) ;;
  let db_index := build_db_index db_items in
  for_each (fun rows il => row <- compare_line tol db_index il ;;
                           Ok (rows ++ [row]))
           inv_lines [].

End Rounding.

End Db.

(** ** [test_basic_ocr.py]: the IGST line of the invoice *)

Module Tax.

Record TaxLine : Type := mkTax {
  tax : str;
  rate_pct : option Q;
  amount : option Q;
  line_text : str }.

(** [lambda t: t.amount or 0] *)
Definition amount_or_0 (t : TaxLine) : Q :=
  match amount t with
  | Some a => if truthy a then a else 0%Q
  | None => 0%Q
  end.

(** [max(l, key=key)] for a list that starts with [x]: the first of the
    items with the greatest key. *)
Definition max_by {A : Type} (key : A -> Q) (x : A) (l : list A) : A :=
  fold_left (fun best y => if Qltb (key best) (key y) then y else best) l x.

Definition pick_invoice_igst (igst_lines : list TaxLine) : option TaxLine :=
  match igst_lines with
  | [] => None
  | first :: _ =>
      let with_amount :=
        filter (fun t => Parser.is_some (amount t)) igst_lines in
      match with_amount with
      | x :: l => Some (max_by amount_or_0 x l)
      | [] => Some (last igst_lines first)
      end
  end.

End Tax.

(** ** [app.py]: the uploaded file *)

Module Upload.

Definition ALLOWED_EXTENSIONS : list str :=
  map py ["pdf"; "png"; "jpg"; "jpeg"; "tiff"; "tif"; "bmp"; "webp"]%string.

(** [filename.rsplit('.', 1)[1]] when [filename] holds a point: what
    follows the last point. *)
Definition after_last_point (filename : str) : str :=
  last (split_char "." filename) [].

Definition allowed_file (filename : str) : bool :=
  existsb (eqc ".") filename
  && mem (lower (after_last_point filename)) ALLOWED_EXTENSIONS.

End Upload.

(** * Notions used in the statements *)

Import FabricMatcher App.

(** ** Statuses of the price analysis *)

Definition exact_status : string := "✅ EXACT MATCH".
Definition minor_status : string := "⚠️ MINOR DIFFERENCE".
Definition small_status : string := "❌ SMALL DIFFERENCE".
Definition matched_status : string := "✅ MATCHED".

(** ** The index *)

Definition keys (ix : index) : list str := map fst ix.

(** The step of the loop of [_build_index]. *)
Definition add_fabric (ix : index) (fabric : DatabaseFabric) : index :=
  let normalized := normalize_string (db_material_name fabric) in
  match normalized with
  | [] => ix
  | _ => dict_set normalized fabric ix
  end.

(** What is true of every index under construction. *)
Definition well_keyed (ix : index) : Prop :=
  NoDup (keys ix) /\ ~ In [] (keys ix).

(** The entry an index holds for a name: the last fabric of the list
    with that normalised name. *)
Definition named (k : str) (f : DatabaseFabric) : bool :=
  eqs (normalize_string (db_material_name f)) k.

Definition last_named (k : str) (l : list DatabaseFabric) : option DatabaseFabric :=
  find (named k) (rev l).

(** Two catalogue entries whose names differ in case only. *)
Definition two_cottons : list DatabaseFabric :=
  [mkDb (py "Cotton") 20; mkDb (py "COTTON") 30].

(** ** The cascade of strategies, as the specification words it *)

(** A strategy: its algorithm label, the scan that yields its best
    candidate when that passes the strategy's threshold, and the
    confidence it gives to a score. *)
Definition strategy : Type :=
  (string * (index -> str -> result (option best)) * (Q -> string))%type.

Definition medium_or_low (score : Q) : string :=
  if Qle_bool 70 score then "MEDIUM"%string else "LOW"%string.

Section Cascade.

Variable seq_ratio : str -> str -> Q.
Variable jaro_winkler_similarity : str -> str -> Q.
Variable levenshtein_distance : str -> str -> nat.
Variables fuzz_ratio fuzz_partial fuzz_token_sort fuzz_token_set
  : str -> str -> nat.

(** Exact, prefix-based, substring or token overlap, fuzzy, semantic. *)
Definition strategies : list strategy :=
  [ ("EXACT_MATCH"%string,
     fun ix name => Ok (exact_match ix name),
     fun _ => "HIGH"%string);
    ("PREFIX_BASED_MATCH"%string, prefix_based_match, high_or_medium);
    ("SUBSTRING_MATCH"%string, substring_match, high_or_medium);
    ("FUZZY_MATCH"%string,
     fuzzy_match seq_ratio jaro_winkler_similarity levenshtein_distance
                 fuzz_ratio fuzz_partial fuzz_token_sort fuzz_token_set,
     high_or_medium);
    ("SEMANTIC_MATCH"%string, semantic_match, medium_or_low) ].

(** The first strategy of the list that yields a candidate wins. *)
Fixpoint first_accepting (l : list strategy) (ix : index) (name : str)
  : result (option (string * string * best)) :=
  match l with
  | [] => Ok None
  | (algorithm, scan, confidence) :: l' =>
      r <- scan ix name ;;
      match r with
      | Some b => Ok (Some (algorithm, confidence (snd b), b))
      | None => first_accepting l' ix name
      end
  end.

Definition cascade (ix : index) (parsed : ParsedFabric) : result MatchResult :=
  w <- first_accepting strategies ix (FabricMatcher.material_name parsed) ;;
  match w with
  | Some (algorithm, confidence, b) =>
      _create_match_result parsed (fst b) (snd b) algorithm confidence
  | None => _create_match_result parsed None 0%Q "NO_MATCH" "NO_MATCH"
  end.

End Cascade.

(** A parsed fabric of a given name, and similarity measures that are 0
    everywhere, for the concrete cases. *)
Definition fabric_named (name : str) : ParsedFabric :=
  mkParsed name 1%Q 100%Q 100%Q (py "test").

Definition no_similarity : str -> str -> Q := fun _ _ => 0%Q.
Definition no_distance : str -> str -> nat := fun _ _ => 0.

(** A catalogue entry whose name normalises to the empty string. *)
Definition punctuation_entry : DatabaseFabric := mkDb (py "!!") 20.

(** ** The scan of a strategy, by candidate scores

    Each scan of the index folds [keep_best] over the scores that the
    catalogue names yield, in index order. *)

(** The scores a strategy gives to one catalogue name. *)
Definition scoring : Type := str -> result (list Q).

Fixpoint candidates (sc : scoring) (ix : index)
  : result (list (DatabaseFabric * Q)) :=
  match ix with
  | [] => Ok []
  | (k, f) :: ix' =>
      l <- sc k ;; c <- candidates sc ix' ;; Ok (map (pair f) l ++ c)
  end.

Definition keep (b : best) (c : DatabaseFabric * Q) : best :=
  keep_best (snd c) (fst c) b.

Definition substring_scores (normalized_parsed : str) (parsed_tokens : list str)
  : scoring :=
  fun db_name =>
    let db_tokens := to_set (tokenize_string db_name) in
    c1 <- (if contains normalized_parsed db_name then
             r <- pdiv (QN (length normalized_parsed)) (QN (length db_name)) ;;
             Ok [Qmin 95 (80 + r * 20)]
           else if contains db_name normalized_parsed then
             r <- pdiv (QN (length db_name)) (QN (length normalized_parsed)) ;;
             Ok [Qmin 95 (80 + r * 20)]
           else Ok []) ;;
    c2 <- (if nonempty parsed_tokens && nonempty db_tokens then
             let db_tokens_clean :=
               filter (fun token => negb (mem token substring_stop)) db_tokens in
             let overlap := length (inter parsed_tokens db_tokens_clean) in
             let total := length (union parsed_tokens db_tokens_clean) in
             if 0 <? overlap then
               r <- pdiv (QN overlap) (QN total) ;; Ok [(r * 90)%Q]
             else Ok []
           else Ok []) ;;
    Ok (c1 ++ c2).

Definition prefix_scores (normalized_parsed : str) (parsed_tokens : list str)
  : scoring :=
  fun db_name =>
    let db_tokens := to_set (tokenize_string db_name) in
    let db_name_clean :=
      fold_left (fun s pattern => re_sub true pattern [] s) prefix_patterns
                db_name in
    c1 <- (if contains normalized_parsed db_name_clean
              || contains db_name_clean normalized_parsed then
             r <- pdiv (QN (length normalized_parsed))
                       (QN (Nat.max (length db_name_clean)
                                    (length normalized_parsed))) ;;
             Ok [Qmin 95 (85 + r * 15)]
           else Ok []) ;;
    c2 <- (if nonempty parsed_tokens && nonempty db_tokens then
             let db_tokens_clean :=
               filter (fun token => negb (mem (lower token) prefix_tokens))
                      db_tokens in
             if nonempty db_tokens_clean then
               let overlap := length (inter parsed_tokens db_tokens_clean) in
               let total := length (union parsed_tokens db_tokens_clean) in
               if 2 <=? overlap then
                 r <- pdiv (QN overlap) (QN total) ;; Ok [(r * 95)%Q]
               else Ok []
             else Ok []
           else Ok []) ;;
    Ok (c1 ++ c2).

Definition semantic_scores (parsed_tokens : list str) : scoring :=
  fun db_name =>
    let db_tokens := tokenize_string db_name in
    let acc := keyword_pass fabric_types 25 parsed_tokens db_tokens (0%Q, 0) in
    let acc := keyword_pass colors 20 parsed_tokens db_tokens acc in
    let '(score, total_keywords) :=
      keyword_pass patterns 15 parsed_tokens db_tokens acc in
    if 0 <? total_keywords then
      r <- pdiv score (QN total_keywords) ;; Ok [(r * 100)%Q]
    else Ok [].

Section FuzzyScores.

Variable seq_ratio : str -> str -> Q.
Variable jaro_winkler_similarity : str -> str -> Q.
Variable levenshtein_distance : str -> str -> nat.
Variables fuzz_ratio fuzz_partial fuzz_token_sort fuzz_token_set
  : str -> str -> nat.

Definition fuzzy_scores (normalized_parsed : str) : scoring :=
  fun db_name =>
    r <- pdiv (QN (levenshtein_distance normalized_parsed db_name))
              (QN (Nat.max (length normalized_parsed) (length db_name))) ;;
    avg <- pdiv (Qsum [(seq_ratio normalized_parsed db_name * 100)%Q;
                       (jaro_winkler_similarity normalized_parsed db_name * 100)%Q;
                       Qmax 0 (100 - r * 100);
                       QN (fuzz_ratio normalized_parsed db_name);
                       QN (fuzz_partial normalized_parsed db_name);
                       QN (fuzz_token_sort normalized_parsed db_name);
                       QN (fuzz_token_set normalized_parsed db_name)])
                (QN 7) ;;
    Ok [avg].

End FuzzyScores.

(** Two outcomes of a strategy agree: both raise the same exception, both
    reject, or both accept with equal scores. *)
Definition same_best (x y : result (option best)) : Prop :=
  match x, y with
  | Ok None, Ok None => True
  | Ok (Some a), Ok (Some b) => (snd a == snd b)%Q
  | Raise e1, Raise e2 => e1 = e2
  | _, _ => False
  end.

(** Two results of [match_fabric] agree on the score, the algorithm and
    the confidence, or raise the same exception. *)
Definition same_verdict (x y : result MatchResult) : Prop :=
  match x, y with
  | Ok a, Ok b =>
      (match_score a == match_score b)%Q /\
      match_algorithm a = match_algorithm b /\
      confidence_level a = confidence_level b
  | Raise e1, Raise e2 => e1 = e2
  | _, _ => False
  end.

(** ** The substring strategy, as the specification words it *)

(** Containment of the parsed name in the catalogue name, or the
    reverse: [80 + coverage * 20], capped at 95. *)
Definition containment_score (parsed name : str) : option Q :=
  if contains parsed name then
    Some (Qmin 95 (80 + QN (length parsed) / QN (length name) * 20))
  else if contains name parsed then
    Some (Qmin 95 (80 + QN (length name) / QN (length parsed) * 20))
  else None.

(** Token overlap once the stop tokens are removed from the catalogue
    tokens: [overlap / union * 90] when the overlap is not zero. *)
Definition overlap_score (parsed_tokens name_tokens : list str) : option Q :=
  let kept := filter (fun t => negb (mem t substring_stop)) name_tokens in
  let overlap := length (inter parsed_tokens kept) in
  if 0 <? overlap
  then Some (QN overlap / QN (length (union parsed_tokens kept)) * 90)%Q
  else None.

Definition option_list {A : Type} (o : option A) : list A :=
  match o with Some x => [x] | None => [] end.

Definition substring_candidates (ix : index) (parsed_name : str)
  : list (DatabaseFabric * Q) :=
  let parsed := normalize_string parsed_name in
  let parsed_tokens := to_set (tokenize_string parsed_name) in
  flat_map
    (fun '(name, fabric) =>
       map (pair fabric)
           (option_list (containment_score parsed name) ++
            option_list (overlap_score parsed_tokens
                                       (to_set (tokenize_string name)))))
    ix.

(** Two catalogues that are permutations of each other, and tie. *)
Definition red_silk : DatabaseFabric := mkDb (py "red silk") 10.
Definition blue_silk : DatabaseFabric := mkDb (py "blue silk") 20.

(** ** What a match consumes *)

(** [reach P s s']: the matcher went from [s] to [s'] over a text [w] of
    characters that satisfy [P]. *)
Definition reach (P : ascii -> Prop) (s s' : st) : Prop :=
  exists w, pre s' = rev w ++ pre s /\ rest s = w ++ rest s' /\ Forall P w.

(** A step function all of whose results are reached over [P]. *)
Definition steps (P : ascii -> Prop) (f : st -> list st) : Prop :=
  forall s s', In s' (f s) -> reach P s s'.

(** Steps that leave the captured groups as they are. *)
Definition keeps (f : st -> list st) : Prop :=
  forall s s', In s' (f s) -> caps s' = caps s.

(** Every character that [r] can consume satisfies [P]. *)
Fixpoint only (ic : bool) (P : ascii -> Prop) (r : re) : Prop :=
  match r with
  | Eps | WordB | Bol | Eol => True
  | Lit c => forall x, cls_match ic (Ch c) x = true -> P x
  | Any l => forall x, set_match ic l x = true -> P x
  | NoneOf l => forall x, set_match ic l x = false -> P x
  | Cat a b | Alt a b => only ic P a /\ only ic P b
  | Star a | Rep a _ _ | Grp _ a => only ic P a
  end.

(** [r] has no capturing group. *)
Fixpoint nogroup (r : re) : bool :=
  match r with
  | Grp _ _ => false
  | Cat a b | Alt a b => nogroup a && nogroup b
  | Star a | Rep a _ _ => nogroup a
  | _ => true
  end.

(** A numeral [\d+(?:\.\d+)?]. *)
Definition decimal (w : str) : Prop :=
  exists a b,
    a <> [] /\ forallb is_digit a = true /\ forallb is_digit b = true /\
    (w = a \/ (b <> [] /\ w = a ++ "."%char :: b)).

(** A character of [[\d,]+(?:\.\d+)?]. *)
Definition amount_char (c : ascii) : Prop :=
  is_digit c = true \/ c = ","%char \/ c = "."%char.

(** An item with a name, a quantity, a rate and an amount, the three
    numbers strictly positive. *)
Definition positive (x : option Q) : Prop :=
  exists q, x = Some q /\ (0 < q)%Q.

Definition complete_item (l : Parser.InvoiceLine) : Prop :=
  Parser.material_name l <> [] /\
  positive (Parser.quantity l) /\ positive (Parser.rate l) /\
  positive (Parser.amount l).

(** An optional number that is not negative. *)
Definition not_negative (x : option Q) : Prop :=
  forall q, x = Some q -> (0 <= q)%Q.

(** ** The tabular line of the Sarom layout *)

Definition tabular : str := py "4.15 Mtr 720.00 Mtr 2,988.00".

(** [<name> 4.15 Mtr 720.00 Mtr 2,988.00] *)
Definition sarom_line (name : str) : str := name ++ " "%char :: tabular.

(** Similarity measures that are maximal everywhere: with them every
    catalogue name is a fuzzy candidate. *)
Definition full_similarity : str -> str -> Q := fun _ _ => 1%Q.
Definition full_ratio : str -> str -> nat := fun _ _ => 100.

(** The catalogue of the scenario of the specification. *)
Definition new_royal : DatabaseFabric := mkDb (py "A - NEW ROYAL FABRIC") 549.

(** A catalogue name of one word. *)
Definition cotton : DatabaseFabric := mkDb (py "cotton") 20.

(** A second silk, whose name is as long as that of [red_silk]. *)
Definition tan_silk : DatabaseFabric := mkDb (py "tan silk") 30.

(** ** Binary64 numbers *)

(** The order of two positive finite numbers [m1 * 2^e1] and [m2 * 2^e2]
    as [SpecFloat.SFcompare] computes it: by exponent, then by mantissa. *)
Definition lexc (e1 : Z) (m1 : BinNums.positive) (e2 : Z)
  (m2 : BinNums.positive) : comparison :=
  match (e1 ?= e2)%Z with
  | Eq => Pos.compare_cont Eq m1 m2
  | Lt => Lt
  | Gt => Gt
  end.

(** ** The entry that a scan returns *)

(** The canonical name of a catalogue entry: the key of the index. *)
Definition canonical (f : DatabaseFabric) : str :=
  normalize_string (db_material_name f).

(** [(f, s)] is the top candidate of the candidates [c], listed in index
    order: those before it score strictly less, and each one after it
    compares to it by [later], which is [<=] after a scan that keeps a
    candidate on a strictly greater score only, and [<] when moreover no
    candidate ties with the top one. *)
Definition top_candidate (later : Q -> Q -> Prop)
  (c : list (DatabaseFabric * Q)) (f : DatabaseFabric) (s : Q) : Prop :=
  exists l1 l2,
    c = l1 ++ (f, s) :: l2 /\
    (forall x, In x l1 -> (snd x < s)%Q) /\
    (forall x, In x l2 -> later (snd x) s).

(** The result [r] carries the top candidate of the scores [sc]. *)
Definition scanned (later : Q -> Q -> Prop) (sc : scoring) (ix : index)
  (r : MatchResult) : Prop :=
  exists f c,
    database_fabric r = Some f /\ candidates sc ix = Ok c /\
    top_candidate later c f (match_score r).

Section Chosen.

Variable seq_ratio : str -> str -> Q.
Variable jaro_winkler_similarity : str -> str -> Q.
Variable levenshtein_distance : str -> str -> nat.
Variables fuzz_ratio fuzz_partial fuzz_token_sort fuzz_token_set
  : str -> str -> nat.

(** How the entry of a result was chosen in the index: by its key for an
    exact match, as the top candidate of the strategy that the result
    names otherwise. *)
Definition chosen (later : Q -> Q -> Prop) (ix : index) (parsed : ParsedFabric)
  (r : MatchResult) : Prop :=
  let name := FabricMatcher.material_name parsed in
  let normalized := normalize_string name in
  let tokens := to_set (tokenize_string name) in
  (match_algorithm r = "EXACT_MATCH"%string /\
   exists f, database_fabric r = Some f /\ dict_get normalized ix = Some f) \/
  (match_algorithm r = "PREFIX_BASED_MATCH"%string /\
   scanned later (prefix_scores normalized tokens) ix r) \/
  (match_algorithm r = "SUBSTRING_MATCH"%string /\
   scanned later (substring_scores normalized tokens) ix r) \/
  (match_algorithm r = "FUZZY_MATCH"%string /\
   scanned later
     (fuzzy_scores seq_ratio jaro_winkler_similarity levenshtein_distance
                   fuzz_ratio fuzz_partial fuzz_token_sort fuzz_token_set
                   normalized) ix r) \/
  (match_algorithm r = "SEMANTIC_MATCH"%string /\
   scanned later (semantic_scores (tokenize_string name)) ix r) \/
  (match_algorithm r = "NO_MATCH"%string /\ database_fabric r = None).

End Chosen.

(** An entry that scores nothing against the name silk. *)
Definition blue_wool : DatabaseFabric := mkDb (py "blue wool") 20.

(** ** The CSV catalogue *)

(** A character of a cleaned name: a lower-case letter, a digit or the
    underscore. *)
Definition clean_char (c : ascii) : bool :=
  is_lower c || is_digit c || eqc c "_".

(** The name a catalogue row is compared by. *)
Definition compared_name (f : Csv.CsvFabric) : str :=
  Csv.clean_fabric_name (Csv.remove_csv_prefix (Csv.original_name f)).

(** A match describes the row it holds. *)
Definition describes (m : Csv.CsvMatch) : Prop :=
  Csv.csv_name_no_prefix m = Csv.remove_csv_prefix (Csv.original_name (Csv.fabric m)) /\
  Csv.csv_cleaned_no_prefix m = compared_name (Csv.fabric m).

(** Two rows of a catalogue, and a row whose name has no letter or digit. *)
Definition royal_row : Csv.CsvFabric :=
  Csv.mkCsv (py "A - NEW ROYAL") (py "a-newroyal") (py "549") (py "Sarom").
Definition velvet_row : Csv.CsvFabric :=
  Csv.mkCsv (py "Velvet Premium Gold") (py "velvetpremiumgold") (py "820") (py "").
Definition symbol_row : Csv.CsvFabric :=
  Csv.mkCsv (py "***") [] (py "1") (py "").

(** The score of a direct match of a parsed name of length [n] in a
    compared name of length [k]. *)
Definition direct_score (n k : nat) : Q :=
  let base_score := (QN n / QN k * 100)%Q in
  if n <=? 10 then Qmin 95 (base_score + 60) else base_score.

(** [candidate sr p t f m]: [m] is a match that the loop body records for
    the row [f], the cleaned parsed name being [p] and the fuzzy threshold
    [t]. *)
Definition candidate (sr : str -> str -> Q) (p : str) (t : Q)
  (f : Csv.CsvFabric) (m : Csv.CsvMatch) : Prop :=
  Csv.fabric m = f /\ describes m /\
  match Csv.method m with
  | Csv.Direct_Substring =>
      contains p (compared_name f) = true /\
      (Csv.score m == direct_score (length p) (length (compared_name f)))%Q
  | Csv.Reverse_Substring =>
      contains p (compared_name f) = false /\
      contains (compared_name f) p = true /\
      (Csv.score m == QN (length (compared_name f)) / QN (length p) * 100)%Q
  | Csv.Fuzzy_Match similarity =>
      Csv.calculate_similarity sr p (compared_name f) = Ok similarity /\
      (t <= similarity)%Q /\ (Csv.score m == similarity * 100)%Q
  end.

(** What the loop keeps: nothing yet and the score 0, or a candidate of a
    row and its score. *)
Definition csv_state (sr : str -> str -> Q) (p : str) (t : Q)
  (fabrics : list Csv.CsvFabric) (b : Csv.csv_best) : Prop :=
  match fst b with
  | None => snd b = 0%Q
  | Some m =>
      snd b = Csv.score m /\ In (Csv.fabric m) fabrics /\
      candidate sr p t (Csv.fabric m) m
  end.

(** A catalogue in which the name of the second row occurs in the name of
    the first. *)
Definition long_royal_row : Csv.CsvFabric :=
  Csv.mkCsv (py "NEW ROYAL") (py "newroyal") (py "549") (py "").
Definition short_royal_row : Csv.CsvFabric :=
  Csv.mkCsv (py "ROYAL") (py "royal") (py "300") (py "").

(** ** The database items *)

Definition db_values (ix : Db.db_dict) : list Db.DBItem := map snd ix.

(** [abs(inv_rate - db_rate) <= db_rate * tol], computed on the binary64
    numbers that hold the rates. *)
Definition within_tolerance (double : Q -> float) (tol : float)
  (inv_rate db_rate : Q) : Prop :=
  (abs (double inv_rate - double db_rate) <=? double db_rate * tol)%float
  = true.

(** The row of [compare] for an invoice line: it carries the name, the
    quantity and the rate of the line, and either no item was found, or
    an item of the database was found and the status tells whether both
    rates are present and within the tolerance. *)
Definition row_of_line (double : Q -> float) (tol : float)
  (db_items : list Db.DBItem) (il : Parser.InvoiceLine) (row : Db.MatchRow)
  : Prop :=
  Db.invoice_name row = Parser.material_name il /\
  Db.quantity row = Parser.quantity il /\
  Db.rate row = Parser.rate il /\
  ((Db.status row = "ℹ️ NOT FOUND"%string /\
    Db.db_name row = None /\ Db.db_rate row = None /\ (Db.score row < 80)%Q) \/
   (exists it,
       In it db_items /\
       Db.db_name row = Some (Db.material_name it) /\
       Db.db_rate row = Db.default_purchase_price it /\
       ((Db.status row = "✅ MATCH"%string /\
         exists inv_rate db_rate,
           Db.rate row = Some inv_rate /\ Db.db_rate row = Some db_rate /\
           within_tolerance double tol inv_rate db_rate) \/
        (Db.status row = "❌ MISMATCH"%string /\
         forall inv_rate db_rate,
           Db.rate row = Some inv_rate -> Db.db_rate row = Some db_rate ->
           ~ within_tolerance double tol inv_rate db_rate)))).

(** Three items, two of which have the same normalised name. *)
Definition db_catalogue : list Db.DBItem :=
  [Db.mkItem (py "New_Royal") (Some 549%Q);
   Db.mkItem (py "Velvet Gold") None;
   Db.mkItem (py "NEW ROYAL!") (Some 600%Q)].

(** The binary64 number nearest to a rational of small numerator and
    denominator: both are integers that binary64 holds exactly, and their
    quotient is rounded once, as Python's [float] rounds a decimal
    numeral. *)
Definition float_of_Z (n : Z) : float :=
  FloatOps.SF2Prim
    (SpecFloat.binary_normalize FloatOps.prec FloatOps.emax n 0 false).

Definition decimal_double (q : Q) : float :=
  (float_of_Z (Qnum q) / float_of_Z (Zpos (Qden q)))%float.

(** A rounding that changes nothing. *)
Definition no_rounding : Q -> Q := fun x => x.

(** ** The IGST lines *)

Definition igst (a : option Q) (text : string) : Tax.TaxLine :=
  Tax.mkTax (py "IGST") None a (py text).

(** ** The keywords of the semantic strategy *)

(** The fabric types, the colours and the patterns together. *)
Definition keywords : list str := fabric_types ++ colors ++ patterns.

(** A catalogue name with one keyword. *)
Definition silk_cloth : DatabaseFabric := mkDb (py "fine silk cloth") 10.

(** ** The alphabet of the normalised names *)

(** A lower-case letter, a digit, an underscore, a hyphen or a space. *)
Definition norm_char (c : ascii) : bool :=
  is_lower c || is_digit c || eqc c "_" || eqc c "-" || eqc c " ".

(** The same less the space. *)
Definition token_char (c : ascii) : bool :=
  is_lower c || is_digit c || eqc c "_" || eqc c "-".

(** ** The items of the Sarom parser *)

(** Every comma of [t] follows a digit; [after_digit] tells whether the
    character before [t] is one. *)
Fixpoint commas_follow_digits (after_digit : bool) (t : str) : bool :=
  match t with
  | [] => true
  | c :: t' =>
      (negb (eqc c ",") || after_digit) && commas_follow_digits (is_digit c) t'
  end.

(** Whether the character before the position is a digit. *)
Definition head_digit (p : str) : bool :=
  match p with c :: _ => is_digit c | [] => false end.

(** A matcher state in a text whose commas follow digits. *)
Definition tidy (s : st) : Prop :=
  commas_follow_digits (head_digit (pre s)) (rest s) = true.

(** A text of [[\d,]+(?:\.\d+)?]. *)
Definition amount_text (w : str) : Prop :=
  exists a b,
    a <> [] /\ Forall (fun c => is_digit c = true \/ c = ","%char) a /\
    forallb is_digit b = true /\
    (w = a \/ (b <> [] /\ w = a ++ "."%char :: b)).

(** A pattern that matches no empty text. *)
Definition consuming (ic : bool) (r : re) : Prop :=
  forall s s', In s' (run ic r s) -> length (rest s') < length (rest s).

(** The shape that the patterns of [_parse_sarom_format] share: the
    quantity, pieces without groups, the rate, pieces without groups the
    last but one of which is a unit in letters, and the amount. *)
Definition sarom_shaped (r : re) : Prop :=
  exists A B X,
    forallb nogroup A = true /\ forallb nogroup B = true /\
    nogroup X = true /\
    only true (fun c => is_digit c = false) X /\ consuming true X /\
    r = seq (Parser.num 1 :: A ++
             Parser.num 2 :: B ++ [X; Parser.sws; Parser.amt 3]).

Definition present_not_negative (x : option Q) : Prop :=
  exists q, x = Some q /\ (0 <= q)%Q.

(** An item with a name of three characters or more, and a quantity, a
    rate and an amount that are present and not negative. *)
Definition sarom_item (l : Parser.InvoiceLine) : Prop :=
  3 <= length (Parser.material_name l) /\
  present_not_negative (Parser.quantity l) /\
  present_not_negative (Parser.rate l) /\
  present_not_negative (Parser.amount l).

(** A line whose amount is a comma. *)
Definition comma_amount : str := py "ROYAL 4 Mtr 5 Mtr ,".

(** * Properties *)

(** ** Arithmetic helpers *)

Lemma truthy_true (x : Q) : truthy x = true <-> ~ (x == 0)%Q.
Proof.
  unfold truthy. rewrite negb_true_iff.
  split; intro H.
  - intro E. apply Qeq_bool_iff in E. congruence.
  - destruct (Qeq_bool x 0) eqn:E; [|reflexivity].
    apply Qeq_bool_iff in E. contradiction.
Qed.

Lemma truthy_false (x : Q) : truthy x = false <-> (x == 0)%Q.
Proof.
  unfold truthy. rewrite negb_false_iff. apply Qeq_bool_iff.
Qed.

Lemma pdiv_ok (a b : Q) : ~ (b == 0)%Q -> pdiv a b = Ok (a / b)%Q.
Proof.
  intro H. unfold pdiv.
  destruct (Qeq_bool b 0) eqn:E; [|reflexivity].
  apply Qeq_bool_iff in E. contradiction.
Qed.

Lemma pdiv_truthy (a b : Q) : truthy b = true -> pdiv a b = Ok (a / b)%Q.
Proof. intro H. apply pdiv_ok. now apply truthy_true. Qed.

Lemma pdiv_raises (a b : Q) (e : exn) : pdiv a b = Raise e -> e = ZeroDivisionError.
Proof. unfold pdiv. destruct (Qeq_bool b 0); congruence. Qed.

Lemma Qle_bool_false (a b : Q) : Qle_bool a b = false <-> (b < a)%Q.
Proof.
  split; intro H.
  - apply Qnot_le_lt. intro L. apply Qle_bool_iff in L. congruence.
  - destruct (Qle_bool a b) eqn:E; [|reflexivity].
    apply Qle_bool_iff in E. exfalso. eapply Qlt_not_le; eauto.
Qed.

Lemma Qltb_true (a b : Q) : Qltb a b = true <-> (a < b)%Q.
Proof. unfold Qltb. rewrite negb_true_iff. apply Qle_bool_false. Qed.

Lemma Qltb_false (a b : Q) : Qltb a b = false <-> (b <= a)%Q.
Proof. unfold Qltb. rewrite negb_false_iff. apply Qle_bool_iff. Qed.

(** ** Binary64 arithmetic

    [SpecFloat.SFcompare] orders the numbers that [PrimFloat] computes
    with; the lemmas below are what the cut points of the price analysis
    need of that order. *)

Lemma lexc_antisym (e1 : Z) (m1 : BinNums.positive) (e2 : Z)
  (m2 : BinNums.positive) : lexc e2 m2 e1 m1 = CompOpp (lexc e1 m1 e2 m2).
Proof.
  unfold lexc. rewrite (Z.compare_antisym e1 e2).
  destruct (e1 ?= e2)%Z; simpl; try reflexivity.
  now rewrite Pos.compare_cont_antisym.
Qed.

Lemma lexc_lt (e1 : Z) (m1 : BinNums.positive) (e2 : Z)
  (m2 : BinNums.positive) :
  lexc e1 m1 e2 m2 = Lt <-> (e1 < e2)%Z \/ (e1 = e2 /\ (m1 < m2)%positive).
Proof.
  unfold lexc. change (Pos.compare_cont Eq m1 m2) with (m1 ?= m2)%positive.
  destruct (Z.compare_spec e1 e2) as [E|E|E].
  - rewrite Pos.compare_lt_iff. split; [auto | intros [H|[_ H]]; [lia | exact H]].
  - split; [auto | reflexivity].
  - split; [discriminate | intros [H|[H _]]; lia].
Qed.

Lemma lexc_eq (e1 : Z) (m1 : BinNums.positive) (e2 : Z)
  (m2 : BinNums.positive) : lexc e1 m1 e2 m2 = Eq <-> e1 = e2 /\ m1 = m2.
Proof.
  unfold lexc. change (Pos.compare_cont Eq m1 m2) with (m1 ?= m2)%positive.
  destruct (Z.compare_spec e1 e2) as [E|E|E].
  - rewrite Pos.compare_eq_iff. tauto.
  - split; [discriminate | intros [H _]; lia].
  - split; [discriminate | intros [H _]; lia].
Qed.

Lemma lexc_lt_trans (e1 : Z) (m1 : BinNums.positive) (e2 : Z)
  (m2 : BinNums.positive) (e3 : Z) (m3 : BinNums.positive) :
  lexc e1 m1 e2 m2 = Lt -> lexc e2 m2 e3 m3 = Lt -> lexc e1 m1 e3 m3 = Lt.
Proof. rewrite !lexc_lt. lia. Qed.

Lemma lexc_gt_trans (e1 : Z) (m1 : BinNums.positive) (e2 : Z)
  (m2 : BinNums.positive) (e3 : Z) (m3 : BinNums.positive) :
  lexc e1 m1 e2 m2 = Gt -> lexc e2 m2 e3 m3 = Gt -> lexc e1 m1 e3 m3 = Gt.
Proof.
  intros A B.
  assert (A' : lexc e2 m2 e1 m1 = Lt) by (rewrite lexc_antisym, A; reflexivity).
  assert (B' : lexc e3 m3 e2 m2 = Lt) by (rewrite lexc_antisym, B; reflexivity).
  pose proof (lexc_lt_trans _ _ _ _ _ _ B' A') as C.
  rewrite lexc_antisym in C. destruct (lexc e1 m1 e3 m3); simpl in C; congruence.
Qed.

Lemma SFcompare_finite (s1 : bool) (m1 : BinNums.positive) (e1 : Z)
  (s2 : bool) (m2 : BinNums.positive) (e2 : Z) :
  SpecFloat.SFcompare (SpecFloat.S754_finite s1 m1 e1) (SpecFloat.S754_finite s2 m2 e2) =
  Some (if s1 then if s2 then CompOpp (lexc e1 m1 e2 m2) else Lt
        else if s2 then Gt else lexc e1 m1 e2 m2).
Proof.
  unfold lexc. simpl. destruct s1, s2; try reflexivity.
  destruct (e1 ?= e2)%Z; reflexivity.
Qed.

Lemma SFcompare_antisym (a b : SpecFloat.spec_float) :
  SpecFloat.SFcompare b a = option_map CompOpp (SpecFloat.SFcompare a b).
Proof.
  destruct a as [sa|sa| |sa ma ea]; destruct b as [sb|sb| |sb mb eb];
    try reflexivity;
    try (destruct sa; reflexivity); try (destruct sb; reflexivity);
    try (destruct sa, sb; reflexivity).
  rewrite !SFcompare_finite. simpl. f_equal.
  destruct sa, sb; try reflexivity.
  - now rewrite lexc_antisym.
  - now rewrite lexc_antisym.
Qed.

Lemma SFcompare_lt_trans (a b c : SpecFloat.spec_float) :
  SpecFloat.SFcompare a b = Some Lt -> SpecFloat.SFcompare b c = Some Lt -> SpecFloat.SFcompare a c = Some Lt.
Proof.
  destruct a as [sa|sa| |sa ma ea]; destruct b as [sb|sb| |sb mb eb];
    destruct c as [sc|sc| |sc mc ec];
    rewrite ?SFcompare_finite;
    try (simpl; discriminate);
    try (destruct sa; simpl; discriminate);
    try (destruct sb; simpl; discriminate);
    try (destruct sc; simpl; discriminate);
    try (destruct sa, sb; simpl; discriminate);
    try (destruct sa, sc; simpl; discriminate);
    try (destruct sb, sc; simpl; discriminate);
    try (destruct sa, sb, sc; simpl; (discriminate || reflexivity || congruence)).
  destruct sa, sb, sc; simpl; intros A B; try discriminate; try reflexivity.
  - destruct (lexc ea ma eb mb) eqn:E1; simpl in A; try discriminate.
    destruct (lexc eb mb ec mc) eqn:E2; simpl in B; try discriminate.
    now rewrite (lexc_gt_trans _ _ _ _ _ _ E1 E2).
  - injection A as A. injection B as B.
    now rewrite (lexc_lt_trans _ _ _ _ _ _ A B).
Qed.

(** *** Comparisons of binary64 numbers *)

Lemma ltb_leb_false (a b : float) : (a <? b)%float = true -> (b <=? a)%float = false.
Proof.
  rewrite FloatAxioms.ltb_spec, FloatAxioms.leb_spec. unfold SpecFloat.SFltb, SpecFloat.SFleb.
  rewrite (SFcompare_antisym (FloatOps.Prim2SF a) (FloatOps.Prim2SF b)).
  destruct (SpecFloat.SFcompare (FloatOps.Prim2SF a) (FloatOps.Prim2SF b)) as [[]|];
    simpl; congruence.
Qed.

Lemma ltb_eqb_false (a b : float) : (a <? b)%float = true -> (b =? a)%float = false.
Proof.
  rewrite FloatAxioms.ltb_spec, FloatAxioms.eqb_spec. unfold SpecFloat.SFltb, SpecFloat.SFeqb.
  rewrite (SFcompare_antisym (FloatOps.Prim2SF a) (FloatOps.Prim2SF b)).
  destruct (SpecFloat.SFcompare (FloatOps.Prim2SF a) (FloatOps.Prim2SF b)) as [[]|];
    simpl; congruence.
Qed.

Lemma ltb_trans (a b c : float) :
  (a <? b)%float = true -> (b <? c)%float = true -> (a <? c)%float = true.
Proof.
  rewrite !FloatAxioms.ltb_spec. unfold SpecFloat.SFltb. intros A B.
  destruct (SpecFloat.SFcompare (FloatOps.Prim2SF a) (FloatOps.Prim2SF b)) as [[]|] eqn:E1;
    try discriminate.
  destruct (SpecFloat.SFcompare (FloatOps.Prim2SF b) (FloatOps.Prim2SF c)) as [[]|] eqn:E2;
    try discriminate.
  now rewrite (SFcompare_lt_trans _ _ _ E1 E2).
Qed.

(** A float equal to a finite number that is not zero is that number. *)
Lemma eqb_finite (p c : float) (s : bool) (m : BinNums.positive) (e : Z) :
  FloatOps.Prim2SF c = SpecFloat.S754_finite s m e -> (p =? c)%float = true -> p = c.
Proof.
  intros C H. apply FloatAxioms.Prim2SF_inj. rewrite C.
  rewrite FloatAxioms.eqb_spec, C in H. unfold SpecFloat.SFeqb in H.
  destruct (FloatOps.Prim2SF p) as [sp|sp| |sp mp ep];
    try (simpl in H; discriminate);
    try (destruct s; simpl in H; discriminate);
    try (destruct sp; simpl in H; discriminate).
  rewrite SFcompare_finite in H.
  destruct sp, s; try discriminate.
  - destruct (lexc ep mp e m) eqn:L; simpl in H; try discriminate.
    apply lexc_eq in L. destruct L as [-> ->]. reflexivity.
  - destruct (lexc ep mp e m) eqn:L; simpl in H; try discriminate.
    apply lexc_eq in L. destruct L as [-> ->]. reflexivity.
Qed.

(** A float that is a zero. *)
Lemma eqb_zero (p : float) :
  (p =? 0)%float = true -> exists s, FloatOps.Prim2SF p = SpecFloat.S754_zero s.
Proof.
  rewrite FloatAxioms.eqb_spec. unfold SpecFloat.SFeqb.
  destruct (FloatOps.Prim2SF p) as [sp|sp| |sp mp ep]; [eauto | | |].
  - destruct sp; vm_compute; discriminate.
  - vm_compute; discriminate.
  - destruct sp; vm_compute; discriminate.
Qed.

(** A positive float below infinity. *)
Lemma positive_finite (p : float) :
  (0 <? p)%float = true -> (p <? infinity)%float = true ->
  exists m e, FloatOps.Prim2SF p = SpecFloat.S754_finite false m e.
Proof.
  rewrite !FloatAxioms.ltb_spec. unfold SpecFloat.SFltb.
  destruct (FloatOps.Prim2SF p) as [sp|sp| |sp mp ep].
  - vm_compute. discriminate.
  - destruct sp; vm_compute; intros; discriminate.
  - vm_compute. discriminate.
  - destruct sp; [vm_compute; discriminate | eauto].
Qed.

(** The percentage of a price against itself is zero. *)
Lemma pct_same (p : float) :
  (0 <? p)%float = true -> (p <? infinity)%float = true ->
  (abs (p - p) / p * 100 = 0)%float.
Proof.
  intros A B. destruct (@positive_finite p A B) as (m & e & P).
  apply FloatAxioms.Prim2SF_inj.
  rewrite FloatAxioms.mul_spec, FloatAxioms.div_spec, FloatAxioms.abs_spec,
    FloatAxioms.sub_spec, P.
  unfold FloatAxioms.SF64sub, SpecFloat.SFsub. cbv zeta. rewrite Z.sub_diag.
  reflexivity.
Qed.

(** A number above a cut point is above the lower cut points, and is no
    zero. *)
Lemma above_cut (c' c p : float) :
  (c' <? c)%float = true -> (c <? p)%float = true -> (p <=? c')%float = false.
Proof. intros A B. apply ltb_leb_false. now apply (@ltb_trans c' c p). Qed.

Lemma above_zero (c p : float) :
  (0 <? c)%float = true -> (c <? p)%float = true -> (p =? 0)%float = false.
Proof. intros A B. apply ltb_eqb_false. now apply (@ltb_trans 0%float c p). Qed.

Lemma float_div_ok (a b : float) :
  (b =? 0)%float = false -> float_div a b = Ok (a / b)%float.
Proof. intro H. unfold float_div. now rewrite H. Qed.

(** ** The price analysis *)

Lemma classify_buckets (p : float) :
  ((p =? 0)%float = true -> fst (classify p) = "✅ EXACT MATCH"%string) /\
  ((p =? 0)%float = false -> (p <=? 2)%float = true ->
   fst (classify p) = "⚠️ MINOR DIFFERENCE"%string) /\
  ((2 <? p)%float = true -> (p <=? 5)%float = true ->
   fst (classify p) = "❌ SMALL DIFFERENCE"%string) /\
  ((5 <? p)%float = true -> (p <=? 10)%float = true ->
   fst (classify p) = "❌ MODERATE DIFFERENCE"%string) /\
  ((10 <? p)%float = true -> (p <=? 25)%float = true ->
   fst (classify p) = "❌ SIGNIFICANT DIFFERENCE"%string) /\
  ((25 <? p)%float = true -> fst (classify p) = "❌ MAJOR DIFFERENCE"%string).
Proof.
  unfold classify.
  split; [intro Z; now rewrite Z|].
  split; [intros Z M; now rewrite Z, M|].
  split; [intros L U|].
  { now rewrite (@above_zero 2 p eq_refl L), (ltb_leb_false L), U. }
  split; [intros L U|].
  { now rewrite (@above_zero 5 p eq_refl L), (@above_cut 2 5 p eq_refl L),
      (ltb_leb_false L), U. }
  split; [intros L U|intro L].
  { now rewrite (@above_zero 10 p eq_refl L), (@above_cut 2 10 p eq_refl L),
      (@above_cut 5 10 p eq_refl L), (ltb_leb_false L), U. }
  now rewrite (@above_zero 25 p eq_refl L), (@above_cut 2 25 p eq_refl L),
    (@above_cut 5 25 p eq_refl L), (@above_cut 10 25 p eq_refl L),
    (ltb_leb_false L).
Qed.

(** C2, as the claim states it, fails twice. An invoice rate of 0 is not
    null, the catalogue price 100 is positive and the difference is 100%,
    yet no difference is computed and no bucket assigned. And the bounds
    cut the rounded percentage: the rate 61.20 differs from the price 60
    by 2% exactly, but the binary64 computation yields a percentage just
    above 2 and the bucket is SMALL, not MINOR. *)
Lemma C2_zero_rate_and_rounding :
  price_analysis (Some 0%float) 100%float = Ok (None, matched_status) /\
  (exists pa : PriceAnalysis,
      price_analysis (Some 61.20%float) 60%float = Ok (Some pa, small_status) /\
      (2 <? difference_percentage pa)%float = true) /\
  (Qabs (61.20 - 60) / 60 * 100 == 2)%Q.
Proof.
  split; [reflexivity|]. split; [|reflexivity].
  eexists. split; [vm_compute; reflexivity | reflexivity].
Qed.

(** C2 (amended): for an invoice rate that is neither null nor zero and a
    positive catalogue price, the analysis is present, its difference is
    [|rate - price|] and its percentage [|rate - price| / price * 100],
    both as binary64 arithmetic computes them, and the status follows the
    buckets of the computed percentage with inclusive upper bounds: 0 is
    EXACT, up to 2 MINOR, up to 5 SMALL, up to 10 MODERATE, up to 25
    SIGNIFICANT, above 25 MAJOR; a finite price against itself gives
    EXACT with percentage 0, a computed 2% gives MINOR and a computed
    2.01% gives SMALL. *)
Theorem C2_price_buckets (rate price : float) :
  (rate =? 0)%float = false -> (0 <? price)%float = true ->
  exists pa : PriceAnalysis,
    price_analysis (Some rate) price = Ok (Some pa, status pa) /\
    difference pa = abs (rate - price) /\
    difference_percentage pa = (abs (rate - price) / price * 100)%float /\
    (let p := difference_percentage pa in
     ((p =? 0)%float = true -> status pa = exact_status) /\
     ((p =? 0)%float = false -> (p <=? 2)%float = true ->
      status pa = minor_status) /\
     ((2 <? p)%float = true -> (p <=? 5)%float = true ->
      status pa = small_status) /\
     ((5 <? p)%float = true -> (p <=? 10)%float = true ->
      status pa = "❌ MODERATE DIFFERENCE"%string) /\
     ((10 <? p)%float = true -> (p <=? 25)%float = true ->
      status pa = "❌ SIGNIFICANT DIFFERENCE"%string) /\
     ((25 <? p)%float = true -> status pa = "❌ MAJOR DIFFERENCE"%string) /\
     (rate = price -> (price <? infinity)%float = true ->
      p = 0%float /\ status pa = exact_status) /\
     ((p =? 2)%float = true -> status pa = minor_status) /\
     ((p =? 2.01)%float = true -> status pa = small_status)).
Proof.
  intros Hrate Hprice.
  assert (Hp : (price =? 0)%float = false) by now apply ltb_eqb_false.
  unfold price_analysis, float_truthy. rewrite Hrate, Hp. cbn [negb andb].
  rewrite (float_div_ok _ Hp). cbn [bind].
  set (p := (abs (rate - price) / price * 100)%float).
  destruct (classify p) as [st pst] eqn:Ec.
  exists (mkAnalysis rate price (abs (rate - price)) p st pst).
  do 3 (split; [reflexivity|]).
  cbv zeta. cbn [difference_percentage status].
  pose proof (classify_buckets p) as B. rewrite Ec in B. cbn [fst] in B.
  destruct B as (B0 & B1 & B2 & B3 & B4 & B5).
  do 6 (split; [assumption|]).
  split; [|split].
  - intros E F. subst rate.
    assert (Z : p = 0%float) by (apply pct_same; assumption).
    split; [exact Z|]. apply B0. now rewrite Z.
  - intro E.
    assert (Z : p = 2%float)
      by (eapply eqb_finite; [reflexivity | exact E]).
    rewrite Z in B1. now apply B1.
  - intro E.
    assert (Z : p = 2.01%float)
      by (eapply eqb_finite; [reflexivity | exact E]).
    rewrite Z in B2. now apply B2.
Qed.

(** A rate of 102 against a price of 100 satisfies the hypotheses of
    [C2_price_buckets]: the computed percentage is 2 and the status is
    MINOR. *)
Lemma C2_price_buckets_witness :
  exists pa : PriceAnalysis,
    price_analysis (Some 102%float) 100%float = Ok (Some pa, status pa) /\
    status pa = minor_status.
Proof.
  destruct (@C2_price_buckets 102%float 100%float eq_refl eq_refl)
    as (pa & H1 & _ & H3 & H4).
  exists pa. split; [exact H1|].
  apply H4. rewrite H3. reflexivity.
Defined.

(** ** Strings *)

Lemma eqs_eq (a b : str) : eqs a b = true <-> a = b.
Proof.
  revert b. induction a as [|x a IH]; intros [|y b]; simpl; try easy.
  rewrite andb_true_iff, IH. unfold eqc. rewrite Ascii.eqb_eq.
  split; [intros [-> ->]; reflexivity | intro H; inversion H; auto].
Qed.

Lemma eqs_refl (a : str) : eqs a a = true.
Proof. now apply eqs_eq. Qed.

Lemma eqs_neq (a b : str) : eqs a b = false <-> a <> b.
Proof.
  split; intro H.
  - intro E. apply eqs_eq in E. congruence.
  - destruct (eqs a b) eqn:E; [|reflexivity]. apply eqs_eq in E. contradiction.
Qed.

Lemma nonempty_str_true (s : str) : nonempty_str s = true <-> s <> [].
Proof. destruct s; simpl; split; congruence. Qed.

(** ** The catalogue index *)

Lemma build_index_fold (l : list DatabaseFabric) :
  _build_index l = fold_left add_fabric l [].
Proof. reflexivity. Qed.

Lemma dict_get_set_same (k : str) (v : DatabaseFabric) (ix : index) :
  dict_get k (dict_set k v ix) = Some v.
Proof.
  induction ix as [|[k' v'] ix IH]; simpl.
  - now rewrite eqs_refl.
  - destruct (eqs k' k) eqn:E; simpl; rewrite E; auto.
Qed.

Lemma dict_get_set_other (k k' : str) (v : DatabaseFabric) (ix : index) :
  k' <> k -> dict_get k' (dict_set k v ix) = dict_get k' ix.
Proof.
  intro N. induction ix as [|[k0 v0] ix IH]; simpl.
  - destruct (eqs k k') eqn:E; [apply eqs_eq in E; congruence | reflexivity].
  - destruct (eqs k0 k) eqn:E; simpl.
    + apply eqs_eq in E. subst k0.
      destruct (eqs k k') eqn:E'; [apply eqs_eq in E'; congruence | reflexivity].
    + destruct (eqs k0 k'); auto.
Qed.

Lemma keys_dict_set (k : str) (v : DatabaseFabric) (ix : index) :
  keys (dict_set k v ix) = if mem k (keys ix) then keys ix else keys ix ++ [k].
Proof.
  unfold keys, mem. induction ix as [|[k' v'] ix IH]; simpl; [reflexivity|].
  destruct (eqs k' k) eqn:E.
  - apply eqs_eq in E. subst. simpl. now rewrite eqs_refl.
  - simpl. rewrite IH.
    assert (E' : eqs k k' = false).
    { apply eqs_neq. apply eqs_neq in E. congruence. }
    rewrite E'. simpl. destruct (existsb (eqs k) (map fst ix)); reflexivity.
Qed.

Lemma mem_In (k : str) (l : list str) : mem k l = true <-> In k l.
Proof.
  unfold mem. rewrite existsb_exists. split.
  - intros (x & Hx & E). apply eqs_eq in E. now subst.
  - intro H. exists k. split; [assumption | apply eqs_refl].
Qed.

Lemma mem_false (k : str) (l : list str) : mem k l = false <-> ~ In k l.
Proof.
  rewrite <- mem_In. destruct (mem k l); split; congruence.
Qed.

Lemma in_keys_dict_set (k k' : str) (v : DatabaseFabric) (ix : index) :
  In k' (keys (dict_set k v ix)) <-> k' = k \/ In k' (keys ix).
Proof.
  rewrite keys_dict_set. destruct (mem k (keys ix)) eqn:E.
  - apply mem_In in E. split; [auto | intros [->|H]; auto].
  - rewrite in_app_iff. simpl. intuition congruence.
Qed.

Lemma nodup_dict_set (k : str) (v : DatabaseFabric) (ix : index) :
  NoDup (keys ix) -> NoDup (keys (dict_set k v ix)).
Proof.
  intro H. rewrite keys_dict_set. destruct (mem k (keys ix)) eqn:E; [assumption|].
  apply mem_false in E.
  apply NoDup_app; [assumption | repeat constructor; intros [] | ].
  intros x Hx [<-|[]]. contradiction.
Qed.

Lemma dict_get_In (k : str) (f : DatabaseFabric) (ix : index) :
  NoDup (keys ix) -> (dict_get k ix = Some f <-> In (k, f) ix).
Proof.
  induction ix as [|[k' v'] ix IH]; simpl; intro N.
  - split; [discriminate | tauto].
  - inversion N as [|? ? Hn N']; subst.
    destruct (eqs k' k) eqn:E.
    + apply eqs_eq in E. subst k'. split.
      * intro H. inversion H. auto.
      * intros [H|H]; [inversion H; reflexivity|].
        exfalso. apply Hn. change k with (fst (k, f)). now apply in_map.
    + apply eqs_neq in E. rewrite (IH N'). split; [auto|].
      intros [H|H]; [inversion H; congruence | assumption].
Qed.

Lemma dict_get_keys (k : str) (ix : index) :
  In k (keys ix) <-> exists f, dict_get k ix = Some f.
Proof.
  induction ix as [|[k' v'] ix IH]; simpl.
  - split; [tauto | intros [f H]; discriminate].
  - destruct (eqs k' k) eqn:E.
    + apply eqs_eq in E. split; [eauto | auto].
    + apply eqs_neq in E. rewrite IH. intuition congruence.
Qed.

Lemma well_keyed_add (ix : index) (f : DatabaseFabric) :
  well_keyed ix -> well_keyed (add_fabric ix f).
Proof.
  intros [N E]. unfold add_fabric. cbv zeta.
  destruct (normalize_string (db_material_name f)) as [|c k] eqn:Ek; [now split|].
  split; [now apply nodup_dict_set|].
  rewrite in_keys_dict_set. intros [H|H]; [discriminate | contradiction].
Qed.

Lemma well_keyed_fold (l : list DatabaseFabric) (ix : index) :
  well_keyed ix -> well_keyed (fold_left add_fabric l ix).
Proof.
  revert ix. induction l as [|f l IH]; simpl; intros ix H; [assumption|].
  apply IH. now apply well_keyed_add.
Qed.

Lemma well_keyed_build (l : list DatabaseFabric) : well_keyed (_build_index l).
Proof.
  rewrite build_index_fold. apply well_keyed_fold.
  split; [constructor | intros []].
Qed.

Lemma find_app {A : Type} (p : A -> bool) (a b : list A) :
  find p (a ++ b) = match find p a with Some x => Some x | None => find p b end.
Proof.
  induction a as [|x a IH]; simpl; [reflexivity|]. destruct (p x); auto.
Qed.

Lemma dict_get_fold (k : str) (l : list DatabaseFabric) (ix : index) :
  k <> [] ->
  dict_get k (fold_left add_fabric l ix) =
  match last_named k l with Some f => Some f | None => dict_get k ix end.
Proof.
  intro Hk. revert ix. unfold last_named.
  induction l as [|f l IH]; intro ix; simpl; [reflexivity|].
  rewrite IH, find_app. destruct (find (named k) (rev l)); [reflexivity|].
  simpl. unfold named, add_fabric. cbv zeta.
  destruct (normalize_string (db_material_name f)) as [|c n] eqn:En.
  - destruct k; [congruence | reflexivity].
  - destruct (eqs (c :: n) k) eqn:E.
    + apply eqs_eq in E. subst k. apply dict_get_set_same.
    + apply eqs_neq in E. apply dict_get_set_other. congruence.
Qed.

Lemma dict_get_build (k : str) (l : list DatabaseFabric) :
  dict_get k (_build_index l) = if nonempty_str k then last_named k l else None.
Proof.
  destruct k as [|c k]; simpl.
  - destruct (dict_get [] (_build_index l)) eqn:E; [|reflexivity].
    exfalso. apply (proj2 (well_keyed_build l)).
    apply dict_get_keys. eauto.
  - rewrite build_index_fold, dict_get_fold by discriminate.
    destruct (last_named (c :: k) l); reflexivity.
Qed.

Lemma in_keys_build (k : str) (l : list DatabaseFabric) :
  In k (keys (_build_index l)) <->
  k <> [] /\ exists f, In f l /\ normalize_string (db_material_name f) = k.
Proof.
  rewrite dict_get_keys. split.
  - intros [f H]. rewrite dict_get_build in H.
    destruct (nonempty_str k) eqn:E; [|discriminate].
    apply nonempty_str_true in E. split; [assumption|].
    unfold last_named in H. apply find_some in H. destruct H as [Hin Hn].
    exists f. split; [now apply in_rev | now apply eqs_eq].
  - intros (Hk & f & Hin & Hn). rewrite dict_get_build.
    apply nonempty_str_true in Hk. rewrite Hk.
    unfold last_named.
    destruct (find (named k) (rev l)) eqn:E; [eauto|].
    exfalso. apply in_rev in Hin.
    pose proof (find_none _ _ E f Hin) as F.
    unfold named in F. rewrite Hn, eqs_refl in F. discriminate.
Qed.

(** C5, as the claim states it, fails: of two entries whose names
    normalise to the same key only the later one is in the index. *)
Lemma C5_duplicate_name_is_overwritten :
  In (mkDb (py "Cotton") 20) two_cottons /\
  _build_index two_cottons = [(py "cotton", mkDb (py "COTTON") 30)].
Proof. split; [left; reflexivity | vm_compute; reflexivity]. Qed.

(** C5 (amended): the index has one candidate per non-empty normalised
    name, and it is the last entry of the input with that normalised name;
    an earlier entry with the same normalised name is overwritten and an
    entry whose normalised name is empty is not indexed. *)
Theorem C5_index_keeps_last_of_each_name (fabrics : list DatabaseFabric) :
  NoDup (keys (_build_index fabrics)) /\
  forall (k : str) (f : DatabaseFabric),
    In (k, f) (_build_index fabrics) <->
    k <> [] /\ last_named k fabrics = Some f.
Proof.
  destruct (well_keyed_build fabrics) as [N E]. split; [exact N|].
  intros k f. rewrite <- (@dict_get_In k f _ N), dict_get_build.
  destruct k as [|c k]; simpl.
  - split; [discriminate | intros [H _]; congruence].
  - split; [intro H; split; [discriminate | exact H] | intros [_ H]; exact H].
Qed.

(** ** The match result *)

Lemma create_match_result_ok (parsed : ParsedFabric) (db : option DatabaseFabric)
  (score : Q) (algorithm confidence : string) :
  exists diff pct,
    _create_match_result parsed db score algorithm confidence =
    Ok (mkResult parsed db score algorithm confidence
                 (option_map default_purchase_price db) diff pct) /\
    (forall f, db = Some f -> (default_purchase_price f == 0)%Q ->
               diff = None /\ pct = None).
Proof.
  unfold _create_match_result. destruct db as [f|]; simpl.
  - destruct (truthy (default_purchase_price f)) eqn:Ep.
    + destruct (truthy (FabricMatcher.rate parsed)); simpl.
      * rewrite (pdiv_truthy _ _ Ep). simpl. do 2 eexists. split; [reflexivity|].
        intros f' E Z. inversion E; subst f'.
        apply truthy_true in Ep. contradiction.
      * do 2 eexists. split; [reflexivity|]. auto.
    + simpl. do 2 eexists. split; [reflexivity|]. auto.
  - do 2 eexists. split; [reflexivity|]. intros f E. discriminate.
Qed.

(** C8, as the claim states it, fails: with a catalogue price of 0 the
    percentage difference is not 0 but absent, in [analyze_invoice] (no
    price analysis, status MATCHED rather than EXACT MATCH) and in
    [_create_match_result] ([price_difference_percent] is [None]). *)
Lemma C8_zero_price_gives_no_percentage :
  price_analysis (Some 100%float) 0%float = Ok (None, matched_status) /\
  _create_match_result (fabric_named (py "x")) (Some (mkDb (py "x") 0%Q))
                       100%Q "EXACT_MATCH" "HIGH" =
  Ok (mkResult (fabric_named (py "x")) (Some (mkDb (py "x") 0%Q)) 100%Q
               "EXACT_MATCH" "HIGH" (Some 0%Q) None None).
Proof. split; reflexivity. Qed.

(** C8 (amended): the price comparison never raises, whatever the invoice
    rate (null or not) and the catalogue price, and it never divides by
    zero; when the catalogue price is 0 no percentage difference is
    computed: [analyze_invoice] gives no price analysis and the status
    MATCHED, [_create_match_result] leaves the difference and its
    percentage absent. *)
Theorem C8_price_comparison_total :
  (forall (rate : option float) (price : float),
      (exists v, price_analysis rate price = Ok v) /\
      ((price =? 0)%float = true ->
       price_analysis rate price = Ok (None, matched_status))) /\
  (forall (parsed : ParsedFabric) (db : option DatabaseFabric) (score : Q)
          (algorithm confidence : string),
      exists r,
        _create_match_result parsed db score algorithm confidence = Ok r /\
        (forall f, db = Some f -> (default_purchase_price f == 0)%Q ->
                   price_difference r = None /\
                   price_difference_percent r = None)).
Proof.
  split.
  - intros rate price. unfold price_analysis.
    destruct rate as [rate|].
    + unfold float_truthy, float_div.
      destruct (rate =? 0)%float; destruct (price =? 0)%float; cbn [negb andb bind].
      * split; [eauto | reflexivity].
      * split; [eauto | reflexivity].
      * split; [eauto | reflexivity].
      * destruct (classify _). split; [eauto | discriminate].
    + split; [eauto | reflexivity].
  - intros parsed db score algorithm confidence.
    destruct (create_match_result_ok parsed db score algorithm confidence)
      as (diff & pct & E & Z).
    eexists. split; [exact E|]. simpl. exact Z.
Qed.

(** ** The cascade *)

Lemma create_fields (parsed : ParsedFabric) (db : option DatabaseFabric)
  (score : Q) (algorithm confidence : string) (r : MatchResult) :
  _create_match_result parsed db score algorithm confidence = Ok r ->
  database_fabric r = db /\ match_score r = score /\
  match_algorithm r = algorithm /\ confidence_level r = confidence.
Proof.
  destruct (create_match_result_ok parsed db score algorithm confidence)
    as (diff & pct & E & _).
  rewrite E. intro H. inversion H. simpl. auto.
Qed.

Lemma above_some (t : Q) (b b' : best) :
  above t b = Some b' -> b' = b /\ (t <= snd b)%Q.
Proof.
  unfold above. destruct (Qle_bool t (snd b)) eqn:E; [|discriminate].
  intro H. injection H as <-. split; [reflexivity | apply Qle_bool_iff; exact E].
Qed.

Lemma bind_above (x : result best) (t : Q) (b : best) :
  (v <- x ;; Ok (above t v)) = Ok (Some b) -> (t <= snd b)%Q.
Proof.
  destruct x as [v|e]; simpl; [|discriminate].
  intro H. inversion H as [H']. apply above_some in H'. destruct H' as [-> L].
  exact L.
Qed.

Lemma exact_match_score (ix : index) (name : str) (b : best) :
  exact_match ix name = Some b -> snd b = 100%Q /\ exists f, fst b = Some f.
Proof.
  unfold exact_match. destruct (dict_get _ ix) as [f|]; [|discriminate].
  intro H. inversion H. simpl. eauto.
Qed.

Section CascadeFacts.

Variable seq_ratio : str -> str -> Q.
Variable jaro_winkler_similarity : str -> str -> Q.
Variable levenshtein_distance : str -> str -> nat.
Variables fuzz_ratio fuzz_partial fuzz_token_sort fuzz_token_set
  : str -> str -> nat.

Local Abbreviation match_fabric' :=
  (match_fabric seq_ratio jaro_winkler_similarity levenshtein_distance
                fuzz_ratio fuzz_partial fuzz_token_sort fuzz_token_set).
Local Abbreviation fuzzy_match' :=
  (fuzzy_match seq_ratio jaro_winkler_similarity levenshtein_distance
               fuzz_ratio fuzz_partial fuzz_token_sort fuzz_token_set).
Local Abbreviation cascade' :=
  (cascade seq_ratio jaro_winkler_similarity levenshtein_distance
           fuzz_ratio fuzz_partial fuzz_token_sort fuzz_token_set).

Lemma match_fabric_cascade (ix : index) (parsed : ParsedFabric) :
  match_fabric' ix parsed = cascade' ix parsed.
Proof.
  unfold match_fabric, cascade, strategies.
  cbn [first_accepting bind fst snd].
  destruct (exact_match ix _) as [b|]; [reflexivity|].
  destruct (prefix_based_match ix _) as [[b|]|e]; cbn [bind]; try reflexivity.
  destruct (substring_match ix _) as [[b|]|e]; cbn [bind]; try reflexivity.
  destruct (fuzzy_match _ _ _ _ _ _ _ ix _) as [[b|]|e]; cbn [bind];
    try reflexivity.
  destruct (semantic_match ix _) as [[b|]|e]; cbn [bind]; reflexivity.
Qed.

Lemma exact_wins (ix : index) (parsed : ParsedFabric) (b : best) :
  exact_match ix (FabricMatcher.material_name parsed) = Some b ->
  exists r,
    match_fabric' ix parsed = Ok r /\
    match_algorithm r = "EXACT_MATCH"%string /\
    database_fabric r = fst b /\ match_score r = 100%Q /\
    confidence_level r = "HIGH"%string.
Proof.
  intro E. unfold match_fabric. rewrite E.
  destruct (create_match_result_ok parsed (fabric_of b) (score_of b)
              "EXACT_MATCH" "HIGH") as (diff & pct & C & _).
  rewrite C. eexists. split; [reflexivity|]. simpl.
  destruct (exact_match_score _ _ E) as [S _]. unfold score_of. auto.
Qed.

Lemma match_fabric_thresholds (ix : index) (parsed : ParsedFabric)
  (r : MatchResult) :
  match_fabric' ix parsed = Ok r ->
  (match_algorithm r = "EXACT_MATCH"%string /\ match_score r = 100%Q) \/
  (match_algorithm r = "PREFIX_BASED_MATCH"%string /\ (70 <= match_score r)%Q) \/
  (match_algorithm r = "SUBSTRING_MATCH"%string /\ (60 <= match_score r)%Q) \/
  (match_algorithm r = "FUZZY_MATCH"%string /\ (70 <= match_score r)%Q) \/
  (match_algorithm r = "SEMANTIC_MATCH"%string /\ (50 <= match_score r)%Q) \/
  (match_algorithm r = "NO_MATCH"%string /\ match_score r = 0%Q /\
   database_fabric r = None).
Proof.
  unfold match_fabric. intro H.
  destruct (exact_match ix _) as [b|] eqn:E1.
  { apply create_fields in H. destruct H as (_ & S & A & _).
    left. split; [exact A|]. rewrite S.
    apply (exact_match_score _ _ E1). }
  destruct (prefix_based_match ix _) as [[b|]|e] eqn:E2; cbn [bind] in H;
    [| |discriminate].
  { apply create_fields in H. destruct H as (_ & S & A & _).
    right; left. split; [exact A|]. rewrite S.
    apply (bind_above _ _ E2). }
  destruct (substring_match ix _) as [[b|]|e] eqn:E3; cbn [bind] in H;
    [| |discriminate].
  { apply create_fields in H. destruct H as (_ & S & A & _).
    right; right; left. split; [exact A|]. rewrite S.
    apply (bind_above _ _ E3). }
  destruct (fuzzy_match _ _ _ _ _ _ _ ix _) as [[b|]|e] eqn:E4;
    cbn [bind] in H; [| |discriminate].
  { apply create_fields in H. destruct H as (_ & S & A & _).
    do 3 right; left. split; [exact A|]. rewrite S.
    apply (bind_above _ _ E4). }
  destruct (semantic_match ix _) as [[b|]|e] eqn:E5; cbn [bind] in H;
    [| |discriminate].
  { apply create_fields in H. destruct H as (_ & S & A & _).
    do 4 right; left. split; [exact A|]. rewrite S.
    apply (bind_above _ _ E5). }
  apply create_fields in H. destruct H as (D & S & A & _).
  do 5 right. auto.
Qed.


Lemma exact_match_indexed (fabrics : list DatabaseFabric) (e : DatabaseFabric)
  (n : str) :
  In e fabrics -> normalize_string (db_material_name e) = n -> n <> [] ->
  normalize_string n = n ->
  exists f, exact_match (_build_index fabrics) n = Some (Some f, 100%Q) /\
            normalize_string (db_material_name f) = n.
Proof.
  intros Hin Hn Hne Hfix. unfold exact_match.
  rewrite Hfix, dict_get_build.
  apply nonempty_str_true in Hne. rewrite Hne.
  unfold last_named. destruct (find (named n) (rev fabrics)) as [f|] eqn:F.
  - exists f. split; [reflexivity|].
    apply find_some in F. destruct F as [_ F]. now apply eqs_eq.
  - exfalso. apply in_rev in Hin. pose proof (find_none _ _ F e Hin) as N.
    unfold named in N. rewrite Hn, eqs_refl in N. discriminate.
Qed.

(** C4 (amended): for a catalogue entry whose normalised name is not
    empty and is left unchanged by normalising it again, querying the
    matcher of a catalogue that contains the entry with that normalised
    name returns a result with algorithm EXACT_MATCH (score 100,
    confidence HIGH, and an entry of the same normalised name). *)
Theorem C4_exact_self_match (fabrics : list DatabaseFabric) (e : DatabaseFabric)
  (parsed : ParsedFabric) :
  In e fabrics ->
  normalize_string (db_material_name e) <> [] ->
  normalize_string (normalize_string (db_material_name e)) =
  normalize_string (db_material_name e) ->
  FabricMatcher.material_name parsed = normalize_string (db_material_name e) ->
  exists r f,
    match_fabric' (_build_index fabrics) parsed = Ok r /\
    match_algorithm r = "EXACT_MATCH"%string /\
    match_score r = 100%Q /\ confidence_level r = "HIGH"%string /\
    database_fabric r = Some f /\
    normalize_string (db_material_name f) = normalize_string (db_material_name e).
Proof.
  intros Hin Hne Hfix Hname.
  destruct (exact_match_indexed fabrics e Hin eq_refl Hne Hfix) as (f & E & F).
  rewrite <- Hname in E.
  destruct (exact_wins _ _ E) as (r & M & A & D & S & C).
  exists r, f. simpl in D. auto 10.
Qed.

End CascadeFacts.

(** The entry Cotton of [two_cottons] satisfies the hypotheses of
    [C4_exact_self_match]. *)
Lemma C4_exact_self_match_witness :
  exists r f,
    match_fabric no_similarity no_similarity no_distance no_distance
                 no_distance no_distance no_distance
                 (_build_index two_cottons) (fabric_named (py "cotton")) = Ok r /\
    match_algorithm r = "EXACT_MATCH"%string /\
    match_score r = 100%Q /\ confidence_level r = "HIGH"%string /\
    database_fabric r = Some f /\
    normalize_string (db_material_name f) =
    normalize_string (db_material_name (mkDb (py "Cotton") 20)).
Proof.
  apply (@C4_exact_self_match no_similarity no_similarity no_distance
           no_distance no_distance no_distance no_distance two_cottons
           (mkDb (py "Cotton") 20) (fabric_named (py "cotton"))).
  - left. reflexivity.
  - vm_compute. discriminate.
  - vm_compute. reflexivity.
  - vm_compute. reflexivity.
Defined.

(** C4, as the claim states it, fails: an entry whose name normalises to
    the empty string is not indexed, so the query of its normalised name
    finds no match, whatever the similarity measures. *)
Lemma C4_unindexed_entry_is_not_matched :
  In punctuation_entry [punctuation_entry] /\
  normalize_string (db_material_name punctuation_entry) = [] /\
  forall sr jw lv f1 f2 f3 f4, exists r,
    matcher sr jw lv f1 f2 f3 f4 [punctuation_entry]
            (fabric_named (normalize_string (db_material_name punctuation_entry)))
    = Ok r /\
    match_algorithm r = "NO_MATCH"%string /\ database_fabric r = None.
Proof.
  split; [left; reflexivity|]. split; [vm_compute; reflexivity|].
  intros. eexists. split; [vm_compute; reflexivity|]. split; reflexivity.
Qed.


(** With an empty catalogue every name gets the result NO_MATCH, without
    an exception, whatever the similarity measures. *)
Theorem empty_catalogue_no_match sr jw lv f1 f2 f3 f4 (parsed : ParsedFabric) :
  exists r,
    matcher sr jw lv f1 f2 f3 f4 [] parsed = Ok r /\
    match_algorithm r = "NO_MATCH"%string /\
    confidence_level r = "NO_MATCH"%string /\
    database_fabric r = None /\ match_score r = 0%Q.
Proof. eexists. split; [reflexivity|]. repeat split. Qed.

(** The scenario of the specification: against the catalogue entry
    A - NEW ROYAL FABRIC at 549, the name NEW ROYAL is matched by the
    substring strategy, with score 89 and confidence HIGH. *)
Theorem new_royal_scenario sr jw lv f1 f2 f3 f4 :
  exists r,
    matcher sr jw lv f1 f2 f3 f4 [new_royal] (fabric_named (py "NEW ROYAL"))
    = Ok r /\
    match_algorithm r = "SUBSTRING_MATCH"%string /\
    confidence_level r = "HIGH"%string /\
    database_fabric r = Some new_royal /\ (match_score r == 89)%Q /\
    suggested_price r = Some 549%Q.
Proof.
  eexists. split; [vm_compute; reflexivity|].
  repeat split; vm_compute; reflexivity.
Qed.

(** A name that normalises to the empty string makes the prefix-based
    strategy divide by zero on a catalogue name of one word: the name is
    contained in what remains of the catalogue name once its first word is
    stripped, and both are empty. *)
Theorem empty_name_divides_by_zero sr jw lv f1 f2 f3 f4 :
  normalize_string (py "12") = [] /\
  matcher sr jw lv f1 f2 f3 f4 [cotton] (fabric_named (py "12"))
  = Raise ZeroDivisionError.
Proof. split; vm_compute; reflexivity. Qed.

(** ** Scanning the index for the best candidate *)

Lemma keep_spec (b : best) (c : DatabaseFabric * Q) :
  (snd b <= snd (keep b c))%Q /\ (snd c <= snd (keep b c))%Q /\
  (keep b c = b \/ keep b c = (Some (fst c), snd c)).
Proof.
  unfold keep, keep_best. destruct (Qltb (snd b) (snd c)) eqn:E; simpl.
  - apply Qltb_true in E. repeat split; [lra | lra | now right].
  - apply Qltb_false in E. repeat split; [lra | lra | now left].
Qed.

(** The best of a scan bounds the initial score and every candidate, and
    is the initial value or one of the candidates. *)
Lemma fold_keep_spec (l : list (DatabaseFabric * Q)) (b : best) :
  (snd b <= snd (fold_left keep l b))%Q /\
  (forall c, In c l -> (snd c <= snd (fold_left keep l b))%Q) /\
  (fold_left keep l b = b \/
   exists c, In c l /\ fold_left keep l b = (Some (fst c), snd c)).
Proof.
  revert b. induction l as [|c l IH]; intro b; simpl.
  - repeat split; [lra | intros c [] | now left].
  - destruct (IH (keep b c)) as (L1 & L2 & L3).
    destruct (keep_spec b c) as (K1 & K2 & K3).
    repeat split.
    + lra.
    + intros c' [<-|Hc]; [lra | now apply L2].
    + destruct L3 as [L3|(c' & Hc & L3)].
      * rewrite L3. destruct K3 as [K3|K3]; [now left|].
        right. exists c. auto.
      * right. exists c'. auto.
Qed.

Section Scan.

Variable sc : scoring.
Variable body : best -> str * DatabaseFabric -> result best.

Hypothesis body_scores : forall b k f,
  body b (k, f) = (l <- sc k ;; Ok (fold_left keep (map (pair f) l) b)).

Lemma scan_candidates (ix : index) (b : best) :
  for_each body ix b = (c <- candidates sc ix ;; Ok (fold_left keep c b)).
Proof.
  revert b. induction ix as [|[k f] ix IH]; intro b; simpl; [reflexivity|].
  rewrite body_scores. destruct (sc k) as [l|e]; simpl; [|reflexivity].
  rewrite IH. destruct (candidates sc ix) as [c|e]; simpl; [|reflexivity].
  now rewrite fold_left_app.
Qed.

End Scan.

Lemma candidates_ok_iff (sc : scoring) (ix : index) :
  (exists c, candidates sc ix = Ok c) <->
  (forall k, In k (keys ix) -> exists l, sc k = Ok l).
Proof.
  induction ix as [|[k f] ix IH]; simpl.
  - split; [intros _ k [] | eauto].
  - split.
    + intros [c H] k' [<-|Hk].
      * destruct (sc k) as [l|e]; [eauto | discriminate].
      * destruct (sc k) as [l|e]; [|discriminate]. simpl in H.
        destruct (candidates sc ix) as [c'|e]; [|discriminate].
        apply (proj1 IH); eauto.
    + intro H. destruct (H k (or_introl eq_refl)) as [l El]. rewrite El. simpl.
      destruct (proj2 IH (fun k' Hk => H k' (or_intror Hk))) as [c Ec].
      rewrite Ec. simpl. eauto.
Qed.

Lemma candidates_scores (sc : scoring) (ix : index)
  (c : list (DatabaseFabric * Q)) :
  candidates sc ix = Ok c ->
  forall s, In s (map snd c) <->
            exists k l, In k (keys ix) /\ sc k = Ok l /\ In s l.
Proof.
  revert c. induction ix as [|[k f] ix IH]; simpl; intros c H s.
  - inversion H. simpl. split; [tauto | intros (? & ? & [] & _)].
  - destruct (sc k) as [l|e] eqn:El; [|discriminate]. simpl in H.
    destruct (candidates sc ix) as [c'|e] eqn:Ec; [|discriminate].
    inversion H; subst c. rewrite map_app, in_app_iff, map_map. simpl.
    rewrite map_id, (IH c' eq_refl s). split.
    + intros [Hs|(k' & l' & Hk & El' & Hs)].
      * exists k, l. auto.
      * exists k', l'. auto.
    + intros (k' & l' & [<-|Hk] & El' & Hs).
      * left. congruence.
      * right. eauto.
Qed.

Lemma candidates_raise (sc : scoring) (ix : index) (e : exn) :
  candidates sc ix = Raise e -> exists k, In k (keys ix) /\ sc k = Raise e.
Proof.
  induction ix as [|[k f] ix IH]; simpl; [discriminate|].
  destruct (sc k) as [l|e'] eqn:El; simpl.
  - destruct (candidates sc ix) as [c|e'']; simpl; [discriminate|].
    intro H. inversion H; subst. destruct (IH eq_refl) as (k' & Hk & E). eauto.
  - intro H. inversion H; subst. eauto.
Qed.

Lemma above_congr (t : Q) (a b : best) :
  (snd a == snd b)%Q ->
  match above t a, above t b with
  | Some a', Some b' => (snd a' == snd b')%Q
  | None, None => True
  | _, _ => False
  end.
Proof.
  intro E. unfold above.
  destruct (Qle_bool t (snd a)) eqn:Ea; destruct (Qle_bool t (snd b)) eqn:Eb;
    try exact E; try exact I.
  - apply Qle_bool_iff in Ea. apply Qle_bool_false in Eb. lra.
  - apply Qle_bool_iff in Eb. apply Qle_bool_false in Ea. lra.
Qed.

(** Two indexes with the same keys give a strategy the same outcome. *)
Lemma scan_same (sc : scoring) (ix1 ix2 : index) (t : Q) :
  (forall k e, sc k = Raise e -> e = ZeroDivisionError) ->
  (forall k, In k (keys ix1) <-> In k (keys ix2)) ->
  same_best (c <- candidates sc ix1 ;; Ok (above t (fold_left keep c best0)))
            (c <- candidates sc ix2 ;; Ok (above t (fold_left keep c best0))).
Proof.
  intros Hz Hk.
  destruct (candidates sc ix1) as [c1|e1] eqn:E1;
    destruct (candidates sc ix2) as [c2|e2] eqn:E2; simpl.
  - assert (M : forall ixa ixb ca cb,
               candidates sc ixa = Ok ca -> candidates sc ixb = Ok cb ->
               (forall k, In k (keys ixa) -> In k (keys ixb)) ->
               (snd (fold_left keep ca best0) <= snd (fold_left keep cb best0))%Q).
    { intros ixa ixb ca cb Ea Eb Hab.
      destruct (fold_keep_spec ca best0) as (_ & _ & [A|(c & Hc & A)]).
      - rewrite A. apply (fold_keep_spec cb best0).
      - rewrite A. simpl.
        assert (Hs : In (snd c) (map snd ca)) by now apply in_map.
        apply (candidates_scores _ _ Ea) in Hs.
        destruct Hs as (k & l & Hin & El & Hs).
        assert (Hs' : In (snd c) (map snd cb)).
        { apply (candidates_scores _ _ Eb). exists k, l. auto. }
        apply in_map_iff in Hs'. destruct Hs' as (c' & Ec' & Hc').
        rewrite <- Ec'. now apply (fold_keep_spec cb best0). }
    pose proof (M ix1 ix2 c1 c2 E1 E2 (fun k => proj1 (Hk k))) as L1.
    pose proof (M ix2 ix1 c2 c1 E2 E1 (fun k => proj2 (Hk k))) as L2.
    assert (E : (snd (fold_left keep c1 best0) == snd (fold_left keep c2 best0))%Q)
      by lra.
    pose proof (above_congr t _ _ E) as A.
    destruct (above t (fold_left keep c1 best0));
      destruct (above t (fold_left keep c2 best0)); exact A.
  - apply candidates_raise in E2. destruct E2 as (k & Hin & E2).
    apply Hk in Hin.
    destruct (proj1 (candidates_ok_iff sc ix1) (ex_intro _ c1 E1) k Hin) as [l El].
    congruence.
  - apply candidates_raise in E1. destruct E1 as (k & Hin & E1).
    apply Hk in Hin.
    destruct (proj1 (candidates_ok_iff sc ix2) (ex_intro _ c2 E2) k Hin) as [l El].
    congruence.
  - apply candidates_raise in E1. destruct E1 as (k1 & _ & E1).
    apply candidates_raise in E2. destruct E2 as (k2 & _ & E2).
    rewrite (Hz _ _ E1), (Hz _ _ E2). reflexivity.
Qed.

(** The best of a scan is the first candidate of the greatest score: the
    candidates before it are strictly below, those after it are not
    above. *)
Lemma fold_keep_first (l : list (DatabaseFabric * Q)) (b : best) :
  (fold_left keep l b = b /\ forall c, In c l -> (snd c <= snd b)%Q) \/
  exists l1 c l2,
    l = l1 ++ c :: l2 /\ fold_left keep l b = (Some (fst c), snd c) /\
    (snd b < snd c)%Q /\
    (forall c', In c' l1 -> (snd c' < snd c)%Q) /\
    (forall c', In c' l2 -> (snd c' <= snd c)%Q).
Proof.
  revert b. induction l as [|x l IH]; intro b; simpl.
  - left. split; [reflexivity | intros c []].
  - unfold keep at 2 4. unfold keep_best.
    destruct (Qltb (snd b) (snd x)) eqn:E.
    + apply Qltb_true in E.
      destruct (IH (Some (fst x), snd x))
        as [[R A]|(l1 & c & l2 & L & R & B & A1 & A2)].
      * right. exists [], x, l. simpl in *.
        split; [reflexivity|]. split; [exact R|]. split; [exact E|].
        split; [intros c' []|exact A].
      * right. exists (x :: l1), c, l2. simpl in *. subst l.
        split; [reflexivity|]. split; [exact R|]. split; [lra|].
        split; [|exact A2].
        intros c' [<-|H]; [exact B | now apply A1].
    + apply Qltb_false in E.
      destruct (IH b) as [[R A]|(l1 & c & l2 & L & R & B & A1 & A2)].
      * left. split; [exact R|]. intros c [<-|H]; [exact E | now apply A].
      * right. exists (x :: l1), c, l2. simpl. subst l.
        split; [reflexivity|]. split; [exact R|]. split; [exact B|].
        split; [|exact A2].
        intros c' [<-|H]; [lra | now apply A1].
Qed.

(** ** The four scans, by their candidate scores *)

Ltac by_cases_of_body :=
  cbv zeta;
  repeat match goal with
  | |- context [bind (pdiv ?a ?b) _] => destruct (pdiv a b); cbn [bind]
  | |- context [if ?c then _ else _] => destruct c; cbn [bind]
  end;
  cbn [bind app map fold_left keep fst snd]; try reflexivity.

Lemma substring_body_scores (np : str) (pt : list str) (b : best) (k : str)
  (f : DatabaseFabric) :
  substring_body np pt b (k, f) =
  (l <- substring_scores np pt k ;; Ok (fold_left keep (map (pair f) l) b)).
Proof. unfold substring_body, substring_scores. by_cases_of_body. Qed.

Lemma prefix_body_scores (np : str) (pt : list str) (b : best) (k : str)
  (f : DatabaseFabric) :
  prefix_body np pt b (k, f) =
  (l <- prefix_scores np pt k ;; Ok (fold_left keep (map (pair f) l) b)).
Proof. unfold prefix_body, prefix_scores. by_cases_of_body. Qed.

Lemma semantic_body_scores (pt : list str) (b : best) (k : str)
  (f : DatabaseFabric) :
  semantic_body pt b (k, f) =
  (l <- semantic_scores pt k ;; Ok (fold_left keep (map (pair f) l) b)).
Proof.
  unfold semantic_body, semantic_scores. cbv zeta.
  destruct (keyword_pass patterns _ _ _ _) as [score total].
  by_cases_of_body.
Qed.

Section FuzzyBody.

Variable seq_ratio : str -> str -> Q.
Variable jaro_winkler_similarity : str -> str -> Q.
Variable levenshtein_distance : str -> str -> nat.
Variables fuzz_ratio fuzz_partial fuzz_token_sort fuzz_token_set
  : str -> str -> nat.

Lemma fuzzy_body_scores (np : str) (b : best) (k : str) (f : DatabaseFabric) :
  fuzzy_body seq_ratio jaro_winkler_similarity levenshtein_distance
             fuzz_ratio fuzz_partial fuzz_token_sort fuzz_token_set np b (k, f) =
  (l <- fuzzy_scores seq_ratio jaro_winkler_similarity levenshtein_distance
                     fuzz_ratio fuzz_partial fuzz_token_sort fuzz_token_set np k ;;
   Ok (fold_left keep (map (pair f) l) b)).
Proof.
  unfold fuzzy_body, fuzzy_scores. cbv zeta. cbn [length].
  by_cases_of_body.
Qed.

End FuzzyBody.

(** The only exception of a scoring is a division by zero. *)
Ltac raises_zero_division :=
  cbv zeta;
  repeat match goal with
  | |- context [bind (pdiv ?a ?b) _] =>
      let E := fresh "E" in
      destruct (pdiv a b) eqn:E; cbn [bind];
      [| apply pdiv_raises in E; congruence]
  | |- context [if ?c then _ else _] => destruct c; cbn [bind]
  end;
  try discriminate.

Lemma substring_scores_raise (np : str) (pt : list str) (k : str) (e : exn) :
  substring_scores np pt k = Raise e -> e = ZeroDivisionError.
Proof. unfold substring_scores. raises_zero_division. Qed.

Lemma prefix_scores_raise (np : str) (pt : list str) (k : str) (e : exn) :
  prefix_scores np pt k = Raise e -> e = ZeroDivisionError.
Proof. unfold prefix_scores. raises_zero_division. Qed.

Lemma semantic_scores_raise (pt : list str) (k : str) (e : exn) :
  semantic_scores pt k = Raise e -> e = ZeroDivisionError.
Proof.
  unfold semantic_scores. cbv zeta.
  destruct (keyword_pass patterns _ _ _ _) as [score total].
  raises_zero_division.
Qed.

Lemma fuzzy_scores_raise sr jw lv f1 f2 f3 f4 (np k : str) (e : exn) :
  fuzzy_scores sr jw lv f1 f2 f3 f4 np k = Raise e -> e = ZeroDivisionError.
Proof. unfold fuzzy_scores. raises_zero_division. Qed.

(** ** The order of the catalogue *)

Lemma substring_match_candidates (ix : index) (name : str) :
  substring_match ix name =
  (c <- candidates (substring_scores (normalize_string name)
                                     (to_set (tokenize_string name))) ix ;;
   Ok (above 60 (fold_left keep c best0))).
Proof.
  unfold substring_match. cbv zeta.
  rewrite (@scan_candidates _ _ (substring_body_scores _ _)).
  destruct (candidates _ ix); reflexivity.
Qed.

Lemma prefix_match_candidates (ix : index) (name : str) :
  prefix_based_match ix name =
  (c <- candidates (prefix_scores (normalize_string name)
                                  (to_set (tokenize_string name))) ix ;;
   Ok (above 70 (fold_left keep c best0))).
Proof.
  unfold prefix_based_match. cbv zeta.
  rewrite (@scan_candidates _ _ (prefix_body_scores _ _)).
  destruct (candidates _ ix); reflexivity.
Qed.

Lemma semantic_match_candidates (ix : index) (name : str) :
  semantic_match ix name =
  (c <- candidates (semantic_scores (tokenize_string name)) ix ;;
   Ok (above 50 (fold_left keep c best0))).
Proof.
  unfold semantic_match. cbv zeta.
  rewrite (@scan_candidates _ _ (semantic_body_scores _)).
  destruct (candidates _ ix); reflexivity.
Qed.

Lemma high_or_medium_congr (a b : Q) :
  (a == b)%Q -> high_or_medium a = high_or_medium b.
Proof.
  intro E. unfold high_or_medium.
  destruct (Qle_bool 85 a) eqn:Ea; destruct (Qle_bool 85 b) eqn:Eb;
    try reflexivity; exfalso.
  - apply Qle_bool_iff in Ea. apply Qle_bool_false in Eb. lra.
  - apply Qle_bool_iff in Eb. apply Qle_bool_false in Ea. lra.
Qed.

Lemma medium_or_low_congr (a b : Q) :
  (a == b)%Q -> medium_or_low a = medium_or_low b.
Proof.
  intro E. unfold medium_or_low.
  destruct (Qle_bool 70 a) eqn:Ea; destruct (Qle_bool 70 b) eqn:Eb;
    try reflexivity; exfalso.
  - apply Qle_bool_iff in Ea. apply Qle_bool_false in Eb. lra.
  - apply Qle_bool_iff in Eb. apply Qle_bool_false in Ea. lra.
Qed.

Lemma create_same (parsed : ParsedFabric) (d1 d2 : option DatabaseFabric)
  (s1 s2 : Q) (algorithm c1 c2 : string) :
  (s1 == s2)%Q -> c1 = c2 ->
  same_verdict (_create_match_result parsed d1 s1 algorithm c1)
               (_create_match_result parsed d2 s2 algorithm c2).
Proof.
  intros Es Ec.
  destruct (create_match_result_ok parsed d1 s1 algorithm c1) as (? & ? & E1 & _).
  destruct (create_match_result_ok parsed d2 s2 algorithm c2) as (? & ? & E2 & _).
  rewrite E1, E2. simpl. auto.
Qed.

Lemma exact_same (ix1 ix2 : index) (name : str) :
  (forall k, In k (keys ix1) <-> In k (keys ix2)) ->
  match exact_match ix1 name, exact_match ix2 name with
  | Some a, Some b => snd a = 100%Q /\ snd b = 100%Q
  | None, None => True
  | _, _ => False
  end.
Proof.
  intro Hk. unfold exact_match.
  pose proof (dict_get_keys (normalize_string name) ix1) as K1.
  pose proof (dict_get_keys (normalize_string name) ix2) as K2.
  destruct (dict_get _ ix1) as [f1|]; destruct (dict_get _ ix2) as [f2|];
    simpl; auto.
  - assert (H : In (normalize_string name) (keys ix2)).
    { apply Hk, K1. eauto. }
    apply K2 in H. destruct H. discriminate.
  - assert (H : In (normalize_string name) (keys ix1)).
    { apply Hk, K2. eauto. }
    apply K1 in H. destruct H. discriminate.
Qed.

(** *** The entry of a scan *)

(** A scan that passes a positive threshold returns its first candidate
    of the greatest score. *)
Lemma scan_top (sc : scoring) (ix : index) (t : Q) (b : best) :
  (c <- candidates sc ix ;; Ok (above t (fold_left keep c best0))) = Ok (Some b) ->
  (0 < t)%Q ->
  exists f c,
    fst b = Some f /\ candidates sc ix = Ok c /\ top_candidate Qle c f (snd b).
Proof.
  intros H T. destruct (candidates sc ix) as [c|e]; [|discriminate].
  cbn [bind] in H. injection H as H. apply above_some in H.
  destruct H as [-> L].
  destruct (fold_keep_first c best0)
    as [[R _]|(l1 & x & l2 & E & R & _ & A1 & A2)].
  - rewrite R in L. cbn [snd best0] in L. lra.
  - rewrite R. destruct x as [f s]. cbn [fst snd] in *.
    exists f, c. split; [reflexivity|]. split; [reflexivity|].
    exists l1, l2. auto.
Qed.

Lemma candidates_entries (sc : scoring) (ix : index)
  (c : list (DatabaseFabric * Q)) :
  candidates sc ix = Ok c ->
  forall f s, In (f, s) c <->
              exists k l, In (k, f) ix /\ sc k = Ok l /\ In s l.
Proof.
  revert c. induction ix as [|[k f0] ix IH]; cbn [candidates]; intros c H f s.
  - inversion H. split; [intros [] | intros (? & ? & [] & _)].
  - destruct (sc k) as [l|e] eqn:El; [|discriminate]. cbn [bind] in H.
    destruct (candidates sc ix) as [c'|e] eqn:Ec; [|discriminate].
    cbn [bind] in H. inversion H; subst c.
    rewrite in_app_iff, in_map_iff, (IH c' eq_refl f s). split.
    + intros [(x & E & Hx)|(k' & l' & Hk & El' & Hs)].
      * inversion E; subst. exists k, l. split; [now left | auto].
      * exists k', l'. split; [now right | auto].
    + intros (k' & l' & [E|Hk] & El' & Hs).
      * inversion E; subst. left. exists s. split; [reflexivity|]. congruence.
      * right. eauto.
Qed.

(** An entry of the index is an entry of the catalogue, under its
    canonical name. *)
Lemma index_entry (fabrics : list DatabaseFabric) (k : str) (f : DatabaseFabric) :
  In (k, f) (_build_index fabrics) -> canonical f = k /\ In f fabrics.
Proof.
  intro H.
  apply (@dict_get_In k f _ (proj1 (well_keyed_build fabrics))) in H.
  rewrite dict_get_build in H.
  destruct (nonempty_str k); [|discriminate].
  unfold last_named in H. apply find_some in H. destruct H as [Hin Hn].
  split; [now apply eqs_eq | now apply in_rev].
Qed.

Lemma key_entry (ix : index) (k : str) :
  In k (keys ix) -> exists f, In (k, f) ix.
Proof.
  unfold keys. intro H. apply in_map_iff in H.
  destruct H as ([k' f] & E & H). cbn [fst] in E. subst k'. eauto.
Qed.

Lemma permuted_keys (fabrics1 fabrics2 : list DatabaseFabric) (k : str) :
  Permutation fabrics1 fabrics2 ->
  In k (keys (_build_index fabrics1)) -> In k (keys (_build_index fabrics2)).
Proof.
  intro P. rewrite !in_keys_build. intros (Hk & f & Hin & Hn).
  split; [exact Hk|]. exists f. split; [|exact Hn].
  now apply (Permutation_in _ P).
Qed.

Lemma canonical_injective (fabrics : list DatabaseFabric)
  (f1 f2 : DatabaseFabric) :
  NoDup (map canonical fabrics) -> In f1 fabrics -> In f2 fabrics ->
  canonical f1 = canonical f2 -> f1 = f2.
Proof.
  induction fabrics as [|f l IH]; cbn [map]; intros N H1 H2 E; [destruct H1|].
  inversion N as [|? ? Hn N']; subst.
  destruct H1 as [<-|H1]; destruct H2 as [<-|H2]; [reflexivity | | |auto].
  - exfalso. apply Hn. rewrite E. now apply in_map.
  - exfalso. apply Hn. rewrite <- E. now apply in_map.
Qed.

(** When nothing ties with the top candidate of one catalogue, the top
    candidate of a permuted catalogue has the same canonical name. *)
Lemma untied_same_name (sc : scoring) (fabrics1 fabrics2 : list DatabaseFabric)
  (r1 r2 : MatchResult) :
  Permutation fabrics1 fabrics2 ->
  (match_score r1 == match_score r2)%Q ->
  scanned Qlt sc (_build_index fabrics1) r1 ->
  scanned Qle sc (_build_index fabrics2) r2 ->
  exists f1 f2,
    database_fabric r1 = Some f1 /\ database_fabric r2 = Some f2 /\
    In f1 fabrics1 /\ In f2 fabrics2 /\ canonical f1 = canonical f2.
Proof.
  intros P Es (f1 & c1 & D1 & C1 & l1 & l2 & E1 & A1 & A2)
         (f2 & c2 & D2 & C2 & l3 & l4 & E2 & _ & _).
  exists f1, f2. split; [exact D1|]. split; [exact D2|].
  assert (I1 : In (f1, match_score r1) c1)
    by (rewrite E1; apply in_or_app; right; now left).
  assert (I2 : In (f2, match_score r2) c2)
    by (rewrite E2; apply in_or_app; right; now left).
  apply (@candidates_entries _ _ _ C1) in I1.
  destruct I1 as (k1 & _ & K1 & _).
  destruct (@index_entry _ _ _ K1) as [N1 F1].
  apply (@candidates_entries _ _ _ C2) in I2.
  destruct I2 as (k2 & l & K2 & El & Hs).
  destruct (@index_entry _ _ _ K2) as [N2 F2].
  split; [exact F1|]. split; [exact F2|].
  assert (Hk : In k2 (keys (_build_index fabrics1))).
  { apply (@permuted_keys fabrics2 fabrics1 k2 (Permutation_sym P)).
    unfold keys. change k2 with (fst (k2, f2)). now apply in_map. }
  destruct (@key_entry _ _ Hk) as (f' & K').
  assert (I : In (f', match_score r2) c1).
  { apply (@candidates_entries _ _ _ C1). exists k2, l. auto. }
  rewrite E1 in I. apply in_app_iff in I.
  destruct I as [I|[I|I]].
  - apply A1 in I. cbn [snd] in I. lra.
  - inversion I; subst f'.
    destruct (@index_entry _ _ _ K') as [N' _]. congruence.
  - apply A2 in I. cbn [snd] in I. lra.
Qed.

Section Order.

Variable seq_ratio : str -> str -> Q.
Variable jaro_winkler_similarity : str -> str -> Q.
Variable levenshtein_distance : str -> str -> nat.
Variables fuzz_ratio fuzz_partial fuzz_token_sort fuzz_token_set
  : str -> str -> nat.

Local Abbreviation match_fabric' :=
  (match_fabric seq_ratio jaro_winkler_similarity levenshtein_distance
                fuzz_ratio fuzz_partial fuzz_token_sort fuzz_token_set).
Local Abbreviation fuzzy_match' :=
  (fuzzy_match seq_ratio jaro_winkler_similarity levenshtein_distance
               fuzz_ratio fuzz_partial fuzz_token_sort fuzz_token_set).
Local Abbreviation fuzzy_scores' :=
  (fuzzy_scores seq_ratio jaro_winkler_similarity levenshtein_distance
                fuzz_ratio fuzz_partial fuzz_token_sort fuzz_token_set).
Local Abbreviation matcher' :=
  (matcher seq_ratio jaro_winkler_similarity levenshtein_distance
           fuzz_ratio fuzz_partial fuzz_token_sort fuzz_token_set).

Lemma fuzzy_match_candidates (ix : index) (name : str) :
  fuzzy_match' ix name =
  (c <- candidates (fuzzy_scores' (normalize_string name)) ix ;;
   Ok (above 70 (fold_left keep c best0))).
Proof.
  unfold fuzzy_match. cbv zeta.
  rewrite (@scan_candidates _ _ (fuzzy_body_scores _ _ _ _ _ _ _ _)).
  destruct (candidates _ ix); reflexivity.
Qed.

Lemma match_fabric_same_keys (ix1 ix2 : index) (parsed : ParsedFabric) :
  (forall k, In k (keys ix1) <-> In k (keys ix2)) ->
  same_verdict (match_fabric' ix1 parsed) (match_fabric' ix2 parsed).
Proof.
  intro Hk. unfold match_fabric.
  set (name := FabricMatcher.material_name parsed).
  pose proof (@exact_same ix1 ix2 name Hk) as X.
  destruct (exact_match ix1 name) as [a|]; destruct (exact_match ix2 name) as [b|];
    try contradiction.
  { destruct X as [Xa Xb]. apply create_same; [|reflexivity].
    unfold score_of. rewrite Xa, Xb. reflexivity. }
  pose proof (@scan_same _ ix1 ix2 70
                (@prefix_scores_raise (normalize_string name)
                                      (to_set (tokenize_string name))) Hk) as P.
  rewrite <- !prefix_match_candidates in P.
  destruct (prefix_based_match ix1 name) as [[a|]|e1];
    destruct (prefix_based_match ix2 name) as [[b|]|e2];
    simpl in P; try contradiction; cbn [bind]; [| |exact P].
  { apply create_same; [exact P | now apply high_or_medium_congr]. }
  clear P.
  pose proof (@scan_same _ ix1 ix2 60
                (@substring_scores_raise (normalize_string name)
                                         (to_set (tokenize_string name))) Hk) as P.
  rewrite <- !substring_match_candidates in P.
  destruct (substring_match ix1 name) as [[a|]|e1];
    destruct (substring_match ix2 name) as [[b|]|e2];
    simpl in P; try contradiction; cbn [bind]; [| |exact P].
  { apply create_same; [exact P | now apply high_or_medium_congr]. }
  clear P.
  pose proof (@scan_same _ ix1 ix2 70
                (@fuzzy_scores_raise seq_ratio jaro_winkler_similarity
                   levenshtein_distance fuzz_ratio fuzz_partial fuzz_token_sort
                   fuzz_token_set (normalize_string name)) Hk) as P.
  rewrite <- !fuzzy_match_candidates in P.
  destruct (fuzzy_match' ix1 name) as [[a|]|e1];
    destruct (fuzzy_match' ix2 name) as [[b|]|e2];
    simpl in P; try contradiction; cbn [bind]; [| |exact P].
  { apply create_same; [exact P | now apply high_or_medium_congr]. }
  clear P.
  pose proof (@scan_same _ ix1 ix2 50
                (@semantic_scores_raise (tokenize_string name)) Hk) as P.
  rewrite <- !semantic_match_candidates in P.
  destruct (semantic_match ix1 name) as [[a|]|e1];
    destruct (semantic_match ix2 name) as [[b|]|e2];
    simpl in P; try contradiction; cbn [bind]; [| |exact P].
  { apply create_same; [exact P|].
    apply (medium_or_low_congr P). }
  apply create_same; reflexivity.
Qed.

Local Abbreviation chosen' :=
  (chosen seq_ratio jaro_winkler_similarity levenshtein_distance
          fuzz_ratio fuzz_partial fuzz_token_sort fuzz_token_set).

Ltac top_of D S E :=
  let f := fresh "f" in let c := fresh "c" in
  let F := fresh "F" in let C := fresh "C" in let T := fresh "T" in
  destruct (@scan_top _ _ _ _ E eq_refl) as (f & c & F & C & T);
  exists f, c; rewrite D, S; unfold fabric_of, score_of; auto.

(** Every strategy returns the first of its candidates of the greatest
    score, in the order of the index. *)
Lemma match_fabric_chosen (ix : index) (parsed : ParsedFabric)
  (r : MatchResult) :
  match_fabric' ix parsed = Ok r -> chosen' Qle ix parsed r.
Proof.
  unfold match_fabric, chosen. cbv zeta. intro H.
  destruct (exact_match ix _) as [b|] eqn:E1.
  { apply create_fields in H. destruct H as (D & _ & A & _).
    left. split; [exact A|]. unfold exact_match in E1.
    destruct (dict_get _ ix) as [f|]; [|discriminate].
    inversion E1; subst b. exists f. split; [exact D | reflexivity]. }
  destruct (prefix_based_match ix _) as [[b|]|e] eqn:E2; cbn [bind] in H;
    [| |discriminate].
  { apply create_fields in H. destruct H as (D & S & A & _).
    right; left. split; [exact A|].
    rewrite prefix_match_candidates in E2. top_of D S E2. }
  destruct (substring_match ix _) as [[b|]|e] eqn:E3; cbn [bind] in H;
    [| |discriminate].
  { apply create_fields in H. destruct H as (D & S & A & _).
    right; right; left. split; [exact A|].
    rewrite substring_match_candidates in E3. top_of D S E3. }
  destruct (fuzzy_match _ _ _ _ _ _ _ ix _) as [[b|]|e] eqn:E4;
    cbn [bind] in H; [| |discriminate].
  { apply create_fields in H. destruct H as (D & S & A & _).
    do 3 right; left. split; [exact A|].
    rewrite fuzzy_match_candidates in E4. top_of D S E4. }
  destruct (semantic_match ix _) as [[b|]|e] eqn:E5; cbn [bind] in H;
    [| |discriminate].
  { apply create_fields in H. destruct H as (D & S & A & _).
    do 4 right; left. split; [exact A|].
    rewrite semantic_match_candidates in E5. top_of D S E5. }
  apply create_fields in H. destruct H as (D & _ & A & _).
  do 5 right. auto.
Qed.

Lemma permuted_same_verdict (fabrics1 fabrics2 : list DatabaseFabric)
  (parsed : ParsedFabric) :
  Permutation fabrics1 fabrics2 ->
  same_verdict (matcher' fabrics1 parsed) (matcher' fabrics2 parsed).
Proof.
  intro P. unfold matcher. apply match_fabric_same_keys.
  intro k. split; [apply (@permuted_keys _ _ k P) | apply (@permuted_keys _ _ k (Permutation_sym P))].
Qed.

(** The entries of two results of permuted catalogues, when nothing ties
    with the first one: both absent, or of the same canonical name. *)
Lemma permuted_same_name (fabrics1 fabrics2 : list DatabaseFabric)
  (parsed : ParsedFabric) (r1 r2 : MatchResult) :
  Permutation fabrics1 fabrics2 ->
  match_algorithm r1 = match_algorithm r2 ->
  (match_score r1 == match_score r2)%Q ->
  chosen' Qlt (_build_index fabrics1) parsed r1 ->
  chosen' Qle (_build_index fabrics2) parsed r2 ->
  (database_fabric r1 = None /\ database_fabric r2 = None) \/
  exists f1 f2,
    database_fabric r1 = Some f1 /\ database_fabric r2 = Some f2 /\
    In f1 fabrics1 /\ In f2 fabrics2 /\ canonical f1 = canonical f2.
Proof.
  intros P Va Vs U C. unfold chosen in U, C. cbv zeta in U, C.
  destruct U as [U|[U|[U|[U|[U|U]]]]]; destruct U as [A1 U];
    destruct C as [C|[C|[C|[C|[C|C]]]]]; destruct C as [A2 C];
    try (exfalso; congruence).
  - right. destruct U as (f1 & D1 & G1). destruct C as (f2 & D2 & G2).
    apply (@dict_get_In _ f1 _ (proj1 (well_keyed_build fabrics1))) in G1.
    apply (@dict_get_In _ f2 _ (proj1 (well_keyed_build fabrics2))) in G2.
    destruct (@index_entry _ _ _ G1) as [N1 F1].
    destruct (@index_entry _ _ _ G2) as [N2 F2].
    exists f1, f2. repeat (split; [assumption|]). congruence.
  - right. now apply (@untied_same_name _ fabrics1 fabrics2 r1 r2 P Vs U C).
  - right. now apply (@untied_same_name _ fabrics1 fabrics2 r1 r2 P Vs U C).
  - right. now apply (@untied_same_name _ fabrics1 fabrics2 r1 r2 P Vs U C).
  - right. now apply (@untied_same_name _ fabrics1 fabrics2 r1 r2 P Vs U C).
  - left. auto.
Qed.


End Order.



(** ** The substring strategy *)

Lemma QN_nonzero (n : nat) : n <> 0 -> ~ (QN n == 0)%Q.
Proof.
  intros H E. unfold QN, Qeq in E. simpl in E. lia.
Qed.

Lemma contains_in_empty (c : ascii) (k : str) : contains (c :: k) [] = false.
Proof. reflexivity. Qed.

Lemma inter_nil_r (a : list str) : inter a [] = [].
Proof. unfold inter. induction a as [|x a IH]; simpl; auto. Qed.

Lemma substring_scores_spec (np : str) (pt : list str) (k : str) :
  k <> [] ->
  substring_scores np pt k =
  Ok (option_list (containment_score np k) ++
      option_list (overlap_score pt (to_set (tokenize_string k)))).
Proof.
  intro Hk. unfold substring_scores, containment_score, overlap_score. cbv zeta.
  assert (C1 : forall x,
    (if contains np k
     then r <- pdiv (QN (length np)) (QN (length k)) ;; Ok [Qmin 95 (80 + r * 20)]
     else if contains k np
          then r <- pdiv (QN (length k)) (QN (length np)) ;;
               Ok [Qmin 95 (80 + r * 20)]
          else Ok []) = Ok x ->
    x = option_list
          (if contains np k
           then Some (Qmin 95 (80 + QN (length np) / QN (length k) * 20))
           else if contains k np
                then Some (Qmin 95 (80 + QN (length k) / QN (length np) * 20))
                else None)).
  { intro x. destruct (contains np k).
    - rewrite pdiv_ok by (apply QN_nonzero; destruct k; simpl; congruence).
      simpl. congruence.
    - destruct (contains k np) eqn:E; [|simpl; congruence].
      rewrite pdiv_ok; [simpl; congruence|].
      apply QN_nonzero. destruct np; [|simpl; congruence].
      destruct k; [congruence | discriminate]. }
  assert (C1ok : exists x,
    (if contains np k
     then r <- pdiv (QN (length np)) (QN (length k)) ;; Ok [Qmin 95 (80 + r * 20)]
     else if contains k np
          then r <- pdiv (QN (length k)) (QN (length np)) ;;
               Ok [Qmin 95 (80 + r * 20)]
          else Ok []) = Ok x).
  { destruct (contains np k).
    - rewrite pdiv_ok by (apply QN_nonzero; destruct k; simpl; congruence).
      simpl. eauto.
    - destruct (contains k np) eqn:E; [|eauto].
      rewrite pdiv_ok; [simpl; eauto|].
      apply QN_nonzero. destruct np; [|simpl; congruence].
      destruct k; [congruence | discriminate]. }
  destruct C1ok as [x Ex]. rewrite Ex. rewrite <- (C1 x Ex). cbn [bind].
  set (dbt := to_set (tokenize_string k)).
  set (kept := filter (fun token => negb (mem token substring_stop)) dbt).
  destruct (nonempty pt && nonempty dbt) eqn:G.
  - destruct (0 <? length (inter pt kept)) eqn:O; [|reflexivity].
    rewrite pdiv_ok; [reflexivity|].
    apply QN_nonzero. apply Nat.ltb_lt in O.
    unfold union. rewrite length_app.
    destruct pt; [simpl in O; lia | simpl; lia].
  - assert (Z : inter pt kept = []).
    { apply andb_false_iff in G. destruct G as [G|G].
      - destruct pt; [reflexivity | discriminate].
      - unfold kept. destruct dbt; [apply inter_nil_r | discriminate]. }
    rewrite Z. reflexivity.
Qed.

Lemma substring_candidates_spec (ix : index) (name : str) :
  ~ In [] (keys ix) ->
  candidates (substring_scores (normalize_string name)
                               (to_set (tokenize_string name))) ix =
  Ok (substring_candidates ix name).
Proof.
  unfold substring_candidates. cbv zeta.
  induction ix as [|[k f] ix IH]; simpl; intro H; [reflexivity|].
  rewrite substring_scores_spec by (intro E; apply H; left; congruence).
  cbn [bind]. rewrite IH by (intro E; apply H; now right). reflexivity.
Qed.

(** The value of [substring_match] on a well-keyed index: the best of
    the candidates of the specification, if it reaches 60. *)
Lemma substring_match_spec (ix : index) (name : str) :
  ~ In [] (keys ix) ->
  exists outcome,
    substring_match ix name = Ok outcome /\
    match outcome with
    | None => forall f s, In (f, s) (substring_candidates ix name) -> (s < 60)%Q
    | Some (chosen, s) =>
        (60 <= s)%Q /\
        (exists f, chosen = Some f /\ In (f, s) (substring_candidates ix name)) /\
        (forall f' s', In (f', s') (substring_candidates ix name) -> (s' <= s)%Q)
    end.
Proof.
  intro H. rewrite substring_match_candidates, substring_candidates_spec by exact H.
  cbn [bind]. eexists. split; [reflexivity|].
  destruct (fold_keep_spec (substring_candidates ix name) best0) as (L0 & L1 & L2).
  unfold above.
  destruct (Qle_bool 60 (snd (fold_left keep (substring_candidates ix name) best0)))
    eqn:E.
  - apply Qle_bool_iff in E.
    destruct (fold_left keep (substring_candidates ix name) best0)
      as [chosen s] eqn:F.
    simpl in *. split; [exact E|]. split.
    + destruct L2 as [L2|(c & Hc & L2)].
      * inversion L2; subst. exfalso. lra.
      * inversion L2; subst. exists (fst c). split; [reflexivity|].
        now destruct c.
    + intros f' s' Hin. apply (L1 (f', s') Hin).
  - apply Qle_bool_false in E. intros f s Hin.
    pose proof (L1 (f, s) Hin) as L. simpl in L. lra.
Qed.

Section SubstringConfidence.

Variable seq_ratio : str -> str -> Q.
Variable jaro_winkler_similarity : str -> str -> Q.
Variable levenshtein_distance : str -> str -> nat.
Variables fuzz_ratio fuzz_partial fuzz_token_sort fuzz_token_set
  : str -> str -> nat.

Local Abbreviation match_fabric' :=
  (match_fabric seq_ratio jaro_winkler_similarity levenshtein_distance
                fuzz_ratio fuzz_partial fuzz_token_sort fuzz_token_set).

Lemma substring_result (ix : index) (parsed : ParsedFabric) (r : MatchResult) :
  match_fabric' ix parsed = Ok r ->
  match_algorithm r = "SUBSTRING_MATCH"%string ->
  substring_match ix (FabricMatcher.material_name parsed) =
  Ok (Some (database_fabric r, match_score r)) /\
  confidence_level r =
  (if Qle_bool 85 (match_score r) then "HIGH" else "MEDIUM")%string.
Proof.
  unfold match_fabric. intros H A.
  destruct (exact_match ix _) as [b|].
  { apply create_fields in H. destruct H as (_ & _ & A' & _).
    rewrite A in A'. discriminate. }
  destruct (prefix_based_match ix _) as [[b|]|e]; cbn [bind] in H;
    [| |discriminate].
  { apply create_fields in H. destruct H as (_ & _ & A' & _).
    rewrite A in A'. discriminate. }
  destruct (substring_match ix _) as [[b|]|e]; cbn [bind] in H;
    [| |discriminate].
  { apply create_fields in H. destruct H as (D & S & _ & C).
    rewrite D, S, C. unfold fabric_of, score_of, high_or_medium.
    destruct b. split; reflexivity. }
  destruct (fuzzy_match _ _ _ _ _ _ _ ix _) as [[b|]|e]; cbn [bind] in H;
    [| |discriminate].
  { apply create_fields in H. destruct H as (_ & _ & A' & _).
    rewrite A in A'. discriminate. }
  destruct (semantic_match ix _) as [[b|]|e]; cbn [bind] in H;
    [| |discriminate].
  { apply create_fields in H. destruct H as (_ & _ & A' & _).
    rewrite A in A'. discriminate. }
  apply create_fields in H. destruct H as (_ & _ & A' & _).
  rewrite A in A'. discriminate.
Qed.

(** C7: on the index of a catalogue, the substring strategy gives every
    catalogue name the containment score [min(95, 80 + coverage * 20)]
    when the normalised parsed name is contained in it or contains it, and
    the token score [overlap / union * 90] when the overlap with the
    catalogue tokens less the stop tokens is not zero, and no other score;
    it returns the candidate of the greatest score if that score is at
    least 60 and nothing otherwise; a result of [match_fabric] by this
    strategy has confidence HIGH if its score is at least 85 and MEDIUM
    otherwise. *)
Theorem C7_substring_strategy (fabrics : list DatabaseFabric) (name : str) :
  (exists outcome,
      substring_match (_build_index fabrics) name = Ok outcome /\
      match outcome with
      | None =>
          forall f s,
            In (f, s) (substring_candidates (_build_index fabrics) name) ->
            (s < 60)%Q
      | Some (chosen, s) =>
          (60 <= s)%Q /\
          (exists f, chosen = Some f /\
                     In (f, s) (substring_candidates (_build_index fabrics) name)) /\
          (forall f' s',
              In (f', s') (substring_candidates (_build_index fabrics) name) ->
              (s' <= s)%Q)
      end) /\
  (forall parsed r,
      FabricMatcher.material_name parsed = name ->
      match_fabric' (_build_index fabrics) parsed = Ok r ->
      match_algorithm r = "SUBSTRING_MATCH"%string ->
      substring_match (_build_index fabrics) name =
      Ok (Some (database_fabric r, match_score r)) /\
      confidence_level r =
      (if Qle_bool 85 (match_score r) then "HIGH" else "MEDIUM")%string).
Proof.
  split.
  - apply substring_match_spec. apply well_keyed_build.
  - intros parsed r <- M A. now apply substring_result.
Qed.

End SubstringConfidence.

(** Of several candidates with the greatest score, the substring strategy
    returns the first in index order. *)
Theorem substring_tie_goes_to_first (fabrics : list DatabaseFabric) (name : str)
  (f : DatabaseFabric) (s : Q) :
  substring_match (_build_index fabrics) name = Ok (Some (Some f, s)) ->
  exists l1 l2,
    substring_candidates (_build_index fabrics) name = l1 ++ (f, s) :: l2 /\
    (forall c, In c l1 -> (snd c < s)%Q) /\
    (forall c, In c l2 -> (snd c <= s)%Q).
Proof.
  rewrite substring_match_candidates, substring_candidates_spec
    by apply well_keyed_build.
  cbn [bind]. intro H. injection H as H. apply above_some in H.
  destruct H as [H L].
  destruct (fold_keep_first (substring_candidates (_build_index fabrics) name)
                            best0)
    as [[R _]|(l1 & c & l2 & E & R & _ & A1 & A2)].
  - rewrite R in H. discriminate.
  - rewrite R in H. injection H as Hf Hs. destruct c as [cf cs].
    simpl in *. subst. exists l1, l2. auto.
Qed.

(** The red and the tan silk tie for the name silk, and the red one,
    first in the catalogue, is returned. *)
Lemma substring_tie_goes_to_first_witness :
  exists s l1 l2,
    substring_candidates (_build_index [red_silk; tan_silk]) (py "silk") =
    l1 ++ (red_silk, s) :: l2 /\
    (forall c, In c l1 -> (snd c < s)%Q) /\
    (forall c, In c l2 -> (snd c <= s)%Q).
Proof.
  eexists.
  apply (@substring_tie_goes_to_first [red_silk; tan_silk] (py "silk") red_silk).
  vm_compute. reflexivity.
Defined.

Example substring_tie_example :
  exists s,
    substring_match (_build_index [red_silk; tan_silk]) (py "silk") =
    Ok (Some (Some red_silk, s)) /\
    substring_match (_build_index [tan_silk; red_silk]) (py "silk") =
    Ok (Some (Some tan_silk, s)) /\ (s == 90)%Q.
Proof.
  eexists. split; [vm_compute; reflexivity|].
  split; vm_compute; reflexivity.
Qed.

(** ** The normaliser *)

(** C3 does not hold of the code: [normalize_string] strips the white
    space before it removes the hyphens at the two ends, so the name
    ROYAL - normalises to the word royal followed by a space, and
    normalising that again removes the space; the sibling cleaner
    [_clean_sarom_fabric_name] strips once more after the hyphens and
    returns the bare word. *)
Lemma C3_normalize_twice_differs :
  normalize_string (py "ROYAL -") = py "royal " /\
  normalize_string (normalize_string (py "ROYAL -")) = py "royal" /\
  Parser._clean_sarom_fabric_name (py "ROYAL -") = py "ROYAL".
Proof. repeat split; vm_compute; reflexivity. Qed.

Example normalize_catalogue_name :
  normalize_string (py "A - NEW ROYAL FABRIC 5% (12)") = py "a - new royal fabric".
Proof. vm_compute. reflexivity. Qed.

Example normalize_keeps_inner_hyphen :
  normalize_string (py "KEIBA -912") = py "keiba -912".
Proof. vm_compute. reflexivity. Qed.

Example normalize_empty : normalize_string [] = [] /\ tokenize_string [] = [].
Proof. split; reflexivity. Qed.

Example tokenize_drops_short_tokens :
  tokenize_string (py "A - NEW ROYAL FABRIC") = [py "new"; py "royal"; py "fabric"].
Proof. vm_compute. reflexivity. Qed.

(** ** The regular-expression matcher *)

Lemma reach_refl (P : ascii -> Prop) (s : st) : reach P s s.
Proof. exists []. simpl. auto. Qed.

Lemma reach_trans (P : ascii -> Prop) (s1 s2 s3 : st) :
  reach P s1 s2 -> reach P s2 s3 -> reach P s1 s3.
Proof.
  intros (w1 & A1 & B1 & C1) (w2 & A2 & B2 & C2).
  exists (w1 ++ w2). repeat split.
  - rewrite A2, A1, rev_app_distr, app_assoc. reflexivity.
  - rewrite B1, B2, app_assoc. reflexivity.
  - apply Forall_app. auto.
Qed.

Lemma reach_shorter (P : ascii -> Prop) (s s' : st) :
  reach P s s' -> length (rest s') <= length (rest s).
Proof. intros (w & _ & B & _). rewrite B, length_app. lia. Qed.

Lemma eat_reach (P : ascii -> Prop) (p : ascii -> bool) :
  (forall x, p x = true -> P x) -> steps P (eat p).
Proof.
  intros H s s'. unfold eat. destruct s as [pr [|c r'] cp]; simpl; [tauto|].
  destruct (p c) eqn:E; simpl; [|tauto].
  intros [<-|[]]. exists [c]. simpl. repeat split. constructor; auto.
Qed.

Lemma guard_reach (P : ascii -> Prop) (b : bool) (s s' : st) :
  In s' (guard b s) -> reach P s s'.
Proof. destruct b; simpl; [intros [<-|[]]; apply reach_refl | tauto]. Qed.

Lemma flat_map_reach (P : ascii -> Prop) (f g : st -> list st) :
  steps P f -> steps P g -> steps P (fun s => flat_map g (f s)).
Proof.
  intros Hf Hg s s' H. apply in_flat_map in H. destruct H as (s1 & H1 & H2).
  eapply reach_trans; eauto.
Qed.

Lemma iter_reach (P : ascii -> Prop) (f : st -> list st) (n : nat) :
  steps P f -> steps P (iter n f).
Proof.
  intro Hf. induction n as [|n IH]; intros s s'; simpl.
  - intros [<-|[]]. apply reach_refl.
  - rewrite in_app_iff. intros [H|[<-|[]]]; [|apply reach_refl].
    apply in_flat_map in H. destruct H as (s1 & H1 & H2).
    destruct (length (rest s1) <? length (rest s)); [|destruct H2].
    eapply reach_trans; [apply Hf, H1 | apply IH, H2].
Qed.

Lemma star_of_reach (P : ascii -> Prop) (f : st -> list st) :
  steps P f -> steps P (star_of f).
Proof. intros Hf s s'. unfold star_of. now apply iter_reach. Qed.

Lemma exactly_reach (P : ascii -> Prop) (f : st -> list st) (k : nat) :
  steps P f -> steps P (exactly k f).
Proof.
  intro Hf. induction k as [|k IH]; intros s s'; simpl.
  - intros [<-|[]]. apply reach_refl.
  - intro H. apply in_flat_map in H. destruct H as (s1 & H1 & H2).
    eapply reach_trans; [apply Hf, H1 | apply IH, H2].
Qed.

Lemma upto_reach (P : ascii -> Prop) (f : st -> list st) (k : nat) :
  steps P f -> steps P (upto k f).
Proof.
  intro Hf. induction k as [|k IH]; intros s s'; simpl.
  - intros [<-|[]]. apply reach_refl.
  - rewrite in_app_iff. intros [H|[<-|[]]]; [|apply reach_refl].
    apply in_flat_map in H. destruct H as (s1 & H1 & H2).
    eapply reach_trans; [apply Hf, H1 | apply IH, H2].
Qed.

(** A match of [r] consumes only characters that [r] accepts. *)
Lemma run_reach (ic : bool) (P : ascii -> Prop) (r : re) :
  only ic P r -> steps P (run ic r).
Proof.
  induction r as [| c | l | l | r1 IH1 r2 IH2 | r1 IH1 r2 IH2 | r IH
                  | r IH lo hi | n r IH | | |]; simpl; intro O.
  - intros s s' [<-|[]]. apply reach_refl.
  - now apply eat_reach.
  - now apply eat_reach.
  - apply eat_reach. intros x H. apply O. now apply negb_true_iff.
  - destruct O as [O1 O2]. apply (flat_map_reach (IH1 O1) (IH2 O2)).
  - destruct O as [O1 O2]. intros s s' H. apply in_app_iff in H.
    destruct H; [now apply IH1 | now apply IH2].
  - apply star_of_reach. auto.
  - destruct hi as [hi|].
    + apply (flat_map_reach (f := exactly lo (run ic r))).
      * apply exactly_reach. auto.
      * apply upto_reach. auto.
    + apply (flat_map_reach (f := exactly lo (run ic r))).
      * apply exactly_reach. auto.
      * apply star_of_reach. auto.
  - intros s s' H. apply in_map_iff in H. destruct H as (s1 & <- & H).
    destruct (IH O s s1 H) as (w & A & B & C). exists w. simpl. auto.
  - intros s s'. apply guard_reach.
  - intros s s'. apply guard_reach.
  - intros s s'. apply guard_reach.
Qed.

Lemma only_trivial (ic : bool) (r : re) : only ic (fun _ => True) r.
Proof. induction r; simpl; auto. Qed.

Lemma run_text (ic : bool) (r : re) (s s' : st) :
  In s' (run ic r s) -> reach (fun _ => True) s s'.
Proof. apply run_reach, only_trivial. Qed.

Lemma flat_map_keeps (f g : st -> list st) :
  keeps f -> keeps g -> keeps (fun s => flat_map g (f s)).
Proof.
  intros Hf Hg s s' H. apply in_flat_map in H. destruct H as (s1 & H1 & H2).
  rewrite (Hg _ _ H2). now apply Hf.
Qed.

Lemma iter_keeps (f : st -> list st) (n : nat) : keeps f -> keeps (iter n f).
Proof.
  intro Hf. induction n as [|n IH]; intros s s'; simpl.
  - intros [<-|[]]. reflexivity.
  - rewrite in_app_iff. intros [H|[<-|[]]]; [|reflexivity].
    apply in_flat_map in H. destruct H as (s1 & H1 & H2).
    destruct (length (rest s1) <? length (rest s)); [|destruct H2].
    rewrite (IH _ _ H2). now apply Hf.
Qed.

Lemma exactly_keeps (f : st -> list st) (k : nat) :
  keeps f -> keeps (exactly k f).
Proof.
  intro Hf. induction k as [|k IH]; intros s s'; simpl.
  - intros [<-|[]]. reflexivity.
  - intro H. apply in_flat_map in H. destruct H as (s1 & H1 & H2).
    rewrite (IH _ _ H2). now apply Hf.
Qed.

Lemma upto_keeps (f : st -> list st) (k : nat) : keeps f -> keeps (upto k f).
Proof.
  intro Hf. induction k as [|k IH]; intros s s'; simpl.
  - intros [<-|[]]. reflexivity.
  - rewrite in_app_iff. intros [H|[<-|[]]]; [|reflexivity].
    apply in_flat_map in H. destruct H as (s1 & H1 & H2).
    rewrite (IH _ _ H2). now apply Hf.
Qed.

Lemma eat_keeps (p : ascii -> bool) : keeps (eat p).
Proof.
  intros s s'. unfold eat. destruct s as [pr [|c r'] cp]; simpl; [tauto|].
  destruct (p c); simpl; [|tauto]. intros [<-|[]]. reflexivity.
Qed.

Lemma guard_keeps (b : bool) (s s' : st) : In s' (guard b s) -> caps s' = caps s.
Proof. destruct b; simpl; [intros [<-|[]]; reflexivity | tauto]. Qed.

(** A pattern without groups captures nothing. *)
Lemma run_nogroup (ic : bool) (r : re) : nogroup r = true -> keeps (run ic r).
Proof.
  induction r as [| c | l | l | r1 IH1 r2 IH2 | r1 IH1 r2 IH2 | r IH
                  | r IH lo hi | n r IH | | |]; simpl; intro G.
  - intros s s' [<-|[]]. reflexivity.
  - apply eat_keeps.
  - apply eat_keeps.
  - apply eat_keeps.
  - apply andb_true_iff in G. destruct G as [G1 G2].
    apply (flat_map_keeps (IH1 G1) (IH2 G2)).
  - apply andb_true_iff in G. destruct G as [G1 G2].
    intros s s' H. apply in_app_iff in H.
    destruct H; [now apply IH1 | now apply IH2].
  - intros s s'. apply iter_keeps. auto.
  - destruct hi as [hi|].
    + apply (flat_map_keeps (f := exactly lo (run ic r))).
      * apply exactly_keeps. auto.
      * apply upto_keeps. auto.
    + apply (flat_map_keeps (f := exactly lo (run ic r))).
      * apply exactly_keeps. auto.
      * intros s s'. apply iter_keeps. auto.
  - discriminate.
  - intros s s'. apply guard_keeps.
  - intros s s'. apply guard_keeps.
  - intros s s'. apply guard_keeps.
Qed.

Lemma consumed_text (s s' : st) (w : str) :
  rest s = w ++ rest s' -> consumed s s' = w.
Proof.
  intro H. unfold consumed. rewrite H, length_app.
  replace (length w + length (rest s') - length (rest s')) with (length w) by lia.
  rewrite firstn_app, firstn_all, Nat.sub_diag. simpl. apply app_nil_r.
Qed.

(** A group without inner groups records the text its body consumed. *)
Lemma run_group (ic : bool) (P : ascii -> Prop) (n : nat) (r : re) (s s' : st) :
  nogroup r = true -> only ic P r -> In s' (run ic (Grp n r) s) ->
  exists w s1,
    In s1 (run ic r s) /\ pre s' = pre s1 /\ rest s' = rest s1 /\
    rest s = w ++ rest s' /\ pre s' = rev w ++ pre s /\ Forall P w /\
    caps s' = (n, w) :: caps s.
Proof.
  intros G O H. simpl in H. apply in_map_iff in H. destruct H as (s1 & <- & H).
  destruct (@run_reach ic P r O s s1 H) as (w & A & B & C).
  exists w, s1. simpl. repeat split; auto.
  rewrite (@consumed_text s s1 w B), (@run_nogroup ic r G s s1 H). reflexivity.
Qed.

(** [re.search] returns a match of the pattern at some position of the
    text, and none matches before. *)
Lemma search_from_spec (ic : bool) (r : re) (t p : str) (m : mobj) :
  search_from ic r p t = Some m ->
  exists a b,
    t = a ++ b /\ m_before m = rev a ++ p /\
    match_here ic r (rev a ++ p) b = Some m.
Proof.
  revert p. induction t as [|c t IH]; intro p; simpl.
  - destruct (match_here ic r p []) as [m'|] eqn:E; [|discriminate].
    intro H. inversion H; subst m'. exists [], []. simpl. repeat split; auto.
    unfold match_here in E. destruct (run ic r _); inversion E. reflexivity.
  - destruct (match_here ic r p (c :: t)) as [m'|] eqn:E.
    + intro H. inversion H; subst m'. exists [], (c :: t). simpl.
      repeat split; auto.
      unfold match_here in E. destruct (run ic r _); inversion E. reflexivity.
    + intro H. destruct (IH _ H) as (a & b & T & B & M).
      exists (c :: a), b. simpl. rewrite <- app_assoc. simpl.
      repeat split; auto. now rewrite T.
Qed.

Lemma match_here_run (ic : bool) (r : re) (p t : str) (m : mobj) :
  match_here ic r p t = Some m ->
  m_before m = p /\ In (m_end m) (run ic r (mkst p t [])).
Proof.
  unfold match_here. destruct (run ic r _) as [|s l]; [discriminate|].
  intro H. inversion H. simpl. auto.
Qed.

Lemma search_run (ic : bool) (r : re) (s : str) (m : mobj) :
  re_search ic r s = Some m ->
  exists p t, In (m_end m) (run ic r (mkst p t [])).
Proof.
  intro H. apply search_from_spec in H. destruct H as (a & b & _ & _ & M).
  apply match_here_run in M. destruct M as [_ M]. eauto.
Qed.

(** ** Numerals *)

Ltac each_char x :=
  destruct x as [[] [] [] [] [] [] [] []]; try discriminate; try reflexivity.

Lemma digit_class (ic : bool) (x : ascii) :
  cls_match ic Dig x = true -> is_digit x = true.
Proof. destruct ic; each_char x. Qed.

Lemma point_class (ic : bool) (x : ascii) :
  cls_match ic (Ch ".") x = true -> x = "."%char.
Proof. destruct ic; each_char x. Qed.

Lemma digit_not_point (x : ascii) : is_digit x = true -> eqc x "." = false.
Proof. each_char x. Qed.

Lemma digit_not_comma (x : ascii) : is_digit x = true -> eqc x "," = false.
Proof. each_char x. Qed.

Lemma digits_forallb (w : str) :
  Forall (fun c => is_digit c = true) w <-> forallb is_digit w = true.
Proof. rewrite forallb_forall, Forall_forall. reflexivity. Qed.

Lemma only_digits (ic : bool) : only ic (fun c => is_digit c = true) (Plus d).
Proof.
  simpl. intros x H. unfold set_match in H. simpl in H.
  rewrite orb_false_r in H. now apply (digit_class ic).
Qed.

Lemma eat_inv (p : ascii -> bool) (s s' : st) :
  In s' (eat p s) ->
  exists c, p c = true /\ rest s = c :: rest s' /\ pre s' = c :: pre s /\
            caps s' = caps s.
Proof.
  unfold eat. destruct s as [pr [|c r'] cp]; simpl; [tauto|].
  destruct (p c) eqn:E; simpl; [|tauto].
  intros [<-|[]]. exists c. simpl. auto.
Qed.

Lemma digit_set (ic : bool) (x : ascii) :
  set_match ic [Dig] x = true -> is_digit x = true.
Proof.
  unfold set_match. simpl. rewrite orb_false_r. apply digit_class.
Qed.

(** [\d+] consumes at least one character, and only digits. *)
Lemma plus_digits (ic : bool) (s s' : st) :
  In s' (run ic (Plus d) s) ->
  exists a, a <> [] /\ forallb is_digit a = true /\
            rest s = a ++ rest s' /\ caps s' = caps s.
Proof.
  intro H. pose proof (@run_nogroup ic (Plus d) eq_refl s s' H) as K.
  unfold Plus in H. simpl in H. apply in_flat_map in H.
  destruct H as (s1 & H1 & H2). apply in_flat_map in H1.
  destruct H1 as (s2 & H1 & [<-|[]]).
  apply eat_inv in H1. destruct H1 as (c & Dc & Rc & _).
  assert (S : steps (fun c => is_digit c = true) (run ic d)).
  { apply run_reach. simpl. apply digit_set. }
  destruct (@star_of_reach _ _ S s2 s' H2) as (w & _ & B & C).
  exists (c :: w). repeat split.
  - discriminate.
  - simpl. rewrite (digit_set ic c Dc). now apply digits_forallb.
  - rewrite Rc, B. reflexivity.
  - exact K.
Qed.

(** [(\d+(?:\.\d+)?)] captures a numeral. *)
Lemma num_decimal (ic : bool) (n : nat) (s s' : st) :
  In s' (run ic (Parser.num n) s) ->
  exists w, decimal w /\ rest s = w ++ rest s' /\ caps s' = (n, w) :: caps s.
Proof.
  intro H. unfold Parser.num in H.
  destruct (@run_group ic (fun _ => True) n
              (Cat (Plus d) (Opt (Cat (Lit ".") (Plus d)))) s s' eq_refl
              (only_trivial ic _) H)
    as (w & s1 & H1 & _ & R1 & B & _ & _ & K).
  exists w. split; [|auto].
  rewrite R1 in B. clear H K R1 s'.
  simpl in H1. apply in_flat_map in H1. destruct H1 as (s2 & H2 & H3).
  apply (plus_digits ic) in H2. destruct H2 as (a & Na & Da & Ra & _).
  rewrite app_nil_r in H3. apply in_app_iff in H3.
  destruct H3 as [H3|[<-|[]]].
  - apply in_flat_map in H3. destruct H3 as (s3 & H3 & [<-|[]]).
    apply in_flat_map in H3. destruct H3 as (s4 & H4 & H5).
    apply eat_inv in H4. destruct H4 as (c & Pc & Rc & _).
    apply point_class in Pc. subst c.
    apply (plus_digits ic) in H5. destruct H5 as (b & Nb & Db & Rb & _).
    exists a, b. repeat split; auto. right. split; [exact Nb|].
    rewrite Ra, Rc, Rb in B.
    apply (app_inv_tail (rest s3)). rewrite <- B, <- app_assoc. reflexivity.
  - exists a, []. repeat split; auto. left.
    apply (app_inv_tail (rest s2)). rewrite <- B. exact Ra.
Qed.

(** ** [float] on numerals *)

Lemma digits_val_nonneg (l : str) (acc : Z) :
  (0 <= acc)%Z ->
  (0 <= fold_left (fun a c => (a * 10 + Parser.digit_val c)%Z) l acc)%Z.
Proof.
  revert acc. induction l as [|c l IH]; simpl; intros acc H; [exact H|].
  apply IH. unfold Parser.digit_val. lia.
Qed.

Lemma unsigned_float_nonneg (s : str) (q : Q) :
  Parser.unsigned_float s = Some q -> (0 <= q)%Q.
Proof.
  unfold Parser.unsigned_float. destruct (Parser.until_point [] s) as [i f].
  destruct (_ && _); [|discriminate]. intro H. inversion H.
  unfold Qle. simpl. rewrite Z.mul_1_r.
  apply digits_val_nonneg. lia.
Qed.

(** A converted text that does not start with the minus sign is not
    negative. *)
Lemma float_nonneg (s : str) (q : Q) :
  Parser.float s = Ok q -> (forall s', s <> "-"%char :: s') -> (0 <= q)%Q.
Proof.
  unfold Parser.float. intros H N.
  assert (U : forall u, match u with Some q => Ok q | None => Raise ValueError end
                        = Ok q -> u = Some q).
  { intros [u|]; [congruence | discriminate]. }
  destruct s as [|c s]; [apply U in H; now apply unsigned_float_nonneg in H|].
  destruct c as [[] [] [] [] [] [] [] []];
    try (apply U in H; now apply unsigned_float_nonneg in H).
  exfalso. apply (N s). reflexivity.
Qed.

Lemma until_point_digits (a cur tl : str) :
  forallb is_digit a = true ->
  Parser.until_point cur (a ++ tl) = Parser.until_point (rev a ++ cur) tl.
Proof.
  revert cur. induction a as [|c a IH]; intros cur H; simpl; [reflexivity|].
  simpl in H. apply andb_true_iff in H. destruct H as [Hc Ha].
  rewrite (digit_not_point c Hc), IH by exact Ha.
  rewrite <- app_assoc. reflexivity.
Qed.

Lemma float_digit_head (c : ascii) (s : str) :
  is_digit c = true ->
  Parser.float (c :: s) =
  match Parser.unsigned_float (c :: s) with
  | Some q => Ok q
  | None => Raise ValueError
  end.
Proof. unfold Parser.float. each_char c. Qed.

(** [float] converts every numeral, to a number that is not negative. *)
Lemma float_decimal (w : str) :
  decimal w -> exists q, Parser.float w = Ok q /\ (0 <= q)%Q.
Proof.
  intros (a & b & Na & Da & Db & W).
  assert (U : exists q, Parser.unsigned_float w = Some q).
  { unfold Parser.unsigned_float. destruct W as [->|[Nb ->]].
    - pose proof (until_point_digits a [] [] Da) as T.
      rewrite !app_nil_r in T. rewrite T. simpl.
      rewrite rev_involutive, app_nil_r, Da. simpl.
      destruct a; [congruence | simpl; eauto].
    - rewrite (until_point_digits a [] _ Da). simpl.
      rewrite app_nil_r, rev_involutive, Da, Db. simpl.
      destruct a; [congruence | simpl; eauto]. }
  destruct U as [q U]. exists q.
  assert (F : Parser.float w = Ok q).
  { destruct a as [|c a]; [congruence|].
    simpl in Da. apply andb_true_iff in Da. destruct Da as [Dc _].
    assert (E : exists t, w = c :: t).
    { destruct W as [->|[_ ->]]; simpl; eauto. }
    destruct E as [t ->]. rewrite (float_digit_head c t Dc), U. reflexivity. }
  split; [exact F|]. now apply unsigned_float_nonneg in U.
Qed.

Lemma amount_set (ic : bool) (x : ascii) :
  set_match ic [Dig; Ch ","] x = true -> amount_char x.
Proof.
  unfold amount_char.
  destruct ic; destruct x as [[] [] [] [] [] [] [] []]; try discriminate;
    intros _; first [left; reflexivity | right; left; reflexivity].
Qed.

Lemma only_amount (ic : bool) :
  only ic amount_char
       (Cat (Plus (Any [Dig; Ch ","])) (Opt (Cat (Lit ".") (Plus d)))).
Proof.
  simpl. repeat split.
  - apply amount_set.
  - intros x H. right; right. now apply (point_class ic).
  - intros x H. left. now apply (digit_set ic).
Qed.

(** [([\d,]+(?:\.\d+)?)] captures digits, commas and points. *)
Lemma amt_chars (ic : bool) (n : nat) (s s' : st) :
  In s' (run ic (Parser.amt n) s) ->
  exists w, Forall amount_char w /\ caps s' = (n, w) :: caps s.
Proof.
  intro H. unfold Parser.amt in H.
  destruct (@run_group ic amount_char n
              (Cat (Plus (Any [Dig; Ch ","])) (Opt (Cat (Lit ".") (Plus d))))
              s s' eq_refl (only_amount ic) H)
    as (w & s1 & _ & _ & _ & _ & _ & F & K).
  eauto.
Qed.

Lemma float_amount_nonneg (w : str) (q : Q) :
  Forall amount_char w ->
  Parser.float (remove_char "," w) = Ok q -> (0 <= q)%Q.
Proof.
  intros F H. apply (@float_nonneg _ _ H). intros s' E.
  assert (I : In "-"%char (remove_char "," w)) by (rewrite E; now left).
  unfold remove_char in I. apply filter_In in I. destruct I as [I _].
  rewrite Forall_forall in F. destruct (F _ I) as [D|[D|D]]; discriminate.
Qed.

(** ** The generic parser *)

Lemma for_each_invariant {A S : Type} (Inv : S -> Prop)
  (body : S -> A -> result S) (l : list A) (s : S) :
  Inv s ->
  (forall s x, Inv s -> exists s', body s x = Ok s' /\ Inv s') ->
  exists s', for_each body l s = Ok s' /\ Inv s'.
Proof.
  intros I B. revert s I. induction l as [|x l IH]; intros s I; simpl.
  - eauto.
  - destruct (B s x I) as (s1 & E & I1). rewrite E. simpl. now apply IH.
Qed.

Lemma run_cat (ic : bool) (a b : re) (s : st) :
  run ic (Cat a b) s = flat_map (run ic b) (run ic a s).
Proof. reflexivity. Qed.

Lemma search_num_group (ic : bool) (line : str) (m : mobj) :
  re_search ic (Parser.num 1) line = Some m ->
  exists w, decimal w /\ Parser.group_or_empty 1 m = w.
Proof.
  intro H. apply search_run in H. destruct H as (p & t & H).
  apply num_decimal in H. destruct H as (w & D & _ & K).
  exists w. split; [exact D|].
  unfold Parser.group_or_empty, group. rewrite K. reflexivity.
Qed.

Lemma search_rate_group (line : str) (m : mobj) :
  re_search true Parser.rate_pattern line = Some m ->
  exists w, decimal w /\ Parser.group_or_empty 1 m = w.
Proof.
  intro H. apply search_run in H. destruct H as (p & t & H).
  assert (Hd : Parser.rate_pattern =
               Cat (Parser.num 1)
                   (seq [Parser.sws; alt [word "per"; Lit "/"]; Parser.sws;
                         alt [word "mtr"; word "meter"; word "pcs"]]))
    by reflexivity.
  rewrite Hd, run_cat in H. apply in_flat_map in H. destruct H as (s1 & H1 & H2).
  apply num_decimal in H1. destruct H1 as (w & D & _ & K).
  apply run_nogroup in H2; [|reflexivity].
  exists w. split; [exact D|].
  unfold Parser.group_or_empty, group. rewrite H2, K. reflexivity.
Qed.

Lemma search_amount_group (line : str) (m : mobj) :
  re_search false Parser.amount_pattern line = Some m ->
  exists w, Forall amount_char w /\ Parser.group_or_empty 1 m = w.
Proof.
  intro H. apply search_run in H. destruct H as (p & t & H).
  assert (Hd : Parser.amount_pattern =
               Cat (Opt (Any [])) (Cat Parser.sws (Parser.amt 1)))
    by reflexivity.
  rewrite Hd, !run_cat in H. apply in_flat_map in H.
  destruct H as (s1 & H1 & H2).
  apply in_flat_map in H2. destruct H2 as (s2 & H2 & H3).
  apply run_nogroup in H1; [|reflexivity].
  apply run_nogroup in H2; [|reflexivity].
  apply amt_chars in H3. destruct H3 as (w & F & K).
  exists w. split; [exact F|].
  unfold Parser.group_or_empty, group. rewrite K, H2, H1. reflexivity.
Qed.

Lemma not_negative_none : not_negative None.
Proof. intros q H. discriminate. Qed.

Lemma try_float_decimal (w : str) (old : option Q) :
  decimal w -> not_negative (Parser.try_float w old).
Proof.
  intros D q. destruct (@float_decimal w D) as (q' & F & N).
  unfold Parser.try_float. rewrite F. intro H. inversion H; subst. exact N.
Qed.

Lemma try_float_amount (w : str) (old : option Q) :
  Forall amount_char w -> not_negative old ->
  not_negative (Parser.try_float (remove_char "," w) old).
Proof.
  intros F O q. unfold Parser.try_float.
  destruct (Parser.float (remove_char "," w)) as [q'|e] eqn:E.
  - intro H. inversion H; subst. apply (@float_amount_nonneg w _ F E).
  - apply O.
Qed.

Lemma context_step_not_negative (ra : option Q * option Q) (line : str) :
  not_negative (fst ra) /\ not_negative (snd ra) ->
  not_negative (fst (Parser.context_step ra line)) /\
  not_negative (snd (Parser.context_step ra line)).
Proof.
  destruct ra as [rate amount]. simpl. intros [R A].
  unfold Parser.context_step. split; simpl.
  - destruct (some_truthy rate); [exact R|].
    destruct (re_search true Parser.rate_pattern _) as [m|] eqn:E; [|exact R].
    destruct (nonempty_str _); [|exact R].
    destruct (@search_rate_group _ _ E) as (w & D & ->).
    now apply try_float_decimal.
  - destruct (some_truthy amount); [exact A|].
    destruct (re_search false Parser.amount_pattern _) as [m|] eqn:E; [|exact A].
    destruct (nonempty_str _); [|exact A].
    destruct (@search_amount_group _ _ E) as (w & F & ->).
    now apply try_float_amount.
Qed.

Lemma find_rate_amount_not_negative (lines : list str) (i : nat) :
  not_negative (fst (Parser._find_rate_amount_in_context lines i)) /\
  not_negative (snd (Parser._find_rate_amount_in_context lines i)).
Proof.
  unfold Parser._find_rate_amount_in_context.
  assert (G : forall l ra,
             not_negative (fst ra) /\ not_negative (snd ra) ->
             not_negative (fst (fold_left Parser.context_step l ra)) /\
             not_negative (snd (fold_left Parser.context_step l ra))).
  { induction l as [|x l IH]; intros ra H; simpl; [exact H|].
    apply IH. now apply context_step_not_negative. }
  apply G. simpl. split; apply not_negative_none.
Qed.

(** The extraction never raises, and what it extracts is not negative. *)
Lemma extract_fabric_ok (line : str) (lines : list str) (i : nat) :
  exists name qty rate amount,
    Parser._extract_fabric_from_line line lines i = Ok (name, qty, rate, amount) /\
    not_negative qty /\ not_negative rate /\ not_negative amount.
Proof.
  unfold Parser._extract_fabric_from_line.
  destruct (find_rate_amount_not_negative lines i) as [R A].
  destruct (Parser._find_rate_amount_in_context lines i) as [rate amount].
  simpl in R, A.
  destruct (re_search false (Parser.num 1) line) as [m|] eqn:E.
  - destruct (@search_num_group _ _ _ E) as (w & D & ->).
    destruct (@float_decimal w D) as (q & F & N). rewrite F. simpl.
    do 4 eexists. split; [reflexivity|]. repeat split; auto.
    intros q' H. inversion H; subst. exact N.
  - simpl. do 4 eexists. split; [reflexivity|]. repeat split; auto.
    apply not_negative_none.
Qed.

Lemma truthy_positive (x : option Q) :
  some_truthy x = true -> not_negative x -> positive x.
Proof.
  destruct x as [q|]; simpl; [|discriminate].
  intros T N. exists q. split; [reflexivity|].
  apply truthy_true in T. pose proof (N q eq_refl) as L.
  apply Qle_lt_or_eq in L. destruct L as [L|L]; [exact L|].
  exfalso. apply T. symmetry. exact L.
Qed.

(** One line of the text adds nothing, or one complete item. *)
Lemma generic_line_complete (lines : list str)
  (fabric_details : list Parser.InvoiceLine) (il : nat * str) :
  exists details,
    Parser.generic_line lines fabric_details il = Ok details /\
    (details = fabric_details \/
     exists item, details = fabric_details ++ [item] /\ complete_item item).
Proof.
  unfold Parser.generic_line. destruct il as [i line].
  destruct (length (strip line) <? 10); [eauto|].
  destruct (_ && _); [|eauto].
  destruct (extract_fabric_ok (strip line) lines i)
    as (name & qty & rate & amount & E & Nq & Nr & Na).
  rewrite E. cbn [bind].
  destruct name as [name|]; [|eauto].
  destruct (nonempty_str name && some_truthy qty && some_truthy rate
            && some_truthy amount) eqn:T; [|eauto].
  destruct (nonempty_str (Parser._clean_fabric_name name)) eqn:C; [|eauto].
  apply andb_true_iff in T. destruct T as [T Ta].
  apply andb_true_iff in T. destruct T as [T Tr].
  apply andb_true_iff in T. destruct T as [_ Tq].
  eexists. split; [reflexivity|]. right. eexists. split; [reflexivity|].
  unfold complete_item. simpl.
  split; [now apply nonempty_str_true|].
  repeat split; now apply truthy_positive.
Qed.

(** C10: the generic parser never raises, and every item it returns has
    a name that is not empty and a quantity, a rate and an amount that
    are present and strictly positive; a line of the text contributes
    nothing or one such item. *)
Theorem C10_generic_items_complete (text : str) :
  (exists items,
      Parser._parse_generic_format text = Ok items /\
      Forall complete_item items) /\
  (forall lines fabric_details il details,
      Parser.generic_line lines fabric_details il = Ok details ->
      details = fabric_details \/
      exists item, details = fabric_details ++ [item] /\ complete_item item).
Proof.
  split.
  - unfold Parser._parse_generic_format. cbv zeta.
    apply (for_each_invariant (Forall complete_item)); [constructor|].
    intros s x I.
    destruct (generic_line_complete (split_char "010" text) s x)
      as (details & E & [->|(item & -> & C)]).
    + eauto.
    + eexists. split; [exact E|]. apply Forall_app. split; [exact I|].
      constructor; [exact C | constructor].
  - intros lines fabric_details il details H.
    destruct (generic_line_complete lines fabric_details il) as (d' & E & D).
    rewrite E in H. inversion H; subst. exact D.
Qed.

(** *** A text without digits *)

Lemma search_digits_none (p t : str) :
  Forall (fun c => is_digit c = false) t ->
  search_from false (Plus d) p t = None.
Proof.
  revert p. induction t as [|c t IH]; intros p F; simpl.
  - reflexivity.
  - inversion F as [|? ? Hc Ht]; subst.
    unfold match_here. simpl. unfold eat. simpl.
    unfold set_match, cls_match. simpl. rewrite Hc. simpl.
    now apply IH.
Qed.

Lemma lstrip_forall (P : ascii -> Prop) (s : str) :
  Forall P s -> Forall P (lstrip s).
Proof.
  induction s as [|c s IH]; simpl; intro F; [constructor|].
  inversion F; subst. destruct (is_space c); auto.
Qed.

Lemma strip_forall (P : ascii -> Prop) (s : str) :
  Forall P s -> Forall P (strip s).
Proof.
  intro F. unfold strip, rstrip.
  apply Forall_rev, lstrip_forall, Forall_rev, lstrip_forall, F.
Qed.

Lemma split_on_forall (P : ascii -> Prop) (sep : ascii) (s cur : str) :
  Forall P s -> Forall P cur -> Forall (Forall P) (split_on sep cur s).
Proof.
  revert cur. induction s as [|c s IH]; intros cur Fs Fc; simpl.
  - constructor; [now apply Forall_rev | constructor].
  - inversion Fs; subst. destruct (eqc c sep).
    + constructor; [now apply Forall_rev | now apply IH].
    + apply IH; [assumption | now constructor].
Qed.

Lemma no_digit_line_adds_nothing (lines : list str)
  (fabric_details : list Parser.InvoiceLine) (i : nat) (line : str) :
  Forall (fun c => is_digit c = false) line ->
  Parser.generic_line lines fabric_details (i, line) = Ok fabric_details.
Proof.
  intro F. unfold Parser.generic_line.
  destruct (length (strip line) <? 10); [reflexivity|].
  unfold re_search at 2.
  rewrite (@search_digits_none [] (strip line) (@strip_forall _ _ F)).
  simpl. rewrite andb_false_r. reflexivity.
Qed.

Lemma no_digit_lines_add_nothing (all ls : list str) (idx : list nat)
  (fabric_details : list Parser.InvoiceLine) :
  Forall (Forall (fun c => is_digit c = false)) ls ->
  for_each (Parser.generic_line all) (combine idx ls) fabric_details
  = Ok fabric_details.
Proof.
  intro L. revert idx.
  induction L as [|line ls Hl L IH]; intros [|i idx]; cbn [combine for_each];
    try reflexivity.
  rewrite (@no_digit_line_adds_nothing all fabric_details i line Hl).
  cbn [bind]. apply IH.
Qed.

(** A text without any digit yields no item: each of its lines is
    skipped by the generic parser. *)
Theorem no_digit_no_item (text : str) :
  Forall (fun c => is_digit c = false) text ->
  Parser._parse_generic_format text = Ok [].
Proof.
  intro F. unfold Parser._parse_generic_format, Parser.enumerate. cbv zeta.
  apply no_digit_lines_add_nothing.
  apply split_on_forall; [exact F | constructor].
Qed.

(** The text of letters only has no digit. *)
Lemma no_digit_no_item_witness :
  Parser._parse_generic_format (py "Cotton fabric, plain weave") = Ok [].
Proof.
  apply (@no_digit_no_item (py "Cotton fabric, plain weave")).
  repeat constructor.
Defined.

Example generic_line_example :
  Parser._parse_generic_format (py "Cotton fabric 12 pieces 45.5 per mtr") =
  Ok [Parser.mkLine (py "Cotton fabric") (Some 12%Q) (Some 12%Q) (Some 45.5%Q)].
Proof. vm_compute. reflexivity. Qed.

(** ** The Sarom layout *)

Lemma lstrip_head (s : str) (c : ascii) (t : str) :
  lstrip s = c :: t -> is_space c = false.
Proof.
  induction s as [|x s IH]; simpl; [discriminate|].
  destruct (is_space x) eqn:E; [exact IH|].
  intro H. inversion H; subst. exact E.
Qed.

Lemma lstrip_app (s z : str) :
  lstrip s <> [] -> lstrip (s ++ z) = lstrip s ++ z.
Proof.
  induction s as [|x s IH]; simpl; [congruence|].
  destruct (is_space x); [exact IH | reflexivity].
Qed.

Lemma lstrip_fixed (s : str) : lstrip (lstrip s) = lstrip s.
Proof.
  destruct (lstrip s) as [|c t] eqn:E; [reflexivity|].
  simpl. now rewrite (@lstrip_head s c t E).
Qed.

Lemma rstrip_app_end (x y : str) (c : ascii) (t : str) :
  rev y = c :: t -> is_space c = false -> rstrip (x ++ y) = x ++ y.
Proof.
  intros R S. unfold rstrip. rewrite rev_app_distr, R.
  cbn [app lstrip]. rewrite S.
  change (c :: t ++ rev x) with ((c :: t) ++ rev x).
  rewrite <- R, <- rev_app_distr. apply rev_involutive.
Qed.

Lemma rstrip_space (x : str) : rstrip (x ++ [" "%char]) = rstrip x.
Proof. unfold rstrip. rewrite rev_app_distr. reflexivity. Qed.

Lemma strip_before_space (name : str) :
  strip (lstrip name ++ [" "%char]) = strip name.
Proof.
  unfold strip. destruct (lstrip name) as [|c t] eqn:E; [reflexivity|].
  simpl. rewrite (@lstrip_head name c t E).
  apply (rstrip_space (c :: t)).
Qed.

Lemma strip_sarom_line (name : str) :
  lstrip name <> [] ->
  strip (sarom_line name) = (lstrip name ++ [" "%char]) ++ tabular.
Proof.
  intro N. unfold strip, sarom_line. rewrite (@lstrip_app name _ N).
  rewrite <- app_assoc. simpl.
  apply (@rstrip_app_end (lstrip name) (" "%char :: tabular) "0"%char
           (rev (removelast (" "%char :: tabular)))); reflexivity.
Qed.

Lemma split_on_absent (sep : ascii) (s cur : str) :
  ~ In sep s -> split_on sep cur s = [rev cur ++ s].
Proof.
  revert cur. induction s as [|c s IH]; intros cur N; simpl.
  - now rewrite app_nil_r.
  - destruct (eqc c sep) eqn:E.
    + exfalso. apply N. left. now apply Ascii.eqb_eq.
    + rewrite IH by (intro H; apply N; now right).
      simpl. rewrite <- app_assoc. reflexivity.
Qed.

Lemma app_same_length {A : Type} (a a' b b' : list A) :
  a ++ b = a' ++ b' -> length a = length a' -> a = a' /\ b = b'.
Proof.
  revert a'. induction a as [|x a IH]; intros [|y a'] E L; simpl in *;
    try discriminate; [auto|].
  inversion E; subst. destruct (IH a' H1) as [-> ->]; [lia | auto].
Qed.

Lemma clean_sarom_empty : Parser._clean_sarom_fabric_name [] = [].
Proof. reflexivity. Qed.

Lemma sarom_try_first (more : list re) (line : str) :
  Parser.sarom_try (Parser.sarom_first :: more) line =
  match re_search true Parser.sarom_first line with
  | Some m =>
      qty <- Parser.float (Parser.group_or_empty 1 m) ;;
      rate <- Parser.float (Parser.group_or_empty 2 m) ;;
      amount <- Parser.float (remove_char "," (Parser.group_or_empty 3 m)) ;;
      let name_part := strip (before m) in
      let clean_name := Parser._clean_sarom_fabric_name name_part in
      if nonempty_str name_part && (3 <=? length clean_name)
      then Ok (Some (Parser.mkLine clean_name (Some qty) (Some amount) (Some rate)))
      else Parser.sarom_try more line
  | None => Parser.sarom_try more line
  end.
Proof. reflexivity. Qed.

(** The match of the first pattern at the tabular part, whatever comes
    before it. *)
Lemma tabular_match (p : str) :
  match_here true Parser.sarom_first p tabular =
  Some (mkm p (mkst (rev tabular ++ p) []
                    [(3, py "2,988.00"); (2, py "720.00"); (1, py "4.15")])).
Proof. vm_compute. reflexivity. Qed.

(** C9, as the claim states it, fails: the name ABC 3 Mtr survives the
    cleaning with more than 3 characters, but the pattern already matches
    inside it and the item has quantity 3, rate 4.15 and amount 720. *)
Lemma C9_pattern_matches_inside_name :
  3 <= length (Parser._clean_sarom_fabric_name (strip (py "ABC 3 Mtr"))) /\
  Parser._parse_sarom_format (sarom_line (py "ABC 3 Mtr")) =
  Ok [Parser.mkLine (py "ABC") (Some 3%Q) (Some 720.00%Q) (Some 4.15%Q)].
Proof. split; [vm_compute; lia | vm_compute; reflexivity]. Qed.

(** C9 (amended): for a line [<name> 4.15 Mtr 720.00 Mtr 2,988.00] whose
    name has no line break and survives the cleaning with at least 3
    characters, and in which the first pattern finds its leftmost match
    at the tabular part (not already inside the name), the Sarom parser
    returns exactly one item, with quantity 4.15, rate 720.00 and amount
    2988.00 (the comma removed), the amount being quantity times rate
    within 0.01. *)
Theorem C9_sarom_line_item (name : str) :
  ~ In "010"%char name ->
  3 <= length (Parser._clean_sarom_fabric_name (strip name)) ->
  option_map start (re_search true Parser.sarom_first (strip (sarom_line name)))
  = Some (length (lstrip name) + 1) ->
  Parser._parse_sarom_format (sarom_line name) =
  Ok [Parser.mkLine (Parser._clean_sarom_fabric_name (strip name))
                    (Some 4.15%Q) (Some 2988.00%Q) (Some 720.00%Q)] /\
  (Qabs (2988.00 - 4.15 * 720.00) <= 0.01)%Q.
Proof.
  intros Hnl Hclean Hstart. split; [|vm_compute; discriminate].
  assert (Hs : strip name <> []).
  { intro E. rewrite E in Hclean. simpl in Hclean. lia. }
  assert (Hl : lstrip name <> []).
  { intro E. apply Hs. unfold strip. rewrite E. reflexivity. }
  unfold Parser._parse_sarom_format, split_char.
  rewrite split_on_absent.
  2:{ unfold sarom_line. rewrite in_app_iff. intros [H|H]; [contradiction|].
      vm_compute in H. intuition discriminate. }
  cbn [rev app for_each bind].
  rewrite (@strip_sarom_line name Hl) in *.
  assert (Hlen : (length ((lstrip name ++ [" "%char]) ++ tabular) <? 10) = false).
  { apply Nat.ltb_ge. rewrite length_app. unfold tabular. simpl. lia. }
  rewrite Hlen.
  unfold Parser.sarom_patterns. rewrite sarom_try_first.
  destruct (re_search true Parser.sarom_first _) as [m|] eqn:Em; [|discriminate].
  simpl in Hstart. injection Hstart as Hstart.
  apply search_from_spec in Em. destruct Em as (a & b & T & B & M).
  rewrite app_nil_r in B, M.
  assert (La : length a = length (lstrip name ++ [" "%char])).
  { unfold start in Hstart. rewrite B, length_rev in Hstart.
    rewrite length_app. simpl. exact Hstart. }
  destruct (@app_same_length _ _ _ _ _ (eq_sym T) La) as [-> ->].
  rewrite tabular_match in M. injection M as <-.
  unfold before. cbn [m_before m_end]. rewrite rev_involutive.
  rewrite strip_before_space.
  unfold Parser.group_or_empty, group. cbn [caps assoc Nat.eqb].
  change (Parser.float (py "4.15")) with (Ok 4.15%Q).
  change (Parser.float (py "720.00")) with (Ok 720.00%Q).
  change (Parser.float (remove_char "," (py "2,988.00"))) with (Ok 2988.00%Q).
  cbn [bind]. cbv zeta.
  apply nonempty_str_true in Hs. rewrite Hs.
  apply Nat.leb_le in Hclean. rewrite Hclean. reflexivity.
Qed.

(** The name CASSIA - 101 satisfies the hypotheses of
    [C9_sarom_line_item]. *)
Lemma C9_sarom_line_item_witness :
  Parser._parse_sarom_format (sarom_line (py "CASSIA - 101")) =
  Ok [Parser.mkLine (Parser._clean_sarom_fabric_name (strip (py "CASSIA - 101")))
                    (Some 4.15%Q) (Some 2988.00%Q) (Some 720.00%Q)] /\
  (Qabs (2988.00 - 4.15 * 720.00) <= 0.01)%Q.
Proof.
  apply (@C9_sarom_line_item (py "CASSIA - 101")).
  - vm_compute. intuition discriminate.
  - vm_compute. lia.
  - vm_compute. reflexivity.
Defined.

(** ** Substitution of single characters *)

Lemma sub_from_noneof (ic : bool) (l : list cls) (repl : str) (n : nat)
  (t p : str) :
  length t < n ->
  sub_from n ic (NoneOf l) repl p t =
  flat_map (fun c => if set_match ic l c then [c] else repl) t.
Proof.
  revert t p. induction n as [|n IH]; intros t p H; [lia|].
  destruct t as [|c t]; [reflexivity|].
  cbn [sub_from flat_map]. unfold match_here. cbn [run eat Re.rest].
  simpl in H.
  destruct (set_match ic l c) eqn:E; cbn [negb].
  - cbn [app]. f_equal. apply IH. lia.
  - cbn [m_end Re.rest Re.pre length].
    replace (length t <? S (length t)) with true
      by (symmetry; apply Nat.ltb_lt; lia).
    f_equal. apply IH. lia.
Qed.

Lemma flat_map_filter {A : Type} (p : A -> bool) (l : list A) :
  flat_map (fun c => if p c then [c] else []) l = filter p l.
Proof.
  induction l as [|x l IH]; simpl; [reflexivity|].
  destruct (p x); simpl; now rewrite IH.
Qed.

Lemma re_sub_noneof_delete (ic : bool) (l : list cls) (s : str) :
  re_sub ic (NoneOf l) [] s = filter (set_match ic l) s.
Proof.
  unfold re_sub. rewrite sub_from_noneof by lia. apply flat_map_filter.
Qed.

(** ** [clean_fabric_name] *)

Lemma word_or_digit (c : ascii) : set_match false [Wrd; Dig] c = is_word c.
Proof. each_char c. Qed.

Lemma clean_fabric_name_filter (name : str) :
  Csv.clean_fabric_name name =
  filter is_word (remove_char " " (lower name)).
Proof.
  destruct name as [|c name]; [reflexivity|].
  unfold Csv.clean_fabric_name. cbv zeta. rewrite re_sub_noneof_delete.
  apply filter_ext. apply word_or_digit.
Qed.

Lemma lower_word_clean (c : ascii) :
  is_word (lower_char c) = true -> clean_char (lower_char c) = true.
Proof. each_char c. Qed.

Lemma clean_char_fixed (c : ascii) :
  clean_char c = true ->
  lower_char c = c /\ eqc c " " = false /\ is_word c = true.
Proof. each_char c; repeat split. Qed.

Lemma clean_fabric_name_chars (name : str) :
  Forall (fun c => clean_char c = true) (Csv.clean_fabric_name name).
Proof.
  rewrite clean_fabric_name_filter. apply Forall_forall. intros c H.
  apply filter_In in H. destruct H as [H W].
  unfold remove_char in H. apply filter_In in H. destruct H as [H _].
  unfold lower in H. apply in_map_iff in H. destruct H as (x & <- & _).
  now apply lower_word_clean.
Qed.

Lemma clean_chars_fixed (s : str) :
  Forall (fun c => clean_char c = true) s -> Csv.clean_fabric_name s = s.
Proof.
  intro H. rewrite clean_fabric_name_filter.
  induction H as [|c s Hc Hs IH]; [reflexivity|].
  destruct (clean_char_fixed c Hc) as (L & S & W).
  cbn [lower map remove_char filter]. rewrite L, S. cbn [negb filter].
  rewrite W. f_equal. exact IH.
Qed.

(** A cleaned name holds lower-case letters, digits and underscores
    only, and cleaning it again changes nothing. *)
Theorem clean_fabric_name_idempotent (name : str) :
  Forall (fun c => clean_char c = true) (Csv.clean_fabric_name name) /\
  Csv.clean_fabric_name (Csv.clean_fabric_name name) =
  Csv.clean_fabric_name name.
Proof.
  split; [apply clean_fabric_name_chars|].
  apply clean_chars_fixed, clean_fabric_name_chars.
Qed.

(** ** Loops that may raise *)

Lemma for_each_preserves {A S : Type} (Inv : S -> Prop)
  (body : S -> A -> result S) (l : list A) (s s' : S) :
  Inv s ->
  (forall s x s', In x l -> Inv s -> body s x = Ok s' -> Inv s') ->
  for_each body l s = Ok s' -> Inv s'.
Proof.
  revert s. induction l as [|x l IH]; intros s I B E; simpl in E.
  - now inversion E; subst.
  - destruct (body s x) as [s1|e] eqn:E1; [|discriminate]. simpl in E.
    apply (IH s1); auto.
    + eapply B; eauto. now left.
    + intros s0 y s0' Hy. apply B. now right.
Qed.

Lemma for_each_raises_iff {A S : Type} (bad : A -> bool)
  (body : S -> A -> result S) (l : list A) (s : S) :
  (forall s x, bad x = true -> body s x = Raise ZeroDivisionError) ->
  (forall s x, bad x = false -> exists s', body s x = Ok s') ->
  (existsb bad l = true -> for_each body l s = Raise ZeroDivisionError) /\
  (existsb bad l = false -> exists s', for_each body l s = Ok s').
Proof.
  intros R K. revert s. induction l as [|x l IH]; intro s; simpl.
  - split; [discriminate | eauto].
  - destruct (bad x) eqn:E; simpl.
    + split; [|discriminate]. intros _. now rewrite R.
    + destruct (K s x E) as (s1 & ->). simpl. apply IH.
Qed.

(** ** [find_csv_fabric_match] *)

Lemma startswith_length (p s : str) :
  startswith p s = true -> length p <= length s.
Proof.
  revert s. induction p as [|x p IH]; intros [|y s]; simpl; try lia; try easy.
  rewrite andb_true_iff. intros [_ H]. apply IH in H. lia.
Qed.

Lemma contains_length (p s : str) :
  contains p s = true -> length p <= length s.
Proof.
  induction s as [|y s IH]; simpl; rewrite orb_true_iff.
  - intros [H|H]; [now apply startswith_length in H | discriminate].
  - intros [H|H]; [now apply startswith_length in H | apply IH in H; lia].
Qed.

Lemma startswith_refl (s : str) : startswith s s = true.
Proof.
  induction s as [|c s IH]; simpl; [reflexivity|].
  unfold eqc. now rewrite Ascii.eqb_refl.
Qed.

Lemma contains_refl (s : str) : contains s s = true.
Proof.
  destruct s as [|c s]; [reflexivity|].
  change (startswith (c :: s) (c :: s) || contains (c :: s) s = true).
  now rewrite startswith_refl.
Qed.

Lemma contains_nil (s : str) : contains [] s = true.
Proof. destruct s; reflexivity. Qed.

Lemma QN_length_nonzero {A : Type} (l : list A) : l <> [] -> ~ (QN (length l) == 0)%Q.
Proof. intro H. apply QN_nonzero. destruct l; simpl; congruence. Qed.

Lemma char_set_nonempty (s : str) : s <> [] -> Csv.char_set s <> [].
Proof. destruct s; simpl; congruence. Qed.

Lemma union_nonempty {A : Type} (a b : list A) : a <> [] -> a ++ b <> [].
Proof. destruct a; simpl; congruence. Qed.

(** [calculate_similarity] divides by the size of a union that is not
    empty: it raises nothing. *)
Lemma calculate_similarity_ok (sr : str -> str -> Q) (a b : str) :
  exists q, Csv.calculate_similarity sr a b = Ok q.
Proof.
  unfold Csv.calculate_similarity. cbv zeta.
  assert (C : exists c,
    (if nonempty_str a && nonempty_str b
     then pdiv (QN (length (Csv.char_inter (Csv.char_set a) (Csv.char_set b))))
               (QN (length (Csv.char_union (Csv.char_set a) (Csv.char_set b))))
     else Ok 0%Q) = Ok c).
  { destruct (nonempty_str a) eqn:Ea; cbn [andb]; [|eauto].
    destruct (nonempty_str b); [|eauto].
    apply nonempty_str_true in Ea.
    rewrite pdiv_ok; [eauto|].
    apply QN_length_nonzero. unfold Csv.char_union.
    now apply union_nonempty, char_set_nonempty. }
  destruct C as (c & ->). cbn [bind].
  destruct (Csv.char_mem " " a && Csv.char_mem " " b); cbn [bind]; [|eauto].
  destruct (to_set (split (lower a))) as [|w1 ws1] eqn:E1;
    cbn [FabricMatcher.nonempty andb bind]; [eauto|].
  destruct (to_set (split (lower b))) as [|w2 ws2] eqn:E2;
    cbn [FabricMatcher.nonempty andb bind]; [eauto|].
  rewrite pdiv_ok; [cbn [bind]; eauto|].
  apply QN_nonzero. discriminate.
Qed.

Lemma csv_keep_spec (m : Csv.CsvMatch) (b : Csv.csv_best) :
  (snd b <= snd (Csv.csv_keep m b))%Q /\
  (Csv.score m <= snd (Csv.csv_keep m b))%Q /\
  (Csv.csv_keep m b = b \/
   Csv.csv_keep m b = (Some m, Csv.score m) /\ (snd b < Csv.score m)%Q).
Proof.
  unfold Csv.csv_keep. destruct (Qltb (snd b) (Csv.score m)) eqn:E; simpl.
  - apply Qltb_true in E. repeat split; [lra | lra | now right].
  - apply Qltb_false in E. repeat split; [lra | lra | now left].
Qed.

Lemma contains_in_nil (p : str) : contains p [] = true -> p = [].
Proof. destruct p; [reflexivity | discriminate]. Qed.

(** The body raises when both names are empty after cleaning. *)
Lemma csv_body_raises (sr : str -> str -> Q) (t : Q) (b : Csv.csv_best)
  (f : Csv.CsvFabric) :
  compared_name f = [] ->
  Csv.csv_body sr [] t b f = Raise ZeroDivisionError.
Proof.
  intro E. unfold Csv.csv_body. cbv zeta.
  change (Csv.clean_fabric_name (Csv.remove_csv_prefix (Csv.original_name f)))
    with (compared_name f).
  rewrite E. reflexivity.
Qed.

Ltac kept_by m C :=
  right; exists m; split; [reflexivity | split; [exact C | lra]].

Ltac csv_kept m b :=
  let K1 := fresh "K" in let K2 := fresh "K" in let K3 := fresh "K" in
  destruct (csv_keep_spec m b) as (K1 & K2 & K3).

(** Otherwise it keeps the state or replaces it by a candidate of the
    row, and no candidate of the row scores more than the state it
    leaves. *)
Lemma csv_body_ok (sr : str -> str -> Q) (p : str) (t : Q) (b : Csv.csv_best)
  (f : Csv.CsvFabric) :
  p <> [] \/ compared_name f <> [] ->
  exists b',
    Csv.csv_body sr p t b f = Ok b' /\
    (snd b <= snd b')%Q /\
    (b' = b \/
     exists m, b' = (Some m, Csv.score m) /\ candidate sr p t f m /\
               (snd b < Csv.score m)%Q) /\
    (forall m', candidate sr p t f m' -> (Csv.score m' <= snd b')%Q).
Proof.
  intro NE. unfold Csv.csv_body. cbv zeta.
  change (Csv.clean_fabric_name (Csv.remove_csv_prefix (Csv.original_name f)))
    with (compared_name f).
  destruct (calculate_similarity_ok sr p (compared_name f)) as (sim & Es).
  rewrite Es.
  set (c := compared_name f) in *.
  set (n := Csv.remove_csv_prefix (Csv.original_name f)).
  assert (D : forall s k, describes (Csv.mkMatch f n c s k))
    by (intros; split; reflexivity).
  destruct (contains p c) eqn:C1.
  - (* direct *)
    assert (Nc : c <> []).
    { intro E. rewrite E in C1. apply contains_in_nil in C1. tauto. }
    rewrite pdiv_ok by now apply QN_length_nonzero.
    cbn [bind].
    set (m1 := Csv.mkMatch f n c _ Csv.Direct_Substring).
    assert (Cm1 : candidate sr p t f m1).
    { split; [reflexivity|]. split; [apply D|]. cbn [Csv.method m1].
      split; [exact C1 | reflexivity]. }
    csv_kept m1 b.
    destruct (Qle_bool t sim) eqn:T.
    + set (m3 := Csv.mkMatch f n c (sim * 100) (Csv.Fuzzy_Match sim)).
      assert (Cm3 : candidate sr p t f m3).
      { split; [reflexivity|]. split; [apply D|]. cbn [Csv.method m3].
        apply Qle_bool_iff in T.
        split; [exact Es | split; [exact T | reflexivity]]. }
      csv_kept m3 (Csv.csv_keep m1 b).
      eexists. split; [reflexivity|]. split; [lra|]. split.
      * destruct K4 as [->|[-> L]]; [|kept_by m3 Cm3].
        destruct K1 as [->|[-> L]]; [now left | kept_by m1 Cm1].
      * intros m' (_ & _ & M); fold c in M. destruct (Csv.method m') as [| |s'].
        -- destruct M as (_ & ->). change (Csv.score m1 <= snd (Csv.csv_keep m3 (Csv.csv_keep m1 b)))%Q. lra.
        -- destruct M as (M & _). congruence.
        -- destruct M as (M & _ & ->). rewrite Es in M. inversion M; subst s'.
           change (Csv.score m3 <= snd (Csv.csv_keep m3 (Csv.csv_keep m1 b)))%Q. lra.
    + eexists. split; [reflexivity|]. split; [lra|]. split.
      * destruct K1 as [->|[-> L]]; [now left | kept_by m1 Cm1].
      * intros m' (_ & _ & M); fold c in M. destruct (Csv.method m') as [| |s'].
        -- destruct M as (_ & ->). change (Csv.score m1 <= snd (Csv.csv_keep m1 b))%Q. lra.
        -- destruct M as (M & _). congruence.
        -- destruct M as (M & L & _). rewrite Es in M. inversion M; subst s'.
           apply Qle_bool_iff in L. congruence.
  - destruct (contains c p) eqn:C2.
    + (* reverse *)
      assert (Np : p <> []).
      { intro E. rewrite E, contains_nil in C1. discriminate. }
      rewrite pdiv_ok by now apply QN_length_nonzero.
      cbn [bind].
      set (m2 := Csv.mkMatch f n c _ Csv.Reverse_Substring).
      assert (Cm2 : candidate sr p t f m2).
      { split; [reflexivity|]. split; [apply D|]. cbn [Csv.method m2].
        split; [exact C1 | split; [exact C2 | reflexivity]]. }
      csv_kept m2 b.
      destruct (Qle_bool t sim) eqn:T.
      * set (m3 := Csv.mkMatch f n c (sim * 100) (Csv.Fuzzy_Match sim)).
        assert (Cm3 : candidate sr p t f m3).
        { split; [reflexivity|]. split; [apply D|]. cbn [Csv.method m3].
          apply Qle_bool_iff in T.
        split; [exact Es | split; [exact T | reflexivity]]. }
        csv_kept m3 (Csv.csv_keep m2 b).
        eexists. split; [reflexivity|]. split; [lra|]. split.
        -- destruct K4 as [->|[-> L]]; [|kept_by m3 Cm3].
           destruct K1 as [->|[-> L]]; [now left | kept_by m2 Cm2].
        -- intros m' (_ & _ & M); fold c in M. destruct (Csv.method m') as [| |s'].
           ++ destruct M as (M & _). congruence.
           ++ destruct M as (_ & _ & ->).
              change (Csv.score m2 <= snd (Csv.csv_keep m3 (Csv.csv_keep m2 b)))%Q. lra.
           ++ destruct M as (M & _ & ->). rewrite Es in M. inversion M; subst s'.
              change (Csv.score m3 <= snd (Csv.csv_keep m3 (Csv.csv_keep m2 b)))%Q. lra.
      * eexists. split; [reflexivity|]. split; [lra|]. split.
        -- destruct K1 as [->|[-> L]]; [now left | kept_by m2 Cm2].
        -- intros m' (_ & _ & M); fold c in M. destruct (Csv.method m') as [| |s'].
           ++ destruct M as (M & _). congruence.
           ++ destruct M as (_ & _ & ->).
              change (Csv.score m2 <= snd (Csv.csv_keep m2 b))%Q. lra.
           ++ destruct M as (M & L & _). rewrite Es in M. inversion M; subst s'.
              apply Qle_bool_iff in L. congruence.
    + cbn [bind].
      destruct (Qle_bool t sim) eqn:T.
      * set (m3 := Csv.mkMatch f n c (sim * 100) (Csv.Fuzzy_Match sim)).
        assert (Cm3 : candidate sr p t f m3).
        { split; [reflexivity|]. split; [apply D|]. cbn [Csv.method m3].
          apply Qle_bool_iff in T.
        split; [exact Es | split; [exact T | reflexivity]]. }
        csv_kept m3 b.
        eexists. split; [reflexivity|]. split; [lra|]. split.
        -- destruct K1 as [->|[-> L]]; [now left | kept_by m3 Cm3].
        -- intros m' (_ & _ & M); fold c in M. destruct (Csv.method m') as [| |s'].
           ++ destruct M as (M & _). congruence.
           ++ destruct M as (_ & M & _). congruence.
           ++ destruct M as (M & _ & ->). rewrite Es in M. inversion M; subst s'.
              change (Csv.score m3 <= snd (Csv.csv_keep m3 b))%Q. lra.
      * eexists. split; [reflexivity|]. split; [lra|]. split; [now left|].
        intros m' (_ & _ & M); fold c in M. destruct (Csv.method m') as [| |s'].
        -- destruct M as (M & _). congruence.
        -- destruct M as (_ & M & _). congruence.
        -- destruct M as (M & L & _). rewrite Es in M. inversion M; subst s'.
           apply Qle_bool_iff in L. congruence.
Qed.

(** ** The loop of [find_csv_fabric_match] *)

Lemma csv_body_step (sr : str -> str -> Q) (p : str) (t : Q)
  (b b' : Csv.csv_best) (f : Csv.CsvFabric) :
  Csv.csv_body sr p t b f = Ok b' ->
  (snd b <= snd b')%Q /\
  (b' = b \/
   exists m, b' = (Some m, Csv.score m) /\ candidate sr p t f m /\
             (snd b < Csv.score m)%Q) /\
  (forall m', candidate sr p t f m' -> (Csv.score m' <= snd b')%Q).
Proof.
  intro E.
  assert (NE : p <> [] \/ compared_name f <> []).
  { destruct p as [|x p]; [|left; discriminate].
    destruct (compared_name f) eqn:C; [|right; discriminate].
    rewrite (@csv_body_raises sr t b f C) in E. discriminate. }
  destruct (@csv_body_ok sr p t b f NE) as (b1 & E1 & H).
  rewrite E in E1. inversion E1; subst. exact H.
Qed.

Lemma csv_loop (sr : str -> str -> Q) (p : str) (t : Q)
  (fabrics l : list Csv.CsvFabric) (b b' : Csv.csv_best) :
  incl l fabrics -> csv_state sr p t fabrics b ->
  for_each (Csv.csv_body sr p t) l b = Ok b' ->
  (snd b <= snd b')%Q /\ csv_state sr p t fabrics b' /\
  (forall f m', In f l -> candidate sr p t f m' -> (Csv.score m' <= snd b')%Q).
Proof.
  revert b. induction l as [|x l IH]; intros b I S E; simpl in E.
  - inversion E; subst. split; [lra|]. split; [assumption|]. intros f m' [].
  - destruct (Csv.csv_body sr p t b x) as [b1|e] eqn:E1; [|discriminate].
    simpl in E. apply csv_body_step in E1. destruct E1 as (L1 & K & M1).
    assert (S1 : csv_state sr p t fabrics b1).
    { destruct K as [->|(m & -> & C & _)]; [assumption|].
      unfold csv_state. cbn [fst snd]. split; [reflexivity|].
      destruct C as (F & C'). rewrite F. split; [apply I; now left|].
      split; [exact F | exact C']. }
    destruct (IH b1 (fun y Hy => I y (or_intror Hy)) S1 E) as (L2 & S2 & M2).
    split; [lra|]. split; [assumption|].
    intros f m' [<-|Hf] C; [|now apply (M2 f)].
    apply M1 in C. lra.
Qed.

(** A state that no candidate of the rows to come beats is the final one. *)
Lemma csv_loop_unbeaten (sr : str -> str -> Q) (p : str) (t : Q)
  (l : list Csv.CsvFabric) (b b' : Csv.csv_best) :
  (forall f m', In f l -> candidate sr p t f m' -> (Csv.score m' <= snd b)%Q) ->
  for_each (Csv.csv_body sr p t) l b = Ok b' -> b' = b.
Proof.
  revert b. induction l as [|x l IH]; intros b U E; simpl in E.
  - now inversion E.
  - destruct (Csv.csv_body sr p t b x) as [b1|e] eqn:E1; [|discriminate].
    simpl in E. apply csv_body_step in E1. destruct E1 as (_ & K & _).
    destruct K as [->|(m & -> & C & L)].
    + apply IH; [|assumption]. intros f m' Hf. apply U. now right.
    + apply (U x m (or_introl eq_refl)) in C. lra.
Qed.

Lemma existsb_never {A : Type} (l : list A) : existsb (fun _ => false) l = false.
Proof. induction l; simpl; auto. Qed.

Lemma csv_loop_ok (sr : str -> str -> Q) (p : str) (t : Q)
  (l : list Csv.CsvFabric) (b : Csv.csv_best) :
  p <> [] -> exists b', for_each (Csv.csv_body sr p t) l b = Ok b'.
Proof.
  intro NE.
  apply (@for_each_raises_iff _ _ (fun _ => false) (Csv.csv_body sr p t) l b).
  - discriminate.
  - intros s x _.
    destruct (@csv_body_ok sr p t s x (or_introl NE)) as (b' & E & _). eauto.
  - apply existsb_never.
Qed.

Lemma find_csv_fabric_match_loop (sr : str -> str -> Q) (name : str)
  (fabrics : list Csv.CsvFabric) (t : Q) :
  fabrics <> [] ->
  Csv.find_csv_fabric_match sr name fabrics t =
  (b <- for_each (Csv.csv_body sr (Csv.clean_fabric_name name) t) fabrics
                 (None, 0%Q) ;;
   Ok (if Qle_bool (Csv.min_threshold (Csv.clean_fabric_name name)) (snd b)
       then fst b else None)).
Proof. destruct fabrics; [congruence | reflexivity]. Qed.

Lemma min_threshold_range (p : str) :
  (30 <= Csv.min_threshold p <= 50)%Q.
Proof. unfold Csv.min_threshold. destruct (length p <=? 10); lra. Qed.

Lemma csv_state_start (sr : str -> str -> Q) (p : str) (t : Q)
  (fabrics : list Csv.CsvFabric) : csv_state sr p t fabrics (None, 0%Q).
Proof. reflexivity. Qed.

Lemma find_csv_fabric_match_spec (sr : str -> str -> Q) (name : str)
  (fabrics : list Csv.CsvFabric) (t : Q) (r : option Csv.CsvMatch) :
  Csv.find_csv_fabric_match sr name fabrics t = Ok r ->
  match r with
  | Some m =>
      In (Csv.fabric m) fabrics /\
      candidate sr (Csv.clean_fabric_name name) t (Csv.fabric m) m /\
      (Csv.min_threshold (Csv.clean_fabric_name name) <= Csv.score m)%Q /\
      forall f m',
        In f fabrics -> candidate sr (Csv.clean_fabric_name name) t f m' ->
        (Csv.score m' <= Csv.score m)%Q
  | None =>
      forall f m',
        In f fabrics -> candidate sr (Csv.clean_fabric_name name) t f m' ->
        (Csv.score m' < Csv.min_threshold (Csv.clean_fabric_name name))%Q
  end.
Proof.
  destruct fabrics as [|f0 fs] eqn:Ef.
  - intro E. inversion E; subst. intros f m' [].
  - rewrite <- Ef. rewrite find_csv_fabric_match_loop by (rewrite Ef; discriminate).
    set (p := Csv.clean_fabric_name name).
    destruct (for_each (Csv.csv_body sr p t) fabrics (None, 0%Q)) as [b|e] eqn:E;
      [|discriminate].
    cbn [bind]. intro R. inversion R as [R']. clear R.
    destruct (@csv_loop sr p t fabrics fabrics (None, 0%Q) b
                (incl_refl _) (csv_state_start sr p t fabrics) E) as (_ & S & M).
    pose proof (min_threshold_range p) as T.
    destruct (Qle_bool (Csv.min_threshold p) (snd b)) eqn:Q.
    + apply Qle_bool_iff in Q. unfold csv_state in S.
      destruct (fst b) as [m|]; cbn [fst] in *.
      * destruct S as (S1 & S2 & S3). rewrite S1 in *.
        split; [assumption|]. split; [assumption|]. split; [assumption|].
        exact M.
      * rewrite S in Q. lra.
    + apply Qle_bool_false in Q. intros f m' Hf C.
      apply (M f m' Hf) in C. lra.
Qed.

(** ** What [find_csv_fabric_match] returns *)

(** When [find_csv_fabric_match] returns a match, the match is a candidate
    of a row of the catalogue, its score reaches the minimum (30 for a
    cleaned name of at most 10 characters, 50 otherwise) and no candidate
    of any row scores more; when it returns nothing, every candidate is
    below the minimum. *)
Theorem csv_match_is_best_candidate (sr : str -> str -> Q) (name : str)
  (fabrics : list Csv.CsvFabric) (t : Q) (r : option Csv.CsvMatch) :
  Csv.find_csv_fabric_match sr name fabrics t = Ok r ->
  match r with
  | Some m =>
      In (Csv.fabric m) fabrics /\
      candidate sr (Csv.clean_fabric_name name) t (Csv.fabric m) m /\
      (Csv.min_threshold (Csv.clean_fabric_name name) <= Csv.score m)%Q /\
      forall f m',
        In f fabrics -> candidate sr (Csv.clean_fabric_name name) t f m' ->
        (Csv.score m' <= Csv.score m)%Q
  | None =>
      forall f m',
        In f fabrics -> candidate sr (Csv.clean_fabric_name name) t f m' ->
        (Csv.score m' < Csv.min_threshold (Csv.clean_fabric_name name))%Q
  end.
Proof. apply find_csv_fabric_match_spec. Qed.

(** The name NEW ROYAL against the rows A - NEW ROYAL and Velvet Premium
    Gold. *)
Lemma csv_match_is_best_candidate_witness :
  exists m,
    Csv.find_csv_fabric_match no_similarity (py "NEW ROYAL")
      [royal_row; velvet_row] (1 # 2) = Ok (Some m) /\
    Csv.fabric m = royal_row /\ Csv.method m = Csv.Direct_Substring /\
    (30 <= Csv.score m)%Q.
Proof.
  destruct (Csv.find_csv_fabric_match no_similarity (py "NEW ROYAL")
              [royal_row; velvet_row] (1 # 2)) as [[m|]|e] eqn:E;
    try (vm_compute in E; discriminate).
  exists m. split; [reflexivity|].
  pose proof (@csv_match_is_best_candidate no_similarity (py "NEW ROYAL")
                [royal_row; velvet_row] (1 # 2) (Some m) E) as (_ & _ & T & _).
  vm_compute in E. inversion E; subst m.
  split; [reflexivity|]. split; [reflexivity|]. exact T.
Defined.

Lemma existsb_unnamed (fabrics : list Csv.CsvFabric) :
  existsb (fun f => negb (nonempty_str (compared_name f))) fabrics = true <->
  exists f, In f fabrics /\ compared_name f = [].
Proof.
  rewrite existsb_exists. split; intros (f & I & H); exists f; split; auto.
  - destruct (compared_name f); [reflexivity | discriminate].
  - now rewrite H.
Qed.

(** [find_csv_fabric_match] raises exactly when the parsed name and the
    name of some row of the catalogue are both empty once cleaned; the
    exception is the division by zero of the direct strategy. *)
Theorem csv_match_raises_exactly (sr : str -> str -> Q) (name : str)
  (fabrics : list Csv.CsvFabric) (t : Q) :
  match Csv.find_csv_fabric_match sr name fabrics t with
  | Raise e =>
      e = ZeroDivisionError /\ Csv.clean_fabric_name name = [] /\
      exists f, In f fabrics /\ compared_name f = []
  | Ok _ =>
      Csv.clean_fabric_name name <> [] \/
      forall f, In f fabrics -> compared_name f <> []
  end.
Proof.
  destruct fabrics as [|f0 fs] eqn:Ef.
  - right. intros f [].
  - rewrite <- Ef.
    rewrite find_csv_fabric_match_loop by (rewrite Ef; discriminate).
    destruct (Csv.clean_fabric_name name) as [|c p] eqn:Ep.
    + destruct (@for_each_raises_iff _ _
                  (fun f => negb (nonempty_str (compared_name f)))
                  (Csv.csv_body sr [] t) fabrics (None, 0%Q)) as (R & K).
      * intros s x H. apply csv_body_raises.
        destruct (compared_name x); [reflexivity | discriminate].
      * intros s x H.
        destruct (@csv_body_ok sr [] t s x) as (b' & E & _); [|eauto].
        right. intro C. rewrite C in H. discriminate.
      * destruct (existsb (fun f => negb (nonempty_str (compared_name f)))
                          fabrics) eqn:X.
        -- rewrite (R eq_refl). cbn [bind].
           split; [reflexivity|]. split; [reflexivity|].
           now apply existsb_unnamed.
        -- destruct (K eq_refl) as (b & ->). cbn [bind]. right.
           intros f I C.
           assert (Y : existsb (fun f => negb (nonempty_str (compared_name f)))
                               fabrics = true)
             by (apply existsb_unnamed; eauto).
           congruence.
    + destruct (@csv_loop_ok sr (c :: p) t fabrics (None, 0%Q)) as (b & ->);
        [discriminate|].
      cbn [bind]. left. discriminate.
Qed.

(** ** Bounds of the scores of [find_csv_fabric_match] *)

Lemma QN_le (a b : nat) : a <= b -> (QN a <= QN b)%Q.
Proof. intro H. unfold QN. rewrite <- Zle_Qle. lia. Qed.

Lemma QN_pos (n : nat) : n <> 0 -> (0 < QN n)%Q.
Proof.
  intro H. unfold QN. change 0%Q with (inject_Z 0). rewrite <- Zlt_Qlt. lia.
Qed.

Lemma QN_ratio_le_1 (a b : nat) : a <= b -> (QN a / QN b <= 1)%Q.
Proof.
  intro H. destruct b as [|b].
  - assert (a = 0) by lia. subst. vm_compute. discriminate.
  - apply Qle_shift_div_r; [apply QN_pos; lia|].
    rewrite Qmult_1_l. now apply QN_le.
Qed.

Lemma QN_ratio_refl (n : nat) : n <> 0 -> (QN n / QN n == 1)%Q.
Proof.
  intro H. field. now apply QN_nonzero.
Qed.

Lemma direct_score_le (n k : nat) :
  n <= k ->
  (direct_score n k <= 100)%Q /\ (n <= 10 -> (direct_score n k <= 95)%Q).
Proof.
  intro H. pose proof (QN_ratio_le_1 H) as R. unfold direct_score. cbv zeta.
  destruct (n <=? 10) eqn:E.
  - pose proof (Q.le_min_l 95 (QN n / QN k * 100 + 60)) as M.
    split; [lra | intros _; exact M].
  - apply Nat.leb_gt in E. split; [lra | lia].
Qed.

Lemma direct_score_full (n : nat) : n <> 0 -> (95 <= direct_score n n)%Q.
Proof.
  intro H. pose proof (QN_ratio_refl H) as R. unfold direct_score. cbv zeta.
  destruct (n <=? 10).
  - apply Q.min_glb; lra.
  - lra.
Qed.

(** A row that covers at least 35 in 100 of its name by a short parsed
    name scores 95. *)
Lemma direct_score_short (n k : nat) :
  n <= 10 -> k <> 0 -> 35 * k <= 100 * n -> (95 <= direct_score n k)%Q.
Proof.
  intros S K H. unfold direct_score. cbv zeta.
  replace (n <=? 10) with true by (symmetry; now apply Nat.leb_le).
  apply Q.min_glb; [lra|].
  assert (R : (35 # 100 <= QN n / QN k)%Q).
  { apply Qle_shift_div_l; [now apply QN_pos|].
    unfold QN, Qle, Qmult, inject_Z. cbn [Qnum Qden]. lia. }
  lra.
Qed.

Lemma startswith_same_length (c p : str) :
  startswith c p = true -> length p <= length c -> c = p.
Proof.
  revert p. induction c as [|x c IH]; intros [|y p]; simpl; try easy; try lia.
  rewrite andb_true_iff. intros [E H] L. unfold eqc in E.
  apply Ascii.eqb_eq in E. subst. f_equal. apply IH; [assumption | lia].
Qed.

Lemma contains_same_length (c p : str) :
  contains c p = true -> length p <= length c -> c = p.
Proof.
  destruct p as [|y p].
  - simpl. rewrite orb_false_r. intros H _.
    apply startswith_same_length; [assumption | simpl; lia].
  - intros H L.
    change (startswith c (y :: p) || contains c p = true) in H.
    apply orb_true_iff in H. destruct H as [H|H].
    + now apply startswith_same_length.
    + apply contains_length in H. simpl in L. lia.
Qed.

Lemma filter_length_le {A : Type} (p : A -> bool) (l : list A) :
  length (filter p l) <= length l.
Proof. induction l as [|x l IH]; simpl; [lia|]. destruct (p x); simpl; lia. Qed.

(** On names without a space the similarity is the sequence ratio and the
    character overlap only: at most 0.8 when the ratio is at most 1. *)
Lemma calculate_similarity_le (sr : str -> str -> Q) (a b : str) (q : Q) :
  (sr a b <= 1)%Q -> Csv.char_mem " " a = false ->
  Csv.calculate_similarity sr a b = Ok q -> (q <= 4 # 5)%Q.
Proof.
  intros S N. unfold Csv.calculate_similarity. cbv zeta. rewrite N.
  cbn [andb].
  destruct (nonempty_str a && nonempty_str b).
  - destruct (pdiv (QN (length (Csv.char_inter (Csv.char_set a) (Csv.char_set b))))
                   (QN (length (Csv.char_union (Csv.char_set a) (Csv.char_set b)))))
      as [c|e] eqn:E; cbn [bind]; [|discriminate].
    intro H. inversion H as [H']. clear H H'.
    assert (C : (c <= 1)%Q).
    { unfold pdiv in E. destruct (Qeq_bool _ 0); [discriminate|].
      inversion E. apply QN_ratio_le_1.
      unfold Csv.char_inter, Csv.char_union. rewrite length_app.
      pose proof (filter_length_le (fun x => Csv.char_mem x (Csv.char_set b))
                                   (Csv.char_set a)). lia. }
    lra.
  - cbn [bind]. intro H. inversion H. lra.
Qed.

Lemma clean_char_not_space (l : str) :
  Forall (fun c => clean_char c = true) l -> Csv.char_mem " " l = false.
Proof.
  intro H. unfold Csv.char_mem.
  destruct (existsb (eqc " ") l) eqn:E; [|reflexivity].
  apply existsb_exists in E. destruct E as (x & I & E).
  unfold eqc in E. apply Ascii.eqb_eq in E. subst x.
  rewrite Forall_forall in H. apply H in I. discriminate.
Qed.

Lemma cleaned_no_space (name : str) :
  Csv.char_mem " " (Csv.clean_fabric_name name) = false.
Proof. apply clean_char_not_space, clean_fabric_name_chars. Qed.

Lemma candidate_bound (sr : str -> str -> Q) (p : str) (t : Q)
  (f : Csv.CsvFabric) (m : Csv.CsvMatch) :
  (forall a b, (sr a b <= 1)%Q) -> Csv.char_mem " " p = false ->
  candidate sr p t f m ->
  (Csv.score m <= 100)%Q /\
  (length p <= 10 -> (Csv.score m <= 95)%Q) /\
  (forall s, Csv.method m = Csv.Fuzzy_Match s -> (Csv.score m <= 80)%Q).
Proof.
  intros S N (_ & _ & M). destruct (Csv.method m) as [| |s].
  - destruct M as (C & E). apply contains_length in C.
    destruct (direct_score_le C) as (B1 & B2).
    split; [lra|]. split; [intro L; specialize (B2 L); lra | discriminate].
  - destruct M as (C1 & C2 & E).
    assert (L : length (compared_name f) < length p).
    { apply contains_length in C2 as L.
      destruct (Nat.eq_dec (length (compared_name f)) (length p)) as [Q|Q]; [|lia].
      apply contains_same_length in C2; [|lia].
      rewrite C2, contains_refl in C1. discriminate. }
    assert (R : (QN (length (compared_name f)) / QN (length p) <= 1)%Q)
      by (apply QN_ratio_le_1; lia).
    split; [lra|]. split; [|discriminate].
    intro S10.
    assert (R' : (QN (length (compared_name f)) / QN (length p) <= 95 # 100)%Q).
    { apply Qle_shift_div_r; [apply QN_pos; lia|].
      unfold QN, Qle, Qmult, inject_Z. cbn [Qnum Qden]. lia. }
    lra.
  - destruct M as (C & _ & E).
    apply calculate_similarity_le in C; [|apply S | exact N].
    split; [lra|]. split; [intros _; lra | intros; lra].
Qed.

(** When the sequence ratio is at most 1, the score of a match is at most
    100, and at most 80 for a fuzzy match: the cleaned names hold no
    space, so the word overlap never contributes. *)
Theorem csv_score_bounds (sr : str -> str -> Q) (name : str)
  (fabrics : list Csv.CsvFabric) (t : Q) (m : Csv.CsvMatch) :
  (forall a b, (sr a b <= 1)%Q) ->
  Csv.find_csv_fabric_match sr name fabrics t = Ok (Some m) ->
  (30 <= Csv.score m <= 100)%Q /\
  forall s, Csv.method m = Csv.Fuzzy_Match s ->
            (s <= 4 # 5)%Q /\ (Csv.score m <= 80)%Q.
Proof.
  intros S E. apply find_csv_fabric_match_spec in E.
  destruct E as (_ & C & T & _).
  pose proof (min_threshold_range (Csv.clean_fabric_name name)) as R.
  destruct (candidate_bound S (cleaned_no_space name) C) as (B1 & _ & B3).
  split; [lra|]. intros s Hs. split; [|now apply (B3 s)].
  destruct C as (_ & _ & M). rewrite Hs in M. destruct M as (M & _).
  apply calculate_similarity_le in M; [assumption | apply S | apply cleaned_no_space].
Qed.

Lemma csv_score_bounds_witness :
  exists m,
    Csv.find_csv_fabric_match full_similarity (py "Velvet Gold")
      [royal_row; velvet_row] (1 # 2) = Ok (Some m) /\
    (30 <= Csv.score m <= 100)%Q /\
    forall s, Csv.method m = Csv.Fuzzy_Match s ->
              (s <= 4 # 5)%Q /\ (Csv.score m <= 80)%Q.
Proof.
  destruct (Csv.find_csv_fabric_match full_similarity (py "Velvet Gold")
              [royal_row; velvet_row] (1 # 2)) as [[m|]|e] eqn:E;
    try (vm_compute in E; discriminate).
  exists m. split; [reflexivity|].
  apply (@csv_score_bounds full_similarity (py "Velvet Gold")
           [royal_row; velvet_row] (1 # 2) m); [|exact E].
  intros a b. unfold full_similarity. lra.
Defined.

(** ** Looking up the names of the catalogue *)

Lemma direct_candidate (sr : str -> str -> Q) (p : str) (t : Q)
  (f : Csv.CsvFabric) :
  contains p (compared_name f) = true ->
  candidate sr p t f
    (Csv.mkMatch f (Csv.remove_csv_prefix (Csv.original_name f))
                 (compared_name f)
                 (direct_score (length p) (length (compared_name f)))
                 Csv.Direct_Substring).
Proof.
  intro C. split; [reflexivity|]. split; [split; reflexivity|].
  split; [exact C | reflexivity].
Qed.

(** The name of a row of the catalogue, prefix removed, always finds a
    match of score 95 or more, whatever the other rows, provided it holds
    a letter, a digit or an underscore. *)
Theorem catalogue_name_finds_a_match (sr : str -> str -> Q)
  (fabrics : list Csv.CsvFabric) (f : Csv.CsvFabric) (t : Q) :
  In f fabrics -> compared_name f <> [] ->
  exists m,
    Csv.find_csv_fabric_match sr
      (Csv.remove_csv_prefix (Csv.original_name f)) fabrics t = Ok (Some m) /\
    In (Csv.fabric m) fabrics /\ (95 <= Csv.score m)%Q.
Proof.
  intros I N.
  rewrite find_csv_fabric_match_loop by (intro E; rewrite E in I; exact I).
  change (Csv.clean_fabric_name (Csv.remove_csv_prefix (Csv.original_name f)))
    with (compared_name f).
  set (p := compared_name f) in *.
  destruct (@csv_loop_ok sr p t fabrics (None, 0%Q) N) as (b & E).
  rewrite E. cbn [bind].
  destruct (@csv_loop sr p t fabrics fabrics (None, 0%Q) b
              (incl_refl _) (csv_state_start sr p t fabrics) E) as (_ & S & M).
  pose proof (M f _ I (@direct_candidate sr p t f (contains_refl p))) as D.
  cbn [Csv.score] in D.
  assert (L : length p <> 0) by (destruct p; simpl; congruence).
  pose proof (direct_score_full L) as F.
  pose proof (min_threshold_range p) as T.
  replace (Qle_bool (Csv.min_threshold p) (snd b)) with true
    by (symmetry; apply Qle_bool_iff; fold p in D; lra).
  unfold csv_state in S. destruct (fst b) as [m|].
  - destruct S as (S1 & S2 & _). exists m. split; [reflexivity|].
    split; [assumption|]. rewrite <- S1. fold p in D. lra.
  - fold p in D. rewrite S in D. lra.
Qed.

Lemma catalogue_name_finds_a_match_witness :
  exists m,
    Csv.find_csv_fabric_match no_similarity (py "NEW ROYAL")
      [velvet_row; royal_row] (1 # 2) = Ok (Some m) /\
    In (Csv.fabric m) [velvet_row; royal_row] /\ (95 <= Csv.score m)%Q.
Proof.
  apply (@catalogue_name_finds_a_match no_similarity [velvet_row; royal_row]
           royal_row (1 # 2)).
  - right. left. reflexivity.
  - vm_compute. discriminate.
Defined.

(** For a parsed name of at most 10 cleaned characters, the first row of
    the catalogue wins with the score 95 as soon as its name contains the
    parsed name and is at most 100/35 times as long: no later row can
    score more, not even one whose name is the parsed name. *)
Theorem short_name_first_container (sr : str -> str -> Q) (name : str)
  (f : Csv.CsvFabric) (rest : list Csv.CsvFabric) (t : Q) :
  (forall a b, (sr a b <= 1)%Q) ->
  Csv.clean_fabric_name name <> [] ->
  length (Csv.clean_fabric_name name) <= 10 ->
  contains (Csv.clean_fabric_name name) (compared_name f) = true ->
  35 * length (compared_name f) <= 100 * length (Csv.clean_fabric_name name) ->
  exists m,
    Csv.find_csv_fabric_match sr name (f :: rest) t = Ok (Some m) /\
    Csv.fabric m = f /\ Csv.method m = Csv.Direct_Substring /\
    (Csv.score m == 95)%Q.
Proof.
  intros S N L C H.
  rewrite find_csv_fabric_match_loop by discriminate.
  set (p := Csv.clean_fabric_name name) in *.
  assert (Sp : Csv.char_mem " " p = false) by apply cleaned_no_space.
  cbn [for_each].
  destruct (@csv_body_ok sr p t (None, 0%Q) f (or_introl N))
    as (b1 & E1 & _ & K & M1).
  rewrite E1. cbn [bind].
  assert (Nc : length (compared_name f) <> 0).
  { apply contains_length in C. destruct p; [congruence | simpl in C; lia]. }
  pose proof (M1 _ (@direct_candidate sr p t f C)) as D. cbn [Csv.score] in D.
  pose proof (direct_score_short L Nc H) as F.
  destruct K as [->|(m & -> & Cm & _)]; [cbn [snd] in D; lra|].
  cbn [snd] in D.
  destruct (candidate_bound S Sp Cm) as (_ & B95 & B80). specialize (B95 L).
  destruct (@csv_loop_ok sr p t rest (Some m, Csv.score m) N) as (b & E).
  rewrite E. cbn [bind].
  apply csv_loop_unbeaten in E.
  - subst b. cbn [fst snd].
    pose proof (min_threshold_range p) as T.
    replace (Qle_bool (Csv.min_threshold p) (Csv.score m)) with true
      by (symmetry; apply Qle_bool_iff; lra).
    exists m. split; [reflexivity|].
    destruct Cm as (Fm & Dm & Mm). split; [exact Fm|].
    split; [|lra].
    destruct (Csv.method m) as [| |s] eqn:Em; [reflexivity | |].
    + destruct Mm as (Mm & _). congruence.
    + specialize (B80 s eq_refl). lra.
  - intros f' m' _ C'. cbn [snd].
    destruct (candidate_bound S Sp C') as (_ & B & _). specialize (B L). lra.
Qed.

(** The name ROYAL against the rows NEW ROYAL and ROYAL: the row NEW
    ROYAL is returned. *)
Lemma short_name_first_container_witness :
  exists m,
    Csv.find_csv_fabric_match no_similarity (py "ROYAL")
      [long_royal_row; short_royal_row] (1 # 2) = Ok (Some m) /\
    Csv.fabric m = long_royal_row /\ Csv.method m = Csv.Direct_Substring /\
    (Csv.score m == 95)%Q.
Proof.
  apply (@short_name_first_container no_similarity (py "ROYAL") long_royal_row
           [short_royal_row] (1 # 2)).
  - intros a b. unfold no_similarity. lra.
  - vm_compute. discriminate.
  - vm_compute. lia.
  - vm_compute. reflexivity.
  - vm_compute. lia.
Defined.

(** ** The index of the database items *)

Lemma db_dict_get_same (k : str) (v : Db.DBItem) (ix : Db.db_dict) :
  Db.dict_get k (Db.dict_set k v ix) = Some v.
Proof.
  induction ix as [|[k' v'] ix IH]; simpl.
  - now rewrite eqs_refl.
  - destruct (eqs k' k) eqn:E; simpl; rewrite E; auto.
Qed.

Lemma db_dict_get_other (k k' : str) (v : Db.DBItem) (ix : Db.db_dict) :
  k' <> k -> Db.dict_get k' (Db.dict_set k v ix) = Db.dict_get k' ix.
Proof.
  intro N. induction ix as [|[k0 v0] ix IH]; simpl.
  - destruct (eqs k k') eqn:E; [apply eqs_eq in E; congruence | reflexivity].
  - destruct (eqs k0 k) eqn:E; simpl.
    + apply eqs_eq in E. subst k0.
      destruct (eqs k k') eqn:E'; [apply eqs_eq in E'; congruence | reflexivity].
    + destruct (eqs k0 k'); auto.
Qed.

Lemma db_dict_get_in (k : str) (v : Db.DBItem) (ix : Db.db_dict) :
  Db.dict_get k ix = Some v -> In v (db_values ix).
Proof.
  induction ix as [|[k' v'] ix IH]; simpl; [discriminate|].
  destruct (eqs k' k); [intro H; inversion H; now left | auto].
Qed.

Lemma db_dict_set_values (k : str) (v x : Db.DBItem) (ix : Db.db_dict) :
  In x (db_values (Db.dict_set k v ix)) -> x = v \/ In x (db_values ix).
Proof.
  induction ix as [|[k' v'] ix IH]; simpl.
  - intros [H|[]]; auto.
  - destruct (eqs k' k); simpl; intros [H|H]; auto.
    apply IH in H. tauto.
Qed.

Lemma build_db_index_app (l : list Db.DBItem) (x : Db.DBItem) :
  Db.build_db_index (l ++ [x]) =
  Db.dict_set (Db._norm (Db.material_name x)) x (Db.build_db_index l).
Proof. unfold Db.build_db_index. now rewrite fold_left_app. Qed.

Lemma build_db_index_values (db_items : list Db.DBItem) (v : Db.DBItem) :
  In v (db_values (Db.build_db_index db_items)) -> In v db_items.
Proof.
  induction db_items as [|x l IH] using rev_ind; [intros []|].
  rewrite build_db_index_app. intro H. apply db_dict_set_values in H.
  apply in_or_app. destruct H as [->|H]; [right; now left | left; auto].
Qed.

(** Every item is reachable by its normalised name: the index holds for
    that name an item of the same normalised name. *)
Lemma build_db_index_get (db_items : list Db.DBItem) (x : Db.DBItem) :
  In x db_items ->
  exists y,
    Db.dict_get (Db._norm (Db.material_name x)) (Db.build_db_index db_items)
    = Some y /\
    In y db_items /\
    Db._norm (Db.material_name y) = Db._norm (Db.material_name x).
Proof.
  induction db_items as [|z l IH] using rev_ind; [intros []|].
  intro I. rewrite build_db_index_app.
  destruct (eqs (Db._norm (Db.material_name x)) (Db._norm (Db.material_name z)))
    eqn:E.
  - apply eqs_eq in E. rewrite E, db_dict_get_same.
    exists z. split; [reflexivity|]. split; [|now symmetry].
    apply in_or_app. right. now left.
  - apply eqs_neq in E. rewrite db_dict_get_other by exact E.
    apply in_app_or in I. destruct I as [I|[->|[]]]; [|congruence].
    destruct (IH I) as (y & G & Iy & N). exists y.
    split; [exact G|]. split; [apply in_or_app; now left | exact N].
Qed.

(** ** [best_match] *)

Lemma for_each_invariant_in {A S : Type} (Inv : S -> Prop)
  (body : S -> A -> result S) (l : list A) (s : S) :
  Inv s ->
  (forall s x, In x l -> Inv s -> exists s', body s x = Ok s' /\ Inv s') ->
  exists s', for_each body l s = Ok s' /\ Inv s'.
Proof.
  revert s. induction l as [|x l IH]; intros s I B; simpl.
  - eauto.
  - destruct (B s x (or_introl eq_refl) I) as (s1 & E & I1). rewrite E. simpl.
    apply IH; [assumption|]. intros s0 y Hy. apply B. now right.
Qed.

(** [_token_set_ratio] divides by the size of a union that is not empty. *)
Lemma token_set_ratio_ok (round2 : Q -> Q) (a b : str) :
  exists q, Db._token_set_ratio round2 a b = Ok q.
Proof.
  unfold Db._token_set_ratio. cbv zeta.
  destruct (to_set (split (Db._norm a))) as [|x ta]; [simpl; eauto|].
  destruct (to_set (split (Db._norm b))) as [|y tb]; [simpl; eauto|].
  cbn [FabricMatcher.nonempty negb orb].
  rewrite pdiv_ok; [cbn [bind]; eauto|].
  apply QN_nonzero. discriminate.
Qed.

Lemma best_match_spec (round2 : Q -> Q) (name : str) (db_index : Db.db_dict) :
  exists r,
    Db.best_match round2 name db_index = Ok r /\
    match fst r with
    | Some it => In it (db_values db_index) /\ (80 <= snd r)%Q
    | None => (snd r < 80)%Q
    end.
Proof.
  unfold Db.best_match. cbv zeta.
  destruct (Db.dict_get (Db._norm name) db_index) as [it|] eqn:G.
  - eexists. split; [reflexivity|]. cbn [fst snd].
    split; [now apply db_dict_get_in in G | lra].
  - destruct (@for_each_invariant_in _ _
                (fun b : option Db.DBItem * Q =>
                   match fst b with
                   | Some it => In it (db_values db_index)
                   | None => snd b = 0%Q
                   end)
                (fun (b : option Db.DBItem * Q) (kit : str * Db.DBItem) =>
                   let '(best, scbest) := b in
                   let '(k, it) := kit in
                   sc <- Db._token_set_ratio round2 (Db._norm name) k ;;
                   Ok (if Qltb scbest sc then (Some it, sc) else (best, scbest)))
                db_index (None, 0%Q) eq_refl) as (b & E & Ib).
    + intros [best scbest] [k it] Hin Hb.
      destruct (token_set_ratio_ok round2 (Db._norm name) k) as (sc & ->).
      cbn [bind]. eexists. split; [reflexivity|].
      destruct (Qltb scbest sc); cbn [fst snd]; [|exact Hb].
      unfold db_values. apply in_map_iff. exists (k, it). auto.
    + rewrite E. cbn [bind]. destruct b as [best scbest]. cbn [fst snd] in Ib.
      destruct (Qle_bool 80 scbest) eqn:T; eexists; (split; [reflexivity|]);
        cbn [fst snd].
      * apply Qle_bool_iff in T. destruct best; [auto|].
        subst scbest. lra.
      * now apply Qle_bool_false in T.
Qed.

(** ** Looking up the database items *)

(** The name of an item of the database is always matched exactly, with
    the score 100, to an item of the same normalised name: the key of the
    index and the key of the lookup are the same [_norm] of the name. *)
Theorem db_name_finds_itself (round2 : Q -> Q) (db_items : list Db.DBItem)
  (x : Db.DBItem) :
  In x db_items ->
  exists y,
    Db.best_match round2 (Db.material_name x) (Db.build_db_index db_items)
    = Ok (Some y, 100%Q) /\
    In y db_items /\
    Db._norm (Db.material_name y) = Db._norm (Db.material_name x).
Proof.
  intro I. destruct (build_db_index_get db_items x I) as (y & G & Iy & N).
  exists y. unfold Db.best_match. cbv zeta. rewrite G. auto.
Qed.

(** The first item of [db_catalogue] is found under the name of the third,
    which has the same normalised name and comes later. *)
Lemma db_name_finds_itself_witness :
  exists y,
    Db.best_match no_rounding (py "New_Royal") (Db.build_db_index db_catalogue)
    = Ok (Some y, 100%Q) /\
    In y db_catalogue /\
    Db._norm (Db.material_name y) = Db._norm (py "New_Royal").
Proof.
  apply (@db_name_finds_itself no_rounding db_catalogue
           (Db.mkItem (py "New_Royal") (Some 549%Q))).
  left. reflexivity.
Defined.

(** [best_match] raises nothing, whatever the rounding; it returns an item
    only with a score of 80 or more, and the item is one of the database. *)
Theorem best_match_threshold (round2 : Q -> Q) (name : str)
  (db_items : list Db.DBItem) :
  exists r,
    Db.best_match round2 name (Db.build_db_index db_items) = Ok r /\
    match fst r with
    | Some it => In it db_items /\ (80 <= snd r)%Q
    | None => (snd r < 80)%Q
    end.
Proof.
  destruct (best_match_spec round2 name (Db.build_db_index db_items))
    as (r & E & H).
  exists r. split; [exact E|].
  destruct (fst r) as [it|]; [|exact H].
  destruct H as (I & T). split; [now apply build_db_index_values | exact T].
Qed.

(** ** [compare] *)

Lemma compare_line_spec (round2 : Q -> Q) (double : Q -> float) (tol : float)
  (db_items : list Db.DBItem) (il : Parser.InvoiceLine) :
  exists row,
    Db.compare_line round2 double tol (Db.build_db_index db_items) il = Ok row /\
    row_of_line double tol db_items il row.
Proof.
  unfold Db.compare_line.
  destruct (best_match_threshold round2 (Parser.material_name il) db_items)
    as ([db_it sc] & -> & H).
  cbn [bind fst snd] in *.
  destruct db_it as [it|].
  - destruct H as (I & T).
    destruct (Parser.rate il) as [inv_rate|] eqn:Er;
      destruct (Db.default_purchase_price it) as [db_rate|] eqn:Ed.
    + destruct (abs (double inv_rate - double db_rate)
                <=? double db_rate * tol)%float eqn:K;
        eexists; (split; [reflexivity|]);
        (split; [reflexivity|]); (split; [reflexivity|]);
        (split; [cbn [Db.rate]; now rewrite Er|]); right; exists it;
        cbn [Db.db_name Db.db_rate Db.status Db.rate];
        (split; [exact I|]); (split; [reflexivity|]);
        (split; [now rewrite Ed|]).
      * left. split; [reflexivity|]. exists inv_rate, db_rate.
        split; [reflexivity|]. split; [reflexivity|]. exact K.
      * right. split; [reflexivity|]. intros a b Ha Hb W.
        inversion Ha; inversion Hb; subst. unfold within_tolerance in W.
        congruence.
    + eexists. split; [reflexivity|].
      split; [reflexivity|]. split; [reflexivity|].
      split; [cbn [Db.rate]; now rewrite Er|]. right. exists it.
      cbn [Db.db_name Db.db_rate Db.status Db.rate].
      split; [exact I|]. split; [reflexivity|]. split; [now rewrite Ed|].
      right. split; [reflexivity|]. intros a b Ha Hb. cbn in Ha, Hb. congruence.
    + eexists. split; [reflexivity|].
      split; [reflexivity|]. split; [reflexivity|].
      split; [cbn [Db.rate]; now rewrite Er|]. right. exists it.
      cbn [Db.db_name Db.db_rate Db.status Db.rate].
      split; [exact I|]. split; [reflexivity|]. split; [now rewrite Ed|].
      right. split; [reflexivity|]. intros a b Ha Hb. cbn in Ha, Hb. congruence.
    + eexists. split; [reflexivity|].
      split; [reflexivity|]. split; [reflexivity|].
      split; [cbn [Db.rate]; now rewrite Er|]. right. exists it.
      cbn [Db.db_name Db.db_rate Db.status Db.rate].
      split; [exact I|]. split; [reflexivity|]. split; [now rewrite Ed|].
      right. split; [reflexivity|]. intros a b Ha Hb. cbn in Ha, Hb. congruence.
  - eexists. split; [reflexivity|].
    split; [reflexivity|]. split; [reflexivity|]. split; [reflexivity|].
    left. cbn [Db.db_name Db.db_rate Db.status Db.score]. auto.
Qed.

Lemma compare_loop (round2 : Q -> Q) (double : Q -> float) (tol : float)
  (db_items : list Db.DBItem) (inv_lines : list Parser.InvoiceLine)
  (rows0 : list Db.MatchRow) :
  exists rows,
    for_each (fun rows il =>
                row <- Db.compare_line round2 double tol
                         (Db.build_db_index db_items) il ;;
                Ok (rows ++ [row]))
             inv_lines rows0 = Ok (rows0 ++ rows) /\
    Forall2 (row_of_line double tol db_items) inv_lines rows.
Proof.
  revert rows0. induction inv_lines as [|il l IH]; intro rows0; cbn [for_each].
  - exists []. rewrite app_nil_r. split; [reflexivity | constructor].
  - destruct (compare_line_spec round2 double tol db_items il) as (row & -> & R).
    cbn [bind]. destruct (IH (rows0 ++ [row])) as (rows & -> & F).
    exists (row :: rows). rewrite <- app_assoc. split; [reflexivity|].
    now constructor.
Qed.

(** [compare] raises what the conversion of the environment variable
    RATE_TOLERANCE_PCT (0.10 when unset) to a float raises, and nothing
    else. Otherwise it returns one row for each invoice line, in order; a
    row carries the name, quantity and rate of its line; its status is NOT
    FOUND when no item reached the score 80, MATCH when both rates are
    present and the binary64 test [abs(inv_rate - db_rate) <= db_rate * tol]
    holds, MISMATCH otherwise. *)
Theorem compare_one_row_per_line (round2 : Q -> Q)
  (float_of_str : str -> result float) (double : Q -> float)
  (RATE_TOLERANCE_PCT : option str)
  (inv_lines : list Parser.InvoiceLine) (db_items : list Db.DBItem) :
  match float_of_str (Db.getenv RATE_TOLERANCE_PCT (py "0.10")) with
  | Raise e =>
      Db.compare round2 float_of_str double RATE_TOLERANCE_PCT inv_lines db_items
      = Raise e
  | Ok tol =>
      exists rows,
        Db.compare round2 float_of_str double RATE_TOLERANCE_PCT inv_lines
                   db_items = Ok rows /\
        Forall2 (row_of_line double tol db_items) inv_lines rows
  end.
Proof.
  unfold Db.compare.
  destruct (float_of_str (Db.getenv RATE_TOLERANCE_PCT (py "0.10")))
    as [tol|e]; cbn [bind]; [|reflexivity].
  destruct (compare_loop round2 double tol db_items inv_lines [])
    as (rows & E & F).
  exists rows. split; [exact E | exact F].
Qed.

(** With the rates 1.10 and 1.0 and the default tolerance the difference
    of the binary64 numbers is 0.10000000000000009, above the tolerated
    0.1: the row is a MISMATCH, where exact arithmetic finds the rates
    within the tolerance. *)
Lemma compare_tolerance_is_rounded :
  Db.compare no_rounding (fun _ => Ok 0.1%float) decimal_double None
    [Parser.mkLine (py "New Royal") (Some 1%Q) (Some 1.10%Q) (Some 1.10%Q)]
    [Db.mkItem (py "New Royal") (Some 1.0%Q)] =
  Ok [Db.mkRow (py "New Royal") (Some 1%Q) (Some 1.10%Q)
               (Some (py "New Royal")) (Some 1.0%Q) 100%Q "❌ MISMATCH"] /\
  (Qabs (1.10 - 1.0) <= 1.0 * 0.10)%Q.
Proof. split; [vm_compute; reflexivity | vm_compute; discriminate]. Qed.

(** ** [_num] *)

(** [_num] keeps the digits and the points only, so a sign is lost: the
    number it returns is never negative. *)
Theorem num_never_negative (x : str) (q : Q) :
  Db._num (Some x) = Some q -> (0 <= q)%Q.
Proof.
  unfold Db._num. cbv zeta. rewrite re_sub_noneof_delete.
  destruct (filter (set_match false [Dig; Ch "."]) (remove_char "," x))
    as [|c s] eqn:E; [discriminate|].
  destruct (Parser.float (c :: s)) as [q'|e] eqn:F; [|discriminate].
  intro H. inversion H; subst q'. apply (float_nonneg F).
  intros s' Es. inversion Es; subst c.
  assert (I : In "-"%char (filter (set_match false [Dig; Ch "."])
                                  (remove_char "," x)))
    by (rewrite E; now left).
  apply filter_In in I. destruct I as [_ I]. discriminate.
Qed.

(** The round-off -0.48 is read as 0.48. *)
Lemma num_never_negative_witness :
  exists q, Db._num (Some (py "-0.48")) = Some q /\ (q == 48 # 100)%Q /\ (0 <= q)%Q.
Proof.
  eexists. split; [vm_compute; reflexivity|]. split; [reflexivity|].
  apply (@num_never_negative (py "-0.48")). vm_compute. reflexivity.
Defined.

(** ** [pick_invoice_igst] *)

Lemma max_by_spec {A : Type} (key : A -> Q) (l : list A) (x : A) :
  In (Tax.max_by key x l) (x :: l) /\
  forall y, In y (x :: l) -> (key y <= key (Tax.max_by key x l))%Q.
Proof.
  unfold Tax.max_by. revert x. induction l as [|z l IH]; intro x; cbn [fold_left].
  - split; [now left|]. intros y [<-|[]]. lra.
  - destruct (Qltb (key x) (key z)) eqn:E.
    + apply Qltb_true in E. destruct (IH z) as (I & M). split.
      * right. exact I.
      * intros y [<-|H]; [|now apply M].
        specialize (M z (or_introl eq_refl)). lra.
    + apply Qltb_false in E. destruct (IH x) as (I & M). split.
      * destruct I as [I|I]; [now left | right; now right].
      * intros y [<-|[<-|H]].
        -- apply M. now left.
        -- specialize (M x (or_introl eq_refl)). lra.
        -- apply M. now right.
Qed.

Lemma amount_or_0_amount (t : Tax.TaxLine) (a : Q) :
  Tax.amount t = Some a -> (Tax.amount_or_0 t == a)%Q.
Proof.
  intro H. unfold Tax.amount_or_0. rewrite H.
  destruct (truthy a) eqn:E; [reflexivity|].
  apply truthy_false in E. now symmetry.
Qed.

Lemma filter_nil_none {A : Type} (p : A -> bool) (l : list A) :
  filter p l = [] -> forall x, In x l -> p x = false.
Proof.
  intros E x I. destruct (p x) eqn:P; [|reflexivity].
  assert (H : In x (filter p l)) by (apply filter_In; auto).
  rewrite E in H. destruct H.
Qed.

(** [pick_invoice_igst] returns nothing for an empty list only. Of lines
    some of which carry an amount it returns one with the greatest amount;
    of lines without any amount it returns the last. *)
Theorem pick_invoice_igst_greatest (igst_lines : list Tax.TaxLine) :
  match Tax.pick_invoice_igst igst_lines with
  | None => igst_lines = []
  | Some t =>
      In t igst_lines /\
      ((exists a,
           Tax.amount t = Some a /\
           forall u b, In u igst_lines -> Tax.amount u = Some b -> (b <= a)%Q) \/
       ((forall u, In u igst_lines -> Tax.amount u = None) /\
        exists before, igst_lines = before ++ [t]))
  end.
Proof.
  destruct igst_lines as [|first rest]; [reflexivity|].
  unfold Tax.pick_invoice_igst. cbv zeta.
  remember (first :: rest) as igst_lines eqn:El.
  assert (Ne : igst_lines <> []) by (rewrite El; discriminate).
  clear El.
  destruct (filter (fun t => Parser.is_some (Tax.amount t)) igst_lines)
    as [|x l] eqn:F.
  - pose proof (app_removelast_last first Ne) as E. split.
    + rewrite E at 2. apply in_or_app. right. now left.
    + right. split.
      * intros u I. apply (filter_nil_none _ _ F) in I.
        destruct (Tax.amount u); [discriminate | reflexivity].
      * exists (removelast igst_lines). exact E.
  - destruct (max_by_spec Tax.amount_or_0 l x) as (I & M).
    rewrite <- F in I, M.
    apply filter_In in I. destruct I as (I & S). split; [exact I|]. left.
    destruct (Tax.amount (Tax.max_by Tax.amount_or_0 x l)) as [a|] eqn:Ea;
      [|discriminate].
    exists a. split; [reflexivity|]. intros u b Iu Eu.
    assert (Fu : In u (filter (fun t => Parser.is_some (Tax.amount t)) igst_lines))
      by (apply filter_In; split; [exact Iu | now rewrite Eu]).
    apply M in Fu.
    rewrite (amount_or_0_amount _ Eu), (amount_or_0_amount _ Ea) in Fu.
    exact Fu.
Qed.

(** ** [allowed_file] *)

Lemma split_on_nonempty (sep : ascii) (cur s : str) : split_on sep cur s <> [].
Proof.
  revert cur. induction s as [|c s IH]; intro cur; simpl; [discriminate|].
  destruct (eqc c sep); [discriminate | apply IH].
Qed.

Lemma last_cons_nonempty {A : Type} (x : A) (l : list A) (d : A) :
  l <> [] -> last (x :: l) d = last l d.
Proof. destruct l; [congruence | reflexivity]. Qed.

Lemma last_split_on (sep : ascii) (a b cur : str) :
  ~ In sep b -> last (split_on sep cur (a ++ sep :: b)) [] = b.
Proof.
  intro N. revert cur. induction a as [|c a IH]; intro cur; cbn [app split_on].
  - unfold eqc. rewrite Ascii.eqb_refl.
    rewrite last_cons_nonempty by apply split_on_nonempty.
    now rewrite (@split_on_absent sep b [] N).
  - destruct (eqc c sep); [|apply IH].
    rewrite last_cons_nonempty by apply split_on_nonempty. apply IH.
Qed.

Lemma point_in_name (a b : str) : existsb (eqc ".") (a ++ "."%char :: b) = true.
Proof. rewrite existsb_app. simpl. apply orb_true_r. Qed.

(** Only what follows the last point of the file name counts, whatever
    its case: a name is allowed exactly when that extension, in lower
    case, is one of the eight allowed ones. *)
Theorem allowed_file_last_extension (stem ext : str) :
  ~ In "."%char ext ->
  Upload.allowed_file (stem ++ "."%char :: ext) =
  mem (lower ext) Upload.ALLOWED_EXTENSIONS.
Proof.
  intro N. unfold Upload.allowed_file, Upload.after_last_point, split_char.
  now rewrite point_in_name, (@last_split_on "." stem ext [] N).
Qed.

(** invoice.final.PDF is allowed, invoice.pdf.exe is not. *)
Lemma allowed_file_last_extension_witness :
  Upload.allowed_file (py "invoice.final.PDF") = true /\
  Upload.allowed_file (py "invoice.pdf.exe") = false.
Proof.
  split.
  - change (Upload.allowed_file (py "invoice.final" ++ "."%char :: py "PDF") = true).
    rewrite (@allowed_file_last_extension (py "invoice.final") (py "PDF")).
    + reflexivity.
    + vm_compute. intuition discriminate.
  - change (Upload.allowed_file (py "invoice.pdf" ++ "."%char :: py "exe") = false).
    rewrite (@allowed_file_last_extension (py "invoice.pdf") (py "exe")).
    + reflexivity.
    + vm_compute. intuition discriminate.
Defined.

(** ** The scores of the strategies *)

Lemma QN_S (n : nat) : (QN (S n) == QN n + 1)%Q.
Proof.
  unfold QN. rewrite Nat2Z.inj_succ. unfold Z.succ.
  rewrite inject_Z_plus. reflexivity.
Qed.

(** Every keyword counted adds at most 25 points. *)
Lemma keyword_pass_bound (class : list str) (points : Q)
  (parsed_tokens db_tokens : list str) (acc : Q * nat) :
  (0 <= points <= 25)%Q ->
  (0 <= fst acc <= 25 * QN (snd acc))%Q ->
  (0 <= fst (keyword_pass class points parsed_tokens db_tokens acc)
   <= 25 * QN (snd (keyword_pass class points parsed_tokens db_tokens acc)))%Q.
Proof.
  intro P. unfold keyword_pass. revert acc.
  induction parsed_tokens as [|t l IH]; intros [score total] B; cbn [fold_left].
  - exact B.
  - apply IH. cbn [fst snd] in *.
    destruct (mem t class); [|exact B].
    pose proof (QN_S total) as S.
    destruct (mem t db_tokens); cbn [fst snd]; lra.
Qed.

(** Tokens that are not of the class leave the count as it is. *)
Lemma keyword_pass_none (class : list str) (points : Q)
  (parsed_tokens db_tokens : list str) (acc : Q * nat) :
  (forall t, In t parsed_tokens -> mem t class = false) ->
  keyword_pass class points parsed_tokens db_tokens acc = acc.
Proof.
  unfold keyword_pass. revert acc.
  induction parsed_tokens as [|t l IH]; intros [score total] N; cbn [fold_left].
  - reflexivity.
  - rewrite (N t (or_introl eq_refl)). apply IH. intros u Hu. apply N. now right.
Qed.

Lemma semantic_scores_range (pt : list str) (k : str) :
  exists l, semantic_scores pt k = Ok l /\
            forall s, In s l -> (0 <= s <= 2500)%Q.
Proof.
  unfold semantic_scores. cbv zeta.
  set (dt := tokenize_string k).
  pose proof (@keyword_pass_bound fabric_types 25 pt dt (0%Q, 0)) as B1.
  set (a1 := keyword_pass fabric_types 25 pt dt (0%Q, 0)) in *.
  pose proof (@keyword_pass_bound colors 20 pt dt a1) as B2.
  set (a2 := keyword_pass colors 20 pt dt a1) in *.
  pose proof (@keyword_pass_bound patterns 15 pt dt a2) as B3.
  destruct (keyword_pass patterns 15 pt dt a2) as [score total].
  cbn [fst snd] in B3.
  assert (B : (0 <= score <= 25 * QN total)%Q).
  { apply B3; [lra|]. apply B2; [lra|]. apply B1; [lra|].
    cbn [fst snd]. change (QN 0) with 0%Q. lra. }
  destruct (0 <? total) eqn:T.
  - apply Nat.ltb_lt in T.
    assert (P : (0 < QN total)%Q) by (apply QN_pos; lia).
    rewrite pdiv_ok by lra. cbn [bind]. eexists. split; [reflexivity|].
    intros s [<-|[]].
    assert (R1 : (0 <= score / QN total)%Q) by (apply Qle_shift_div_l; lra).
    assert (R2 : (score / QN total <= 25)%Q) by (apply Qle_shift_div_r; lra).
    lra.
  - eexists. split; [reflexivity|]. intros s [].
Qed.

Lemma semantic_scores_no_keyword (pt : list str) (k : str) :
  (forall t, In t pt -> mem t keywords = false) ->
  semantic_scores pt k = Ok [].
Proof.
  intro N. unfold semantic_scores. cbv zeta.
  assert (M : forall class, incl class keywords ->
                            forall t, In t pt -> mem t class = false).
  { intros class I t Ht. apply mem_false. intro C.
    specialize (N t Ht). apply mem_false in N. apply N, I, C. }
  rewrite (@keyword_pass_none fabric_types);
    [|apply M; unfold keywords; apply incl_appl, incl_refl].
  rewrite (@keyword_pass_none colors);
    [|apply M; unfold keywords; apply incl_appr, incl_appl, incl_refl].
  rewrite (@keyword_pass_none patterns);
    [|apply M; unfold keywords; apply incl_appr, incl_appr, incl_refl].
  reflexivity.
Qed.

(** The outcome of a scan whose scores are bounded. *)
Lemma scan_range (sc : scoring) (ix : index) (t hi : Q) (b : best) :
  (0 <= hi)%Q ->
  (forall k l s, sc k = Ok l -> In s l -> (s <= hi)%Q) ->
  (c <- candidates sc ix ;; Ok (above t (fold_left keep c best0))) = Ok (Some b) ->
  (t <= snd b <= hi)%Q.
Proof.
  intros H0 B E.
  destruct (candidates sc ix) as [c|e] eqn:C; [|discriminate].
  cbn [bind] in E. inversion E as [A]. apply above_some in A.
  destruct A as (-> & T). split; [exact T|].
  destruct (fold_keep_spec c best0) as (_ & _ & [->|(x & I & ->)]).
  - exact H0.
  - cbn [snd].
    assert (S : In (snd x) (map snd c)) by now apply in_map.
    apply (candidates_scores _ _ C) in S. destruct S as (k & l & _ & El & Il).
    now apply (B k l).
Qed.

Lemma scan_total (sc : scoring) (ix : index) (t : Q) :
  (forall k, exists l, sc k = Ok l) ->
  exists r, (c <- candidates sc ix ;; Ok (above t (fold_left keep c best0))) = Ok r.
Proof.
  intro K.
  destruct (proj2 (candidates_ok_iff sc ix) (fun k _ => K k)) as (c & ->).
  cbn [bind]. eauto.
Qed.

Lemma inter_length_le (a b : list str) : length (inter a b) <= length (union a b).
Proof.
  unfold inter, union. rewrite length_app.
  pose proof (filter_length_le (fun x => mem x b) a). lia.
Qed.

Lemma pdiv_overlap_le_1 (a b : list str) (r : Q) :
  pdiv (QN (length (inter a b))) (QN (length (union a b))) = Ok r -> (r <= 1)%Q.
Proof.
  unfold pdiv. destruct (Qeq_bool _ 0); [discriminate|].
  intro H. inversion H. apply QN_ratio_le_1, inter_length_le.
Qed.

Lemma substring_scores_cap (np : str) (pt : list str) (k : str) (l : list Q)
  (s : Q) :
  substring_scores np pt k = Ok l -> In s l -> (s <= 95)%Q.
Proof.
  unfold substring_scores. cbv zeta.
  destruct (contains np k).
  - destruct (pdiv (QN (length np)) (QN (length k))) as [r|e]; cbn [bind];
      [|discriminate].
    destruct (nonempty pt && nonempty (to_set (tokenize_string k))); cbn [bind].
    + destruct (0 <? _).
      * destruct (pdiv _ _) as [r2|e] eqn:E2; cbn [bind]; [|discriminate].
        apply pdiv_overlap_le_1 in E2.
        intro H. inversion H; subst l. intros [<-|[<-|[]]];
          [apply Q.le_min_l | lra].
      * intro H. inversion H; subst l. intros [<-|[]]. apply Q.le_min_l.
    + intro H. inversion H; subst l. intros [<-|[]]. apply Q.le_min_l.
  - destruct (contains k np).
    + destruct (pdiv (QN (length k)) (QN (length np))) as [r|e]; cbn [bind];
        [|discriminate].
      destruct (nonempty pt && nonempty (to_set (tokenize_string k))); cbn [bind].
      * destruct (0 <? _).
        -- destruct (pdiv _ _) as [r2|e] eqn:E2; cbn [bind]; [|discriminate].
           apply pdiv_overlap_le_1 in E2.
           intro H. inversion H; subst l. intros [<-|[<-|[]]];
             [apply Q.le_min_l | lra].
        -- intro H. inversion H; subst l. intros [<-|[]]. apply Q.le_min_l.
      * intro H. inversion H; subst l. intros [<-|[]]. apply Q.le_min_l.
    + cbn [bind].
      destruct (nonempty pt && nonempty (to_set (tokenize_string k))); cbn [bind].
      * destruct (0 <? _).
        -- destruct (pdiv _ _) as [r2|e] eqn:E2; cbn [bind]; [|discriminate].
           apply pdiv_overlap_le_1 in E2.
           intro H. inversion H; subst l. intros [<-|[]]. lra.
        -- intro H. inversion H; subst l. intros [].
      * intro H. inversion H; subst l. intros [].
Qed.

Lemma prefix_scores_cap (np : str) (pt : list str) (k : str) (l : list Q)
  (s : Q) :
  prefix_scores np pt k = Ok l -> In s l -> (s <= 95)%Q.
Proof.
  unfold prefix_scores. cbv zeta.
  destruct (contains np _ || contains _ np).
  - destruct (pdiv (QN (length np)) _) as [r|e]; cbn [bind]; [|discriminate].
    destruct (nonempty pt && nonempty (to_set (tokenize_string k))); cbn [bind].
    + destruct (nonempty (filter _ _)).
      * destruct (2 <=? _).
        -- destruct (pdiv _ _) as [r2|e] eqn:E2; cbn [bind]; [|discriminate].
           apply pdiv_overlap_le_1 in E2.
           intro H. inversion H; subst l. intros [<-|[<-|[]]];
             [apply Q.le_min_l | lra].
        -- intro H. inversion H; subst l. intros [<-|[]]. apply Q.le_min_l.
      * intro H. inversion H; subst l. intros [<-|[]]. apply Q.le_min_l.
    + intro H. inversion H; subst l. intros [<-|[]]. apply Q.le_min_l.
  - cbn [bind].
    destruct (nonempty pt && nonempty (to_set (tokenize_string k))); cbn [bind].
    + destruct (nonempty (filter _ _)).
      * destruct (2 <=? _).
        -- destruct (pdiv _ _) as [r2|e] eqn:E2; cbn [bind]; [|discriminate].
           apply pdiv_overlap_le_1 in E2.
           intro H. inversion H; subst l. intros [<-|[]]. lra.
        -- intro H. inversion H; subst l. intros [].
      * intro H. inversion H; subst l. intros [].
    + intro H. inversion H; subst l. intros [].
Qed.

(** ** The semantic strategy *)

(** [semantic_match] raises nothing: it divides by the number of keywords
    only when there is one. When no token of the parsed name is a fabric
    type, a colour or a pattern of its lists, it matches nothing, whatever
    the catalogue. *)
Theorem semantic_match_needs_keyword (ix : index) (name : str) :
  exists r,
    semantic_match ix name = Ok r /\
    ((forall t, In t (tokenize_string name) -> mem t keywords = false) ->
     r = None).
Proof.
  rewrite semantic_match_candidates.
  destruct (@scan_total (semantic_scores (tokenize_string name)) ix 50)
    as (r & E).
  { intro k. destruct (semantic_scores_range (tokenize_string name) k)
      as (l & El & _). eauto. }
  exists r. split; [exact E|]. intro N.
  destruct (candidates (semantic_scores (tokenize_string name)) ix)
    as [c|e] eqn:C; [|discriminate].
  cbn [bind] in E. inversion E as [A]. clear E.
  assert (Z : c = []).
  { destruct c as [|x c']; [reflexivity|].
    assert (S : In (snd x) (map snd (x :: c'))) by (left; reflexivity).
    apply (candidates_scores _ _ C) in S. destruct S as (k & l & _ & El & Il).
    rewrite (semantic_scores_no_keyword _ k N) in El. inversion El; subst l.
    destruct Il. }
  subst c. reflexivity.
Qed.

(** The name NEW ROYAL has no keyword. *)
Lemma semantic_match_needs_keyword_witness :
  semantic_match (_build_index [silk_cloth; red_silk]) (py "NEW ROYAL") = Ok None.
Proof.
  destruct (semantic_match_needs_keyword (_build_index [silk_cloth; red_silk])
                                         (py "NEW ROYAL")) as (r & E & N).
  rewrite E. f_equal. apply N.
  vm_compute. intros t [<-|[<-|[]]]; reflexivity.
Defined.

(** ** The ranges of the scores *)

Section Ranges.

Variable seq_ratio : str -> str -> Q.
Variable jaro_winkler_similarity : str -> str -> Q.
Variable levenshtein_distance : str -> str -> nat.
Variables fuzz_ratio fuzz_partial fuzz_token_sort fuzz_token_set
  : str -> str -> nat.

Local Abbreviation match_fabric' :=
  (match_fabric seq_ratio jaro_winkler_similarity levenshtein_distance
                fuzz_ratio fuzz_partial fuzz_token_sort fuzz_token_set).

Ltac other_algorithm H :=
  let A := fresh "A" in
  apply create_fields in H; destruct H as (_ & _ & A & _);
  repeat split; intro; congruence.

Ltac this_algorithm H b :=
  let D := fresh "D" in let S := fresh "S" in let A := fresh "A" in
  apply create_fields in H; destruct H as (D & S & A & _);
  rewrite D, S; unfold fabric_of, score_of; destruct b;
  repeat split; intro; solve [reflexivity | congruence].

(** The strategy that the algorithm of a result names returned the entry
    and the score of the result. *)
Lemma match_fabric_strategy (ix : index) (parsed : ParsedFabric)
  (r : MatchResult) :
  match_fabric' ix parsed = Ok r ->
  (match_algorithm r = "PREFIX_BASED_MATCH"%string ->
   prefix_based_match ix (FabricMatcher.material_name parsed) =
   Ok (Some (database_fabric r, match_score r))) /\
  (match_algorithm r = "SUBSTRING_MATCH"%string ->
   substring_match ix (FabricMatcher.material_name parsed) =
   Ok (Some (database_fabric r, match_score r))) /\
  (match_algorithm r = "SEMANTIC_MATCH"%string ->
   semantic_match ix (FabricMatcher.material_name parsed) =
   Ok (Some (database_fabric r, match_score r))).
Proof.
  unfold match_fabric. intro H.
  destruct (exact_match ix _) as [b|]; [other_algorithm H|].
  destruct (prefix_based_match ix _) as [[b|]|e]; cbn [bind] in H;
    [this_algorithm H b | | discriminate].
  destruct (substring_match ix _) as [[b|]|e]; cbn [bind] in H;
    [this_algorithm H b | | discriminate].
  destruct (fuzzy_match _ _ _ _ _ _ _ ix _) as [[b|]|e]; cbn [bind] in H;
    [other_algorithm H | | discriminate].
  destruct (semantic_match ix _) as [[b|]|e]; cbn [bind] in H;
    [this_algorithm H b | | discriminate].
  other_algorithm H.
Qed.

(** A result of the prefix strategy scores between 70 and 95, one of the
    substring strategy between 60 and 95; one of the semantic strategy
    scores between 50 and 2500: 25 points for each keyword, divided by
    the number of keywords and multiplied by 100, is not a percentage. *)
Theorem match_score_ranges (ix : index) (parsed : ParsedFabric)
  (r : MatchResult) :
  match_fabric' ix parsed = Ok r ->
  (match_algorithm r = "PREFIX_BASED_MATCH"%string ->
   (70 <= match_score r <= 95)%Q) /\
  (match_algorithm r = "SUBSTRING_MATCH"%string ->
   (60 <= match_score r <= 95)%Q) /\
  (match_algorithm r = "SEMANTIC_MATCH"%string ->
   (50 <= match_score r <= 2500)%Q).
Proof.
  intro H. apply match_fabric_strategy in H. destruct H as (P & S & M).
  split; [|split]; intro A.
  - specialize (P A). rewrite prefix_match_candidates in P.
    apply (@scan_range _ _ 70 95) in P; [exact P | lra |].
    intros k l s. apply prefix_scores_cap.
  - specialize (S A). rewrite substring_match_candidates in S.
    apply (@scan_range _ _ 60 95) in S; [exact S | lra |].
    intros k l s. apply substring_scores_cap.
  - specialize (M A). rewrite semantic_match_candidates in M.
    apply (@scan_range _ _ 50 2500) in M; [exact M | lra |].
    intros k l s El Il.
    destruct (semantic_scores_range (tokenize_string
                (FabricMatcher.material_name parsed)) k) as (l' & El' & B).
    rewrite El in El'. inversion El'; subst l'. now apply B.
Qed.

End Ranges.

(** The name silk blue against the entry fine silk cloth: one keyword of
    two is found, and the score of the semantic match is 1250. *)
Lemma match_score_ranges_witness :
  exists r,
    match_fabric no_similarity no_similarity no_distance no_distance
                 no_distance no_distance no_distance
                 (_build_index [silk_cloth]) (fabric_named (py "silk blue"))
    = Ok r /\
    match_algorithm r = "SEMANTIC_MATCH"%string /\
    (match_score r == 1250)%Q /\ (50 <= match_score r <= 2500)%Q.
Proof.
  destruct (match_fabric no_similarity no_similarity no_distance no_distance
              no_distance no_distance no_distance
              (_build_index [silk_cloth]) (fabric_named (py "silk blue")))
    as [r|e] eqn:E; [|vm_compute in E; discriminate].
  exists r. split; [reflexivity|].
  pose proof (@match_score_ranges no_similarity no_similarity no_distance
                no_distance no_distance no_distance no_distance
                (_build_index [silk_cloth]) (fabric_named (py "silk blue")) r E)
    as (_ & _ & M).
  vm_compute in E. inversion E; subst r.
  split; [reflexivity|]. split; [reflexivity|]. apply M. reflexivity.
Defined.

(** ** What a substitution leaves *)

(** A substitution writes characters of the text and of the replacement
    only. *)
Lemma sub_from_chars (P : ascii -> Prop) (ic : bool) (r : re) (repl : str)
  (fuel : nat) (p t : str) :
  Forall P t -> Forall P repl -> Forall P (sub_from fuel ic r repl p t).
Proof.
  intros Ht Hr. revert p t Ht.
  induction fuel as [|n IH]; intros p t Ht; [exact Ht|].
  cbn [sub_from].
  assert (Hs : Forall P match t with
                        | [] => []
                        | c :: t' => c :: sub_from n ic r repl (c :: p) t'
                        end).
  { destruct t as [|c t']; [constructor|].
    inversion Ht; subst. constructor; [assumption | now apply IH]. }
  destruct (match_here ic r p t) as [m|] eqn:M; [|exact Hs].
  destruct (length (Re.rest (m_end m)) <? length t); [|exact Hs].
  apply Forall_app. split; [exact Hr|]. apply IH.
  apply match_here_run in M. destruct M as (_ & M).
  apply run_text in M. destruct M as (w & _ & E & _). cbn [Re.rest] in E.
  rewrite E in Ht. apply Forall_app in Ht. tauto.
Qed.

Lemma re_sub_chars (P : ascii -> Prop) (ic : bool) (r : re) (repl s : str) :
  Forall P s -> Forall P repl -> Forall P (re_sub ic r repl s).
Proof. intros. now apply sub_from_chars. Qed.

Lemma iter_nonempty (n : nat) (f : st -> list st) (s : st) : iter n f s <> [].
Proof.
  destruct n; simpl; [discriminate|].
  intro E. apply app_eq_nil in E. destruct E as [_ E]. discriminate.
Qed.

Lemma run_plus_any (ic : bool) (l : list cls) (p : str) (c : ascii) (t : str)
  (cs : list (nat * str)) :
  run ic (Plus (Any l)) (mkst p (c :: t) cs) =
  if set_match ic l c
  then star_of (run ic (Any l)) (mkst (c :: p) t cs) else [].
Proof.
  unfold Plus. cbn [run exactly eat Re.rest Re.pre Re.caps].
  destruct (set_match ic l c); cbn [flat_map app]; [|reflexivity].
  now rewrite !app_nil_r.
Qed.

(** A run of characters of a class is replaced wherever it starts: what a
    substitution of [[...]+] leaves is outside the class or comes from the
    replacement. *)
Lemma sub_from_plus_class (ic : bool) (l : list cls) (repl : str) (fuel : nat)
  (p t : str) :
  length t < fuel ->
  Forall (fun c => set_match ic l c = false \/ In c repl)
         (sub_from fuel ic (Plus (Any l)) repl p t).
Proof.
  revert p t. induction fuel as [|n IH]; intros p t L; [lia|].
  destruct t as [|c t'].
  - cbn. constructor.
  - simpl in L. cbn [sub_from]. unfold match_here. rewrite run_plus_any.
    destruct (set_match ic l c) eqn:C.
    + destruct (star_of (run ic (Any l)) (mkst (c :: p) t' [])) as [|e es] eqn:E.
      { exfalso. unfold star_of in E. now apply iter_nonempty in E. }
      assert (R : reach (fun _ => True) (mkst (c :: p) t' []) e).
      { apply (@star_of_reach (fun _ => True) (run ic (Any l))).
        - intros s s'. apply run_text.
        - rewrite E. now left. }
      apply reach_shorter in R. cbn [Re.rest] in R.
      cbn [m_end length].
      replace (length (Re.rest e) <? S (length t')) with true
        by (symmetry; apply Nat.ltb_lt; lia).
      apply Forall_app. split.
      * apply Forall_forall. intros x Hx. now right.
      * apply IH. lia.
    + constructor; [now left|]. apply IH. lia.
Qed.

Lemma re_sub_plus_class (ic : bool) (l : list cls) (repl s : str) :
  Forall (fun c => set_match ic l c = false \/ In c repl)
         (re_sub ic (Plus (Any l)) repl s).
Proof. unfold re_sub. apply sub_from_plus_class. lia. Qed.

(** What a substitution of one excluded class leaves is of the class or
    comes from the replacement. *)
Lemma re_sub_noneof_class (ic : bool) (l : list cls) (repl s : str) :
  Forall (fun c => set_match ic l c = true \/ In c repl)
         (re_sub ic (NoneOf l) repl s).
Proof.
  unfold re_sub. rewrite sub_from_noneof by lia.
  induction s as [|c s IH]; cbn [flat_map]; [constructor|].
  apply Forall_app. split; [|exact IH].
  destruct (set_match ic l c) eqn:C.
  - constructor; [now left | constructor].
  - apply Forall_forall. intros x Hx. now right.
Qed.

(** ** The alphabet of [normalize_string] and [tokenize_string] *)

Lemma lower_not_upper (c : ascii) : is_upper (lower_char c) = false.
Proof. each_char c. Qed.

Lemma kept_char_norm (c : ascii) :
  is_upper c = false -> set_match false [Wrd; Spc; Ch "-"] c = true ->
  set_match false [Spc] c = false -> norm_char c = true.
Proof. each_char c. Qed.

Lemma norm_char_token (c : ascii) :
  norm_char c = true -> is_space c = false -> token_char c = true.
Proof. each_char c. Qed.

Lemma lower_space (c : ascii) : is_space c = true -> is_space (lower_char c) = true.
Proof. each_char c. Qed.

(** The fields of [s.split()] hold no white space. *)
Lemma split_ws_chars (P : ascii -> Prop) (s cur : str) :
  Forall P s -> Forall (fun c => P c /\ is_space c = false) cur ->
  Forall (Forall (fun c => P c /\ is_space c = false)) (split_ws cur s).
Proof.
  revert cur. induction s as [|c s IH]; intros cur Hs Hc; cbn [split_ws].
  - destruct cur; constructor; [now apply Forall_rev | constructor].
  - inversion Hs; subst. destruct (is_space c) eqn:E.
    + destruct cur.
      * apply IH; [assumption | constructor].
      * constructor; [now apply Forall_rev | apply IH; [assumption | constructor]].
    + apply IH; [assumption | constructor; auto].
Qed.

Lemma normalize_string_chars (s : str) :
  Forall (fun c => norm_char c = true) (normalize_string s).
Proof.
  destruct s as [|c0 s0]; [constructor|].
  unfold normalize_string. cbv zeta.
  set (K := fun c => is_upper c = false /\
                     set_match false [Wrd; Spc; Ch "-"] c = true).
  set (N := fun c => is_upper c = false).
  assert (Nsp : Forall N (py " ")) by (repeat constructor).
  assert (Ksp : Forall K (py " ")) by (repeat constructor).
  assert (H0 : Forall N (lower (c0 :: s0))).
  { unfold lower. apply Forall_forall. intros x Hx.
    apply in_map_iff in Hx. destruct Hx as (y & <- & _). apply lower_not_upper. }
  unfold noise_patterns. cbn [fold_left].
  set (s1 := re_sub false _ (py " ") (lower (c0 :: s0))).
  assert (H1 : Forall N s1) by (now apply re_sub_chars).
  set (s2 := re_sub false _ (py " ") s1).
  assert (H2 : Forall N s2) by (now apply re_sub_chars).
  set (s3 := re_sub false _ (py " ") s2).
  assert (H3 : Forall N s3) by (now apply re_sub_chars).
  set (s4 := re_sub false (NoneOf [Wrd; Spc; Ch "-"]) (py " ") s3).
  assert (H4 : Forall K s4).
  { pose proof (@re_sub_chars N false (NoneOf [Wrd; Spc; Ch "-"]) (py " ") s3
                  H3 Nsp) as A.
    pose proof (re_sub_noneof_class false [Wrd; Spc; Ch "-"] (py " ") s3) as B.
    fold s4 in A, B. rewrite Forall_forall in *. intros x Hx. split.
    - now apply A.
    - destruct (B x Hx) as [C|[<-|[]]]; [exact C | reflexivity]. }
  set (s5 := re_sub false (Plus ws) (py " ") s4).
  assert (H5 : Forall K s5) by (now apply re_sub_chars).
  set (s6 := re_sub false (Plus ws) (py " ") s5).
  assert (H6 : Forall (fun c => norm_char c = true) s6).
  { pose proof (@re_sub_chars K false (Plus ws) (py " ") s5 H5 Ksp) as A.
    pose proof (re_sub_plus_class false [Spc] (py " ") s5) as B.
    change (Plus (Any [Spc])) with (Plus ws) in B.
    fold s6 in A, B. rewrite Forall_forall in *. intros x Hx.
    destruct (A x Hx) as (U & C).
    destruct (B x Hx) as [S|[<-|[]]]; [now apply kept_char_norm | reflexivity]. }
  apply re_sub_chars; [|constructor]. now apply strip_forall.
Qed.

(** [normalize_string] returns lower-case letters, digits, underscores,
    hyphens and spaces only (of ASCII input); a token of [tokenize_string]
    has at least two characters, each of them a lower-case letter, a
    digit, an underscore or a hyphen. *)
Theorem normalized_alphabet (s : str) :
  Forall (fun c => norm_char c = true) (normalize_string s) /\
  Forall (fun token => 2 <= length token /\
                       Forall (fun c => token_char c = true) token)
         (tokenize_string s).
Proof.
  split; [apply normalize_string_chars|].
  unfold tokenize_string. cbv zeta. apply Forall_forall. intros t Ht.
  apply filter_In in Ht. destruct Ht as (Ht & L). apply Nat.leb_le in L.
  split; [exact L|].
  pose proof (@split_ws_chars (fun c => norm_char c = true)
                (normalize_string s) [] (normalize_string_chars s)
                (Forall_nil _)) as F.
  rewrite Forall_forall in F. specialize (F t Ht).
  rewrite Forall_forall in *. intros c Hc.
  destruct (F c Hc) as (A & B). now apply norm_char_token.
Qed.

Lemma lstrip_blank (s : str) :
  Forall (fun c => is_space c = true) s -> lstrip s = [].
Proof.
  induction 1 as [|c s Hc Hs IH]; [reflexivity|]. cbn [lstrip]. now rewrite Hc.
Qed.

(** A name of white space only normalises to the empty string and has no
    token. *)
Theorem blank_name_normalizes_to_empty (s : str) :
  Forall (fun c => is_space c = true) s ->
  normalize_string s = [] /\ tokenize_string s = [].
Proof.
  intro B.
  assert (E : normalize_string s = []).
  { destruct s as [|c0 s0]; [reflexivity|].
    unfold normalize_string. cbv zeta.
    set (P := fun c => is_space c = true) in *.
    assert (Psp : Forall P (py " ")) by (repeat constructor).
    assert (H0 : Forall P (lower (c0 :: s0))).
    { unfold lower. rewrite Forall_forall in *. intros x Hx.
      apply in_map_iff in Hx. destruct Hx as (y & <- & Hy).
      apply lower_space. now apply B. }
    unfold noise_patterns. cbn [fold_left].
    match goal with
    | |- context [strip ?x] => assert (H6 : Forall P x)
    end.
    { repeat (apply re_sub_chars; [|exact Psp]). exact H0. }
    unfold strip. rewrite (lstrip_blank H6). reflexivity. }
  split; [exact E|]. unfold tokenize_string. now rewrite E.
Qed.

(** A name of a space, a tabulation and a space. *)
Lemma blank_name_normalizes_to_empty_witness :
  normalize_string [" "; "009"; " "]%char = [] /\
  tokenize_string [" "; "009"; " "]%char = [].
Proof.
  apply blank_name_normalizes_to_empty. repeat constructor.
Defined.

(** ** The items of the Sarom parser *)

Lemma cfd_app (x y : str) (d : bool) :
  commas_follow_digits d (x ++ y) =
  commas_follow_digits d x &&
  commas_follow_digits (fold_left (fun _ c => is_digit c) x d) y.
Proof.
  revert d. induction x as [|c x IH]; intro d;
    cbn [app commas_follow_digits fold_left]; [reflexivity|].
  rewrite IH. now rewrite andb_assoc.
Qed.

Lemma cfd_weaken (d : bool) (t : str) :
  commas_follow_digits false t = true -> commas_follow_digits d t = true.
Proof.
  destruct t as [|c t]; [reflexivity|]. cbn [commas_follow_digits].
  rewrite orb_false_r. intro H. apply andb_true_iff in H.
  destruct H as [H1 H2]. now rewrite H1, H2.
Qed.

Lemma head_digit_rev (w p : str) :
  head_digit (rev w ++ p) = fold_left (fun _ c => is_digit c) w (head_digit p).
Proof.
  revert p. induction w as [|c w IH]; intro p; [reflexivity|].
  cbn [rev fold_left]. rewrite <- app_assoc. cbn [app]. now rewrite IH.
Qed.

Lemma reach_tidy (P : ascii -> Prop) (s s' : st) :
  reach P s s' -> tidy s -> tidy s'.
Proof.
  intros (w & A & B & _) T. unfold tidy in *. rewrite B, cfd_app in T.
  apply andb_true_iff in T. destruct T as [_ T].
  now rewrite A, head_digit_rev.
Qed.

Lemma last_not_digit (w : str) (d : bool) :
  Forall (fun c => is_digit c = false) w ->
  w = [] \/ fold_left (fun _ c => is_digit c) w d = false.
Proof.
  revert d. induction w as [|c w IH]; intros d F; [now left|]. right.
  inversion F as [|? ? Fc Fw]; subst. cbn [fold_left].
  destruct (IH (is_digit c) Fw) as [->|E]; [exact Fc | exact E].
Qed.

(** After characters that are no digits the position follows no digit. *)
Lemma reach_head (s s' : st) :
  reach (fun c => is_digit c = false) s s' ->
  head_digit (pre s) = false \/ length (rest s') < length (rest s) ->
  head_digit (pre s') = false.
Proof.
  intros (w & A & B & F) H. rewrite A, head_digit_rev.
  destruct (last_not_digit (head_digit (pre s)) F) as [->|E]; [|exact E].
  cbn [fold_left]. destruct H as [H|H]; [exact H|].
  rewrite B in H. cbn [app] in H. lia.
Qed.

Lemma digit_or_comma (ic : bool) (x : ascii) :
  set_match ic [Dig; Ch ","] x = true -> is_digit x = true \/ x = ","%char.
Proof.
  destruct ic; destruct x as [[] [] [] [] [] [] [] []]; try discriminate;
    intros _; first [left; reflexivity | right; reflexivity].
Qed.

Lemma space_not_digit (ic : bool) (x : ascii) :
  set_match ic [Spc] x = true -> is_digit x = false.
Proof. destruct ic; each_char x. Qed.

(** [[\d,]+] consumes at least one character, digits and commas only. *)
Lemma plus_amount (ic : bool) (s s' : st) :
  In s' (run ic (Plus (Any [Dig; Ch ","])) s) ->
  exists a, a <> [] /\
            Forall (fun c => is_digit c = true \/ c = ","%char) a /\
            rest s = a ++ rest s'.
Proof.
  intro H. unfold Plus in H. cbn [run exactly] in H. apply in_flat_map in H.
  destruct H as (s1 & H1 & H2). apply in_flat_map in H1.
  destruct H1 as (s2 & H1 & [<-|[]]).
  apply eat_inv in H1. destruct H1 as (c & Dc & Rc & _).
  assert (S : steps (fun c => is_digit c = true \/ c = ","%char)
                    (run ic (Any [Dig; Ch ","]))).
  { apply run_reach. intros x Hx. now apply (digit_or_comma ic). }
  destruct (@star_of_reach _ _ S s2 s' H2) as (w & _ & B & C).
  exists (c :: w). split; [discriminate|]. split.
  - constructor; [now apply (digit_or_comma ic) | exact C].
  - rewrite Rc, B. reflexivity.
Qed.

(** [([\d,]+(?:\.\d+)?)] captures digits and commas, and then perhaps a
    point and digits. *)
Lemma amt_shape (ic : bool) (n : nat) (s s' : st) :
  In s' (run ic (Parser.amt n) s) ->
  exists w, amount_text w /\ rest s = w ++ rest s' /\
            caps s' = (n, w) :: caps s.
Proof.
  intro H. unfold Parser.amt in H.
  destruct (@run_group ic (fun _ => True) n
              (Cat (Plus (Any [Dig; Ch ","])) (Opt (Cat (Lit ".") (Plus d))))
              s s' eq_refl (only_trivial ic _) H)
    as (w & s1 & H1 & _ & R1 & B & _ & _ & K).
  exists w. split; [|auto].
  rewrite R1 in B. clear H K R1 s'.
  rewrite run_cat in H1. apply in_flat_map in H1. destruct H1 as (s2 & H2 & H3).
  apply (plus_amount ic) in H2. destruct H2 as (a & Na & Fa & Ra).
  unfold Opt in H3. cbn [run exactly upto Nat.sub flat_map] in H3.
  rewrite app_nil_r in H3. apply in_app_iff in H3.
  destruct H3 as [H3|[<-|[]]].
  - apply in_flat_map in H3. destruct H3 as (s3 & H3 & [<-|[]]).
    apply in_flat_map in H3. destruct H3 as (s4 & H4 & H5).
    apply eat_inv in H4. destruct H4 as (c & Pc & Rc & _).
    apply point_class in Pc. subst c.
    apply (plus_digits ic) in H5. destruct H5 as (b & Nb & Db & Rb & _).
    exists a, b. split; [exact Na|]. split; [exact Fa|]. split; [exact Db|].
    right. split; [exact Nb|].
    rewrite Ra, Rc, Rb in B.
    apply (app_inv_tail (rest s3)). rewrite <- B, <- app_assoc. reflexivity.
  - exists a, []. split; [exact Na|]. split; [exact Fa|]. split; [reflexivity|].
    left. apply (app_inv_tail (rest s2)). rewrite <- B. exact Ra.
Qed.

Lemma amount_text_chars (w : str) : amount_text w -> Forall amount_char w.
Proof.
  intros (a & b & _ & Fa & Db & W).
  assert (A : Forall amount_char a).
  { rewrite Forall_forall in *. intros x Hx.
    destruct (Fa x Hx) as [D| ->]; [now left | right; now left]. }
  destruct W as [->|[_ ->]]; [exact A|].
  apply Forall_app. split; [exact A|]. constructor; [right; now right|].
  apply digits_forallb in Db. rewrite Forall_forall in *. intros x Hx.
  left. now apply Db.
Qed.

Lemma remove_comma_digits (b : str) :
  forallb is_digit b = true -> remove_char "," b = b.
Proof.
  induction b as [|c b IH]; [reflexivity|]. cbn [forallb]. intro H.
  apply andb_true_iff in H. destruct H as [Dc Db].
  unfold remove_char in *. cbn [filter]. rewrite (digit_not_comma c Dc).
  cbn [negb]. now rewrite IH.
Qed.

Lemma remove_comma_amount (a : str) :
  Forall (fun c => is_digit c = true \/ c = ","%char) a ->
  forallb is_digit (remove_char "," a) = true.
Proof.
  induction 1 as [|c a Hc Ha IH]; [reflexivity|].
  unfold remove_char in *. cbn [filter].
  destruct (eqc c ",") eqn:E; cbn [negb]; [exact IH|].
  cbn [forallb]. rewrite IH, andb_true_r. destruct Hc as [D| ->]; [exact D|].
  discriminate.
Qed.

(** [float] converts an amount that starts with a digit, its commas
    removed. *)
Lemma float_amount_text (w : str) (c : ascii) (t : str) :
  amount_text w -> w = c :: t -> is_digit c = true ->
  exists q, Parser.float (remove_char "," w) = Ok q.
Proof.
  intros (a & b & Na & Fa & Db & W) E Dc.
  assert (D : decimal (remove_char "," w)).
  { exists (remove_char "," a), b.
    split; [|split; [now apply remove_comma_amount | split; [exact Db|]]].
    - destruct a as [|x a']; [congruence|].
      assert (x = c) by (destruct W as [->|[_ ->]]; now inversion E).
      subst x. unfold remove_char. cbn [filter].
      rewrite (digit_not_comma c Dc). discriminate.
    - destruct W as [->|[Nb ->]]; [now left|]. right. split; [exact Nb|].
      unfold remove_char. rewrite filter_app. cbn [filter eqc Ascii.eqb].
      fold (remove_char "," b). rewrite (remove_comma_digits b Db).
      reflexivity. }
  destruct (@float_decimal _ D) as (q & F & _). eauto.
Qed.

(** *** Matches of a sequence of pieces *)

Lemma run_seq_cons (ic : bool) (r : re) (l : list re) (s s' : st) :
  In s' (run ic (seq (r :: l)) s) ->
  exists s1, In s1 (run ic r s) /\ In s' (run ic (seq l) s1).
Proof.
  destruct l as [|r' l].
  - intro H. exists s'. split; [exact H | now left].
  - intro H. change (seq (r :: r' :: l)) with (Cat r (seq (r' :: l))) in H.
    rewrite run_cat in H. apply in_flat_map in H. exact H.
Qed.

Lemma run_seq_plain (ic : bool) (A l : list re) (s s' : st) :
  forallb nogroup A = true ->
  In s' (run ic (seq (A ++ l)) s) ->
  exists s1,
    reach (fun _ => True) s s1 /\ caps s1 = caps s /\
    In s' (run ic (seq l) s1).
Proof.
  revert s. induction A as [|a A IH]; intros s G H.
  - exists s. split; [apply reach_refl|]. auto.
  - cbn [forallb] in G. apply andb_true_iff in G. destruct G as [Ga GA].
    change ((a :: A) ++ l) with (a :: (A ++ l)) in H.
    apply run_seq_cons in H. destruct H as (s1 & H1 & H2).
    destruct (IH s1 GA H2) as (s2 & R & K & H3).
    exists s2. split; [|split; [|exact H3]].
    + eapply reach_trans; [apply (@run_text ic a s s1 H1) | exact R].
    + rewrite K. apply (@run_nogroup ic a Ga s s1 H1).
Qed.

Lemma consuming_lit (ic : bool) (c : ascii) : consuming ic (Lit c).
Proof.
  intros s s' H. cbn [run] in H. apply eat_inv in H.
  destruct H as (x & _ & R & _). rewrite R. simpl. lia.
Qed.

Lemma consuming_cat (ic : bool) (a b : re) :
  consuming ic a -> consuming ic (Cat a b).
Proof.
  intros Ca s s' H. rewrite run_cat in H. apply in_flat_map in H.
  destruct H as (s1 & H1 & H2). apply Ca in H1.
  apply run_text, reach_shorter in H2. lia.
Qed.

Lemma consuming_alt (ic : bool) (a b : re) :
  consuming ic a -> consuming ic b -> consuming ic (Alt a b).
Proof.
  intros Ca Cb s s' H. cbn [run] in H. apply in_app_iff in H.
  destruct H; [now apply Ca | now apply Cb].
Qed.

Ltac letters_only :=
  simpl; repeat split;
  let x := fresh "x" in
  intro x; destruct x as [[] [] [] [] [] [] [] []];
  try discriminate; try reflexivity.

Ltac consumes :=
  repeat first [apply consuming_alt | apply consuming_cat | apply consuming_lit].

Ltac shaped A B X :=
  exists A, B, X;
  split; [reflexivity|]; split; [reflexivity|]; split; [reflexivity|];
  split; [letters_only|]; split; [|reflexivity];
  cbv [Parser.Mtr Parser.Mtr_or_Meter word alt seq map py
       list_ascii_of_string]; consumes.

Lemma shaped_first : sarom_shaped Parser.sarom_first.
Proof.
  shaped [Parser.sws;
          alt [word "My"; word "Mtr"; word "Meter"; word "Mtr,"; word "Mtr~";
               Cat Parser.Mtr (Lit Parser.dquote)];
          Parser.sws]
         [Parser.sws] (alt [word "Mu"; word "Mtr"; word "Meter"]).
Qed.

Lemma shaped_either : sarom_shaped Parser.sarom_either.
Proof.
  shaped [Parser.sws; Parser.Mtr_or_Meter; Parser.sws] [Parser.sws]
         Parser.Mtr_or_Meter.
Qed.

Lemma shaped_quote : sarom_shaped Parser.sarom_quote.
Proof.
  shaped [Parser.sws; Parser.Mtr; Lit Parser.dquote; Parser.sws] [Parser.sws]
         Parser.Mtr.
Qed.

Lemma shaped_plain : sarom_shaped Parser.sarom_plain.
Proof. shaped [Parser.sws; Parser.Mtr; Parser.sws] [Parser.sws] Parser.Mtr. Qed.

Lemma shaped_flexible : sarom_shaped Parser.sarom_flexible.
Proof.
  shaped [Parser.sws; Parser.Mtr; Star (NoneOf [Dig]); Parser.sws] [Parser.sws]
         Parser.Mtr.
Qed.

Lemma sarom_patterns_shaped : Forall sarom_shaped Parser.sarom_patterns.
Proof.
  unfold Parser.sarom_patterns.
  repeat (constructor;
          [first [ apply shaped_first | apply shaped_either
                 | apply shaped_quote | apply shaped_plain
                 | apply shaped_flexible | idtac ]|]).
  - shaped [Parser.Mtr_or_Meter; alt [Lit ","; Lit "~"; Lit "-"]; Parser.sws]
           [Parser.sws] Parser.Mtr_or_Meter.
  - shaped [Parser.sws; word "Mtr~"; Parser.sws; Opt (Lit ","); Parser.sws]
           [Parser.sws] Parser.Mtr.
  - shaped [Parser.sws; word "Mtr,"; Parser.sws] [Parser.sws] Parser.Mtr.
  - shaped [Parser.sws; word "Mtr-"; Parser.sws] [Parser.sws] (word "Mu").
  - constructor.
Qed.

(** A match of a pattern of that shape captures two numerals and an
    amount; in a text whose commas follow digits the amount starts with a
    digit. *)
Lemma shaped_groups (r : re) (s s' : st) :
  sarom_shaped r -> In s' (run true r s) ->
  exists w1 w2 w3,
    decimal w1 /\ decimal w2 /\ amount_text w3 /\
    (tidy s -> exists c t, w3 = c :: t /\ is_digit c = true) /\
    caps s' = (3, w3) :: (2, w2) :: (1, w1) :: caps s.
Proof.
  intros (A & B & X & GA & GB & GX & OX & CX & ->) H.
  apply run_seq_cons in H. destruct H as (s1 & H1 & H).
  pose proof (@run_text true _ s s1 H1) as R1.
  apply num_decimal in H1. destruct H1 as (w1 & D1 & _ & K1).
  apply (@run_seq_plain true A _ s1 s' GA) in H.
  destruct H as (s2 & R2 & K2 & H).
  apply run_seq_cons in H. destruct H as (s3 & H3 & H).
  pose proof (@run_text true _ s2 s3 H3) as R3.
  apply num_decimal in H3. destruct H3 as (w2 & D2 & _ & K3).
  apply (@run_seq_plain true B _ s3 s' GB) in H.
  destruct H as (s4 & R4 & K4 & H).
  apply run_seq_cons in H. destruct H as (s5 & H5 & H).
  apply run_seq_cons in H. destruct H as (s6 & H6 & H).
  cbn [seq] in H. apply amt_shape in H. destruct H as (w3 & T3 & E3 & K7).
  pose proof (@run_reach true _ X OX s4 s5 H5) as R5.
  assert (R6 : reach (fun c => is_digit c = false) s5 s6).
  { apply (@run_reach true _ Parser.sws); [|exact H6].
    intros x Hx. now apply (space_not_digit true). }
  exists w1, w2, w3.
  split; [exact D1|]. split; [exact D2|]. split; [exact T3|]. split.
  - intro T.
    assert (T6 : tidy s6).
    { apply (reach_tidy R6), (reach_tidy R5), (reach_tidy R4),
        (reach_tidy R3), (reach_tidy R2), (reach_tidy R1), T. }
    assert (N6 : head_digit (pre s6) = false).
    { apply (reach_head R6). left. apply (reach_head R5). right.
      now apply CX. }
    unfold tidy in T6. rewrite N6, E3 in T6.
    destruct T3 as (a & b & Na & Fa & _ & W).
    destruct a as [|c a']; [congruence|].
    inversion Fa as [|? ? Fc Fa']; subst.
    destruct Fc as [Dc| ->].
    + destruct W as [->|[_ ->]];
        [exists c, a' | exists c, (a' ++ "."%char :: b)];
        (split; [reflexivity | exact Dc]).
    + exfalso. destruct W as [->|[_ ->]]; discriminate.
  - rewrite K7, (@run_nogroup true Parser.sws eq_refl s5 s6 H6),
      (@run_nogroup true X GX s4 s5 H5), K4, K3, K2, K1. reflexivity.
Qed.

Lemma search_shaped (r : re) (line : str) (m : mobj) :
  sarom_shaped r -> re_search true r line = Some m ->
  exists w1 w2 w3,
    decimal w1 /\ decimal w2 /\ amount_text w3 /\
    (commas_follow_digits false line = true ->
     exists c t, w3 = c :: t /\ is_digit c = true) /\
    Parser.group_or_empty 1 m = w1 /\ Parser.group_or_empty 2 m = w2 /\
    Parser.group_or_empty 3 m = w3.
Proof.
  intros Sh H. apply search_from_spec in H. destruct H as (a & b & T & _ & M).
  apply match_here_run in M. destruct M as [_ M].
  destruct (@shaped_groups r _ _ Sh M) as (w1 & w2 & w3 & D1 & D2 & T3 & Hd & K).
  exists w1, w2, w3.
  split; [exact D1|]. split; [exact D2|]. split; [exact T3|]. split.
  - intro C. apply Hd. unfold tidy. cbn [pre rest].
    rewrite head_digit_rev. cbn [head_digit].
    rewrite T, cfd_app in C. apply andb_true_iff in C. apply C.
  - unfold Parser.group_or_empty, group. rewrite K. auto.
Qed.

(** The loop over the patterns for one line. *)
Lemma sarom_try_spec (patterns : list re) (line : str) :
  Forall sarom_shaped patterns ->
  (commas_follow_digits false line = true ->
   exists r, Parser.sarom_try patterns line = Ok r) /\
  (forall it, Parser.sarom_try patterns line = Ok (Some it) -> sarom_item it).
Proof.
  induction 1 as [|pattern more Sh _ IH]; cbn [Parser.sarom_try].
  - split; [eauto | discriminate].
  - destruct (re_search true pattern line) as [m|] eqn:E; [|exact IH].
    destruct (@search_shaped pattern line m Sh E)
      as (w1 & w2 & w3 & D1 & D2 & T3 & Hd & E1 & E2 & E3).
    rewrite E1, E2, E3.
    destruct (@float_decimal w1 D1) as (q1 & F1 & N1).
    destruct (@float_decimal w2 D2) as (q2 & F2 & N2).
    rewrite F1, F2. cbn [bind].
    destruct (Parser.float (remove_char "," w3)) as [q3|e] eqn:F3; cbn [bind].
    + cbv zeta.
      destruct (nonempty_str (strip (before m)) &&
                (3 <=? length (Parser._clean_sarom_fabric_name
                                 (strip (before m))))) eqn:C; [|exact IH].
      split; [eauto|]. intros it H. inversion H; subst it.
      apply andb_true_iff in C. destruct C as [_ C]. apply Nat.leb_le in C.
      split; [exact C|]. cbn [Parser.quantity Parser.rate Parser.amount].
      split; [exists q1; auto|]. split; [exists q2; auto|].
      exists q3. split; [reflexivity|].
      apply (@float_amount_nonneg w3 q3 (amount_text_chars T3) F3).
    + split; [|discriminate]. intro C. destruct (Hd C) as (c & t & Ew & Dc).
      destruct (@float_amount_text w3 c t T3 Ew Dc) as (q & Fq). congruence.
Qed.

(** *** The lines of a text whose commas follow digits *)

Lemma split_on_cfd (sep : ascii) (s cur : str) :
  is_digit sep = false ->
  commas_follow_digits false (rev cur ++ s) = true ->
  Forall (fun l => commas_follow_digits false l = true) (split_on sep cur s).
Proof.
  intro Ns. revert cur. induction s as [|c s IH]; intros cur H; cbn [split_on].
  - rewrite app_nil_r in H. constructor; [exact H | constructor].
  - destruct (eqc c sep) eqn:E.
    + apply Ascii.eqb_eq in E. subst c.
      rewrite cfd_app in H. apply andb_true_iff in H. destruct H as [H1 H2].
      constructor; [exact H1|]. apply IH. cbn [rev app].
      cbn [commas_follow_digits] in H2. apply andb_true_iff in H2.
      destruct H2 as [_ H2]. now rewrite Ns in H2.
    + apply IH. cbn [rev]. rewrite <- app_assoc. exact H.
Qed.

Lemma lstrip_cfd (s : str) :
  commas_follow_digits false s = true ->
  commas_follow_digits false (lstrip s) = true.
Proof.
  induction s as [|c s IH]; [auto|]. cbn [lstrip]. intro H.
  destruct (is_space c) eqn:E; [|exact H]. apply IH.
  cbn [commas_follow_digits] in H. apply andb_true_iff in H.
  destruct H as [_ H].
  assert (D : is_digit c = false) by (revert E; each_char c).
  now rewrite D in H.
Qed.

Lemma lstrip_suffix (s : str) : exists z, s = z ++ lstrip s.
Proof.
  induction s as [|c s (z & IH)]; [now exists []|]. cbn [lstrip].
  destruct (is_space c); [|now exists []].
  exists (c :: z). cbn [app]. now rewrite <- IH.
Qed.

Lemma rstrip_cfd (d : bool) (s : str) :
  commas_follow_digits d s = true -> commas_follow_digits d (rstrip s) = true.
Proof.
  intro H. destruct (lstrip_suffix (rev s)) as (z & E).
  assert (S : s = rstrip s ++ rev z).
  { unfold rstrip. rewrite <- rev_app_distr, <- E. now rewrite rev_involutive. }
  rewrite S, cfd_app in H. apply andb_true_iff in H. apply H.
Qed.

Lemma strip_cfd (s : str) :
  commas_follow_digits false s = true ->
  commas_follow_digits false (strip s) = true.
Proof. intro H. unfold strip. now apply rstrip_cfd, lstrip_cfd. Qed.

(** [_parse_sarom_format] converts what its patterns capture without a
    guard. When it returns, every item has a name of three characters or
    more and a quantity, a rate and an amount that are present and not
    negative. It returns for every text in which each comma follows a
    digit; an amount that is a comma alone raises [ValueError]. *)
Theorem sarom_items_not_negative (text : str) :
  (forall items,
      Parser._parse_sarom_format text = Ok items -> Forall sarom_item items) /\
  (commas_follow_digits false text = true ->
   exists items, Parser._parse_sarom_format text = Ok items) /\
  Parser._parse_sarom_format comma_amount = Raise ValueError.
Proof.
  split; [|split; [|vm_compute; reflexivity]].
  - intros items H. unfold Parser._parse_sarom_format in H.
    apply (for_each_preserves (Forall sarom_item)) in H;
      [exact H | constructor |].
    clear H. intros s line s' _ I H. cbv zeta in H.
    destruct (length (strip line) <? 10); [now inversion H; subst|].
    destruct (@sarom_try_spec Parser.sarom_patterns (strip line)
                sarom_patterns_shaped) as [_ S].
    destruct (Parser.sarom_try Parser.sarom_patterns (strip line))
      as [[it|]|e]; cbn [bind] in H; [| |discriminate];
      inversion H; subst; [|exact I].
    apply Forall_app. split; [exact I|].
    constructor; [now apply S | constructor].
  - intro C. unfold Parser._parse_sarom_format.
    destruct (@for_each_invariant_in str (list Parser.InvoiceLine)
                (fun _ => True)
                (fun fabric_details line =>
                   let line := strip line in
                   if length line <? 10 then Ok fabric_details
                   else
                     item <- Parser.sarom_try Parser.sarom_patterns line ;;
                     match item with
                     | Some it => Ok (fabric_details ++ [it])
                     | None => Ok fabric_details
                     end)
                (split_char "010" text) [] I) as (items & E & _);
      [|eauto].
    intros s line Hl _. cbv zeta.
    destruct (length (strip line) <? 10); [eauto|].
    assert (Cl : commas_follow_digits false (strip line) = true).
    { apply strip_cfd.
      pose proof (@split_on_cfd "010" text [] eq_refl C) as F.
      rewrite Forall_forall in F. now apply F. }
    destruct (@sarom_try_spec Parser.sarom_patterns (strip line)
                sarom_patterns_shaped) as [S _].
    destruct (S Cl) as ([it|] & ->); cbn [bind]; eauto.
Qed.

(** The line of the Sarom layout with the amount 2,988.00. *)
Lemma sarom_items_not_negative_witness :
  exists items,
    Parser._parse_sarom_format (sarom_line (py "CASSIA - 101")) = Ok items /\
    Forall sarom_item items.
Proof.
  destruct (sarom_items_not_negative (sarom_line (py "CASSIA - 101")))
    as (S & T & _).
  destruct (T eq_refl) as (items & E). exists items. split; [exact E|].
  now apply S.
Defined.
